(** * Schema management of the cqlengine object mapper

    A shallow embedding of [cassandra/cqlengine/management.py]: the option
    codec ([_options_map_from_strings]), the option reconciliation
    ([_update_options]), the synchronisation of user defined types
    ([_sync_type]) and of tables ([sync_table]).

    The module talks to four collaborators that are not part of it: the
    JSON parser ([json.loads]), the statement executor ([execute]), the
    metadata refresh of the cluster object and the process environment
    ([os.getenv]); and it runs on an interpreter, Python 2 or Python 3,
    with its builtins and its order of iteration over a dictionary.
    They are variables of the section in which the embedding lives; a
    concrete instance (a small cluster that applies every statement to
    its schema at once, a dictionary iterated in the order of insertion)
    is given after the section and is used to run the code on
    examples. *)

From Stdlib Require Import ZArith Ascii String List.
From stdpp Require Import base option list gmap strings fin_maps fin_sets.

Local Open Scope string_scope.
Local Open Scope Z_scope.

(** ** Python string operations used by the module *)

Module PyStr.

(** The double quote character (code 34). *)
Definition dquote : ascii := ascii_of_nat 34.
(** The single quote character (code 39). *)
Definition squote : ascii := ascii_of_nat 39.

Fixpoint find_from (c : ascii) (s : string) (i : Z) : Z :=
  match s with
  | EmptyString => -1
  | String a s' => if Ascii.eqb a c then i else find_from c s' (i + 1)
  end.

(** [s.find(c)]: index of the first occurrence of [c], or [-1]. *)
Definition find (c : ascii) (s : string) : Z := find_from c s 0.

Fixpoint rfind_from (c : ascii) (s : string) (i last : Z) : Z :=
  match s with
  | EmptyString => last
  | String a s' => rfind_from c s' (i + 1) (if Ascii.eqb a c then i else last)
  end.

(** [s.rfind(c)]: index of the last occurrence of [c], or [-1]. *)
Definition rfind (c : ascii) (s : string) : Z := rfind_from c s 0 (-1).

(** [s[i:j]] for non-negative [i] and [j]; empty when [j <= i]. *)
Definition slice (s : string) (i j : Z) : string :=
  String.substring (Z.to_nat i) (Z.to_nat (j - i)) s.

(** [s.replace(a, b)] for one-character [a] and [b]. *)
Fixpoint replace (a b : ascii) (s : string) : string :=
  match s with
  | EmptyString => EmptyString
  | String c s' => String (if Ascii.eqb c a then b else c) (replace a b s')
  end.

(** [s.split(c)] for a one-character separator: never empty. *)
Fixpoint split (c : ascii) (s : string) : list string :=
  match s with
  | EmptyString => [EmptyString]
  | String a s' =>
      if Ascii.eqb a c then EmptyString :: split c s'
      else match split c s' with
           | p :: ps => String a p :: ps
           | [] => [String a EmptyString]
           end
  end.

(** The characters removed by [strip()] from a string of text, a
    character being a code point below 256: the space, the controls
    U+0009 to U+000D and U+001C to U+001F, the next line U+0085 and the
    no-break space U+00A0. *)
Definition is_space (a : ascii) : bool :=
  let n := nat_of_ascii a in
  (Nat.eqb n 32 || (Nat.leb 9 n && Nat.leb n 13) || (Nat.leb 28 n && Nat.leb n 31)
   || Nat.eqb n 133 || Nat.eqb n 160)%bool.

Fixpoint lstrip (s : string) : string :=
  match s with
  | EmptyString => EmptyString
  | String a s' => if is_space a then lstrip s' else s
  end.

Fixpoint rstrip (s : string) : string :=
  match s with
  | EmptyString => EmptyString
  | String a s' =>
      match rstrip s' with
      | EmptyString => if is_space a then EmptyString else String a EmptyString
      | r => String a r
      end
  end.

(** [s.strip()]. *)
Definition strip (s : string) : string := rstrip (lstrip s).

(** [needle in hay] on strings. *)
Fixpoint contains (needle hay : string) : bool :=
  (String.prefix needle hay
   || match hay with
      | EmptyString => false
      | String _ h => contains needle h
      end)%bool.

End PyStr.

(** ** Exceptions *)

Inductive exn : Type :=
| CQLEngineException (message : string)
    (** [cassandra.cqlengine.CQLEngineException] or a subclass *)
| KeyError (key : string)
    (** a failed dictionary lookup [d[key]] *)
| InvalidTableOption (name : string) (known : list string)
    (** the [KeyError] raised by [_update_options] for an unknown option;
        its message names the option and lists the known ones *)
| UnpackError (pieces : nat)
    (** [ValueError]: [name, value = ...] on a list that has not two items *)
| JSONDecodeError (text : string)
    (** [ValueError] raised by [json.loads] *)
| AttributeError (attribute : string)
    (** the object has no such attribute *)
| DriverError (class message : string)
    (** any other exception that [execute] lets through *)
| NameError (name : string).
    (** the name is bound neither in the module nor among the builtins *)

(** The interpreter that runs the module.  The module imports [six], so
    it is meant for both; those two differ in the builtins. *)
Inductive python_version : Type := Python2 | Python3.

#[global] Instance exn_eq_dec : EqDecision exn.
Proof. solve_decision. Defined.

(** ** The declared schema: columns, user defined types, table models *)

(** A cqlengine column (of a table model or of a user type) and a user
    type class.  [udts] is what [columns.resolve_udts(col, udts)] appends
    for the column; [column_def] is [col.get_column_def()].  [class_id]
    is the identity of the Python class object: membership of a class in
    a [set] compares identities. *)
Inductive Column : Type :=
  mkColumn {
    db_field_name : string;
    primary_key : bool;
    partition_key : bool;
    index : bool;
    column_def : string;
    clustering_order : option string;
    udts : list UserType }
with UserType : Type :=
  mkUserType {
    class_id : nat;
    type_name : string;
    _fields : list Column }.

(** A table model class. *)
Record Model : Type :=
  mkModel {
    is_model : bool;                 (* issubclass(model, Model) *)
    __abstract__ : bool;
    column_family_name : string;     (* model.column_family_name() *)
    _raw_column_family_name : string;
    _get_keyspace : string;
    _columns : list (string * Column);  (* model._columns.items() *)
    _clustering_keys : list Column;     (* model._clustering_keys.values() *)
    model_option_strings : list string
      (* TableMetadataV3._make_option_strings(model.__options__ or {}) *) }.

(** ** The live schema, as the cluster metadata shows it *)

(** [cluster.metadata.keyspaces[ks].tables[name]]: [tm_columns] is
    [columns.keys()], [tm_primary_key] the names of the columns of
    [primary_key], [tm_option_strings] is
    [set(table_meta._make_option_strings(table_meta.options))] in the
    order in which the set is iterated, and [tm_indexes] the names under
    which [indexes.get] finds an index. *)
Record TableMetadata : Type :=
  mkTableMetadata {
    tm_columns : list string;
    tm_primary_key : list string;
    tm_option_strings : list string;
    tm_indexes : gset string }.

(** A keyspace: its tables and, for every user type, its [field_names]. *)
Record KeyspaceMetadata : Type :=
  mkKeyspaceMetadata {
    tables : gmap string TableMetadata;
    user_types : gmap string (list string) }.

(** [cluster.metadata.keyspaces]. *)
Abbreviation Cluster := (gmap string KeyspaceMetadata).

(** [_get_non_pk_field_names(table_meta)] *)
Definition _get_non_pk_field_names (table_meta : TableMetadata) : list string :=
  let pk_names := tm_primary_key table_meta in
  filter (fun name => name ∉ pk_names) (tm_columns table_meta).

(** ['"{0}"'.format(name)] *)
Definition quoted (name : string) : string :=
  String PyStr.dquote (name ++ String PyStr.dquote EmptyString).

(** [_get_create_table(model)]: the text of the CREATE TABLE statement.
    [add_column] appends to [pkeys] or [ckeys] and to [qtypes]; the three
    lists are built here by three passes over the same columns. *)
Definition _get_create_table (model : Model) : string :=
  let ks_table_name := column_family_name model in
  let query_strings := ["CREATE TABLE " ++ ks_table_name] in
  let cols : list Column := (_columns model).*2 in
  let key_names (partition : bool) : list string :=
    map (fun col => quoted (db_field_name col))
      (filter (fun col => primary_key col = true
                          /\ partition_key col = partition) cols) in
  let pkeys := key_names true in
  let ckeys := key_names false in
  let qtypes : list string := map column_def cols in
  let primary_key_def :=
    "PRIMARY KEY ((" ++ String.concat ", " pkeys ++ ")"
    ++ match ckeys with
       | [] => ""
       | _ => ", " ++ String.concat ", " ckeys
       end ++ ")" in
  let qtypes := app qtypes [primary_key_def] in
  let query_strings :=
    app query_strings ["(" ++ String.concat ", " qtypes ++ ")"] in
  let _order : list string :=
    map (fun c =>
           quoted (db_field_name c) ++ " "
           ++ match clustering_order c with
              | None | Some "" => "ASC"
              | Some order => order
              end)
      (_clustering_keys model) in
  let property_strings :=
    match _order with
    | [] => []
    | _ => ["CLUSTERING ORDER BY (" ++ String.concat ", " _order ++ ")"]
    end in
  let property_strings := app property_strings (model_option_strings model) in
  let query_strings :=
    match property_strings with
    | [] => query_strings
    | _ => app query_strings
             ["WITH " ++ String.concat " AND " property_strings]
    end in
  String.concat " " query_strings.

Inductive loglevel : Type := Debug | Info | Warning.

Section Management.

(** The values that [json.loads] puts in a dictionary, with Python's
    [==] on them. *)
Context {V : Type} `{EqDecision V}.

(** A normalised option value: a string or a dictionary. *)
Inductive optval : Type :=
| OptStr (s : string)
| OptDict (d : gmap string V).

#[global] Instance optval_eq_dec : EqDecision optval.
Proof. solve_decision. Defined.

(** The statements handed to [execute].  Their text is rendered by the
    driver from the objects a constructor carries
    ([get_column_def], [as_cql_query], [_make_option_strings]). *)
Inductive stmt : Type :=
| CreateKeyspace (name : string) (durable_writes : bool)
    (strategy_class : string) (strategy_options : list (string * string))
| DropKeyspace (name : string)
| CreateType (ks_name : string) (type_model : UserType)
    (** [get_create_type(type_model, ks_name)] *)
| AlterTypeAdd (ks_name type_name : string) (field : Column)
    (** ALTER TYPE ks_name.type_name ADD field *)
| CreateTable (model : Model)
    (** [_get_create_table(model)] *)
| AlterTableAdd (cf_name : string) (col : Column)
    (** ALTER TABLE cf_name add col *)
| AlterTableWith (cf_name : string) (update_options : gmap string optval)
    (** ALTER TABLE cf_name WITH the options *)
| CreateIndex (index_name cf_name field_name : string)
    (** CREATE INDEX index_name ON cf_name (field_name) *)
| DropTable (cf_name : string).

(** The text of a statement, where this module formats it; the text of
    the others comes from the driver ([as_cql_query], [protect_name],
    [_make_option_strings]). *)
Definition query_string (s : stmt) : option string :=
  match s with
  | CreateTable model => Some (_get_create_table model)
  | AlterTypeAdd ks_name type_name field =>
      Some ("ALTER TYPE " ++ (ks_name ++ "." ++ type_name) ++ " ADD "
            ++ column_def field)
  | AlterTableAdd cf_name col =>
      Some ("ALTER TABLE " ++ cf_name ++ " add " ++ column_def col)
  | CreateIndex index_name cf_name field_name =>
      Some (String.concat " "
              ["CREATE INDEX " ++ index_name;
               "ON " ++ cf_name;
               "(" ++ quoted field_name ++ ")"])
  | DropTable cf_name => Some ("DROP TABLE " ++ cf_name ++ ";")
  | CreateKeyspace _ _ _ _ | DropKeyspace _ | CreateType _ _
  | AlterTableWith _ _ => None
  end.

(** What a call leaves behind, in order. *)
Inductive event : Type :=
| Executed (s : stmt)                         (* execute(s) *)
| Refreshed (ks_name type_name : string)      (* refresh_user_type_metadata *)
| Registered (ks_name : string) (class : nat) (* register_for_keyspace *)
| Logged (level : loglevel) (format : string) (args : list string)
| Warned (message : string).

(** *** Collaborators *)

(** [json.loads]; [None] when it raises [ValueError]. *)
Variable json_loads : string -> option (gmap string V).
(** The executor: the metadata after the statement, and the exception
    it raised, if any. *)
Variable exec : stmt -> Cluster -> Cluster * option exn.
(** [cluster.refresh_user_type_metadata(ks_name, type_name)] *)
Variable refresh_user_type_metadata : string -> string -> Cluster -> Cluster.
(** [os.getenv] *)
Variable os_getenv : string -> option string.
(** The interpreter. *)
Variable python : python_version.
(** The order in which the interpreter iterates over a dictionary, given
    its keys in the order of their insertion: that same order since
    Python 3.7, the order of the hash table before; in any case every
    key once. *)
Variable dict_order : forall keys : list string, {order : list string | order ≡ₚ keys}.

(** *** Computations: metadata state, emitted events, exceptions *)

Record run (A : Type) : Type :=
  mkRun { emitted : list event; cluster_after : Cluster; result : exn + A }.
Arguments mkRun {A} _ _ _.
Arguments emitted {A} _.
Arguments cluster_after {A} _.
Arguments result {A} _.

Definition M (A : Type) : Type := Cluster -> run A.

Definition ret {A} (a : A) : M A := fun c => mkRun [] c (inr a).
Definition raise {A} (e : exn) : M A := fun c => mkRun [] c (inl e).
Definition bind {A B} (m : M A) (f : A -> M B) : M B := fun c =>
  let r := m c in
  match result r with
  | inl e => mkRun (emitted r) (cluster_after r) (inl e)
  | inr a =>
      let r' := f a (cluster_after r) in
      mkRun (emitted r ++ emitted r') (cluster_after r') (result r')
  end.

Notation "'do' x <- m ; k" := (bind m (fun x => k))
  (at level 10, x name, m at level 100, k at level 200).

Definition emit (e : event) : M unit := fun c => mkRun [e] c (inr tt).
Definition log (level : loglevel) (format : string) (args : list string) : M unit :=
  emit (Logged level format args).
Definition get_metadata : M Cluster := fun c => mkRun [] c (inr c).
Definition lift {A} (r : exn + A) : M A :=
  match r with inl e => raise e | inr a => ret a end.

(** [d[key]] on a dictionary. *)
Definition getitem {A} (d : gmap string A) (key : string) : M A :=
  match d !! key with
  | Some a => ret a
  | None => raise (KeyError key)
  end.

(** [execute(s)] *)
Definition execute (s : stmt) : M unit := fun c =>
  let '(c', r) := exec s c in
  mkRun [Executed s] c' (match r with Some e => inl e | None => inr tt end).

(** [for x in xs: body x] *)
Fixpoint for_each {A} (xs : list A) (body : A -> M unit) : M unit :=
  match xs with
  | [] => ret tt
  | x :: xs' => do _ <- body x; for_each xs' body
  end.

(** [for x in xs: body x], where the body updates a local variable. *)
Fixpoint fold_each {A S} (xs : list A) (s : S) (body : A -> S -> M S) : M S :=
  match xs with
  | [] => ret s
  | x :: xs' => do s' <- body x s; fold_each xs' s' body
  end.

(** [try: m except Exception as ex: handler ex] *)
Definition try_except {A} (m : M A) (handler : exn -> M A) : M A := fun c =>
  let r := m c in
  match result r with
  | inl ex =>
      let r' := handler ex (cluster_after r) in
      mkRun (emitted r ++ emitted r') (cluster_after r') (result r')
  | inr _ => r
  end.

(** The statements executed among the events. *)
Fixpoint executed (es : list event) : list stmt :=
  match es with
  | [] => []
  | Executed s :: es' => s :: executed es'
  | _ :: es' => executed es'
  end.

Definition CQLENG_ALLOW_SCHEMA_MANAGEMENT : string :=
  "CQLENG_ALLOW_SCHEMA_MANAGEMENT".

(** [_allow_schema_modification()] *)
Definition _allow_schema_modification : M bool :=
  let msg := CQLENG_ALLOW_SCHEMA_MANAGEMENT ++
    " environment variable is not set. Future versions of this package will require this variable to enable management functions." in
  do _ <- (match os_getenv CQLENG_ALLOW_SCHEMA_MANAGEMENT with
           | None | Some EmptyString =>
               do _ <- emit (Warned msg); log Warning msg []
           | Some _ => ret tt
           end);
  ret true.

(** *** The option codec *)

(** The body of the loop of [_options_map_from_strings]: one option
    string gives one entry of the dictionary. *)
Definition decode_option (option : string) : exn + (string * optval) :=
  match PyStr.split "=" option with
  | [name; value] =>
      let i := PyStr.find "{" value in
      if 0 <=? i then
        let value :=
          PyStr.replace PyStr.squote PyStr.dquote
            (PyStr.slice value i (PyStr.rfind "}" value + 1)) in
        match json_loads value with
        | Some d => inr (PyStr.strip name, OptDict d)
        | None => inl (JSONDecodeError value)
        end
      else inr (PyStr.strip name, OptStr (PyStr.strip value))
  | pieces => inl (UnpackError (length pieces))
  end.

Fixpoint options_loop (option_strings : list string)
    (options : gmap string optval) : exn + gmap string optval :=
  match option_strings with
  | [] => inr options
  | option :: rest =>
      match decode_option option with
      | inl ex => inl ex
      | inr (name, value) => options_loop rest (<[name := value]> options)
      end
  end.

(** [_options_map_from_strings(option_strings)] *)
Definition _options_map_from_strings (option_strings : list string)
    : exn + gmap string optval :=
  options_loop option_strings ∅.

(** *** Option reconciliation *)

(** The loop over [value.items()] in [_update_options]: [inr true]
    when it breaks on a different value, [inr false] when it ends,
    [KeyError] when [existing_value[k]] fails. *)
Fixpoint compare_items (items : list (string * V))
    (existing_value : gmap string V) : exn + bool :=
  match items with
  | [] => inr false
  | (k, v) :: rest =>
      match existing_value !! k with
      | None => inl (KeyError k)
      | Some x =>
          if bool_decide (x ≠ v) then inr true
          else compare_items rest existing_value
      end
  end.

(** Whether [update_options[name] = value] is run for one option. *)
Definition option_changed (value existing_value : optval) : exn + bool :=
  match existing_value with
  | OptStr _ => inr (bool_decide (value ≠ existing_value))
  | OptDict e =>
      match value with
      | OptStr _ => inl (AttributeError "items")
      | OptDict d =>
          match compare_items (map_to_list d) e with
          | inl (KeyError _) => inr true       (* except KeyError *)
          | inl ex => inl ex
          | inr b => inr b
          end
      end
  end.

(** The loop of [_update_options] over [items], the items of
    [model_options] in the order of the iteration; [existing_keys] is
    [existing_options.keys()]. *)
Fixpoint diff_loop (items : list (string * optval)) (existing_keys : list string)
    (existing_options update_options : gmap string optval)
    : exn + gmap string optval :=
  match items with
  | [] => inr update_options
  | (name, value) :: rest =>
      match existing_options !! name with
      | None => inl (InvalidTableOption name existing_keys)
      | Some existing_value =>
          match option_changed value existing_value with
          | inl ex => inl ex
          | inr true =>
              diff_loop rest existing_keys existing_options
                (<[name := value]> update_options)
          | inr false => diff_loop rest existing_keys existing_options update_options
          end
      end
  end.

(** The keys of the dictionary that [_options_map_from_strings] builds
    from [option_strings], in the order of their first insertion:
    [options[name.strip()] = value] on a key that the dictionary has
    keeps the place of the key. *)
Fixpoint keys_loop (option_strings : list string) (keys : list string) : list string :=
  match option_strings with
  | [] => keys
  | option :: rest =>
      match decode_option option with
      | inl _ => keys
      | inr (name, _) =>
          keys_loop rest (if bool_decide (name ∈ keys) then keys else app keys [name])
      end
  end.

Definition insertion_order (option_strings : list string) : list string :=
  keys_loop option_strings [].

(** [options.keys()] and [options.items()] where [options] is
    [_options_map_from_strings(option_strings)]. *)
Definition options_keys (option_strings : list string) : list string :=
  proj1_sig (dict_order (insertion_order option_strings)).

Definition options_items (option_strings : list string) (options : gmap string optval)
    : list (string * optval) :=
  omap (fun name => pair name <$> options !! name) (options_keys option_strings).

(** The dictionary [update_options] that [_update_options] builds, as a
    function of the two dictionaries alone: the loop in the order of the
    finite map.  Whatever the order of the interpreter, the loop of
    [_update_options] builds this dictionary when it ends, and it raises
    when this one does. *)
Definition option_diff (model_options existing_options : gmap string optval)
    : exn + gmap string optval :=
  diff_loop (map_to_list model_options) (fst <$> map_to_list existing_options)
    existing_options ∅.

(** [_get_table_metadata(model)] *)
Definition _get_table_metadata (model : Model) : M TableMetadata :=
  do cluster <- get_metadata;
  let ks := _get_keyspace model in
  let table := _raw_column_family_name model in
  do keyspace <- getitem cluster ks;
  getitem (tables keyspace) table.

(** [_update_options(model)] *)
Definition _update_options (model : Model) : M bool :=
  do _ <- log Debug "Checking %s for option differences" [column_family_name model];
  do table_meta <- _get_table_metadata model;
  let existing_option_strings := tm_option_strings table_meta in
  do existing_options <- lift (_options_map_from_strings existing_option_strings);
  let model_option_strings := model_option_strings model in
  do model_options <- lift (_options_map_from_strings model_option_strings);
  do update_options <-
    lift (diff_loop (options_items model_option_strings model_options)
            (options_keys existing_option_strings) existing_options ∅);
  if bool_decide (update_options ≠ ∅) then
    do _ <- execute (AlterTableWith (column_family_name model) update_options);
    ret true
  else ret false.

(** *** Synchronisation of user defined types *)

(** [a.symmetric_difference(b)] *)
Definition symmetric_difference (a b : gset string) : gset string :=
  (a ∖ b) ∪ (b ∖ a).

(** The set object behind [syncd_sub_types = omit_subtypes or set()]:
    an empty set and [None] are both false, so that only a non-empty
    argument is shared with the caller. *)
Definition shared_with_caller (omit_subtypes : option (gset nat)) : bool :=
  match omit_subtypes with
  | Some s => bool_decide (s ≠ ∅)
  | None => false
  end.

(** The loops of [_sync_type] over the fields and their user types, for
    a given treatment [rec] of one user type.  The comprehension
    [[u for u in udts if u not in syncd_sub_types]] is evaluated before
    the inner loop starts: [snapshot] is the set at that moment.  A call
    returns the content of the set it was given. *)
Definition sync_udts (rec : UserType -> option (gset nat) -> M (gset nat))
    : list UserType -> gset nat -> gset nat -> M (gset nat) :=
  fix loop (us : list UserType) (snapshot syncd_sub_types : gset nat) :=
    match us with
    | [] => ret syncd_sub_types
    | udt :: us' =>
        if bool_decide (class_id udt ∈ snapshot)
        then loop us' snapshot syncd_sub_types
        else
          do syncd_sub_types <- rec udt (Some syncd_sub_types);
          loop us' snapshot ({[class_id udt]} ∪ syncd_sub_types)
    end.

Definition sync_subtypes (rec : UserType -> option (gset nat) -> M (gset nat))
    : list Column -> gset nat -> M (gset nat) :=
  fix loop (fields : list Column) (syncd_sub_types : gset nat) :=
    match fields with
    | [] => ret syncd_sub_types
    | field :: rest =>
        do syncd_sub_types <-
          sync_udts rec (udts field) syncd_sub_types syncd_sub_types;
        loop rest syncd_sub_types
    end.

(** Lines 235 to 265 of [_sync_type]: the type itself, once its
    sub-types are done. *)
Definition sync_one_type (ks_name : string) (type_model : UserType) : M unit :=
  let type_name := type_name type_model in
  let type_name_qualified := ks_name ++ "." ++ type_name in
  do cluster <- get_metadata;
  do keyspace <- getitem cluster ks_name;
  let defined_types := user_types keyspace in
  match defined_types !! type_name with
  | None =>
      do _ <- log Debug "sync_type creating new type %s" [type_name_qualified];
      do _ <- execute (CreateType ks_name type_model);
      do _ <- (fun c => mkRun [Refreshed ks_name type_name]
                          (refresh_user_type_metadata ks_name type_name c) (inr tt));
      emit (Registered ks_name (class_id type_model))
  | Some defined_fields =>
      do model_fields <-
        fold_each (_fields type_model) (∅ : gset string) (fun field model_fields =>
          let model_fields := {[db_field_name field]} ∪ model_fields in
          if bool_decide (db_field_name field ∉ defined_fields) then
            do _ <- execute (AlterTypeAdd ks_name type_name field);
            ret model_fields
          else ret model_fields);
      do _ <- emit (Registered ks_name (class_id type_model));
      if bool_decide (length defined_fields = size model_fields) then
        log Info "Type %s did not require synchronization" [type_name_qualified]
      else
        let db_fields_not_in_model :=
          symmetric_difference model_fields (list_to_set defined_fields) in
        if bool_decide (db_fields_not_in_model ≠ ∅) then
          log Info "Type %s has fields not referenced by model: %s"
            (type_name_qualified :: elements db_fields_not_in_model)
        else ret tt
  end.

(** [_sync_type(ks_name, type_model, omit_subtypes)].  The value is the
    content, after the call, of the set that the caller passed. *)
Fixpoint _sync_type (ks_name : string) (type_model : UserType)
    (omit_subtypes : option (gset nat)) {struct type_model} : M (gset nat) :=
  let syncd_sub_types := default ∅ omit_subtypes in
  do syncd_sub_types <-
    sync_subtypes (_sync_type ks_name) (_fields type_model) syncd_sub_types;
  do _ <- sync_one_type ks_name type_model;
  ret (if shared_with_caller omit_subtypes then syncd_sub_types
       else default ∅ omit_subtypes).

(** [sync_type(ks_name, type_model)], for a class derived from
    [UserType]. *)
Definition sync_type (ks_name : string) (type_model : UserType) : M unit :=
  do allowed <- _allow_schema_modification;
  if negb allowed then ret tt
  else do _ <- _sync_type ks_name type_model None; ret tt.

(** *** Synchronisation of tables *)

Definition already_exists_message : string :=
  "Cannot add already existing column family".

(** Lines 145 to 150 of [sync_table]: the user types of every column. *)
Definition sync_column_types (ks_name : string) (model : Model) : M (gset nat) :=
  fold_each (snd <$> _columns model) (∅ : gset nat) (fun col syncd_types =>
    let udts := udts col in
    fold_each (filter (fun u => class_id u ∉ syncd_types) udts) syncd_types
      (fun udt syncd_types => _sync_type ks_name udt (Some syncd_types))).

(** [unicode(ex)] on an exception with the given message.  [unicode] is
    a builtin of Python 2 only, and the module binds no such name (its
    imports are [json], [logging], [os], [six], [warnings] and names of
    the driver): on Python 3 the lookup of the name fails. *)
Definition unicode (message : string) : M string :=
  match python with
  | Python2 => ret message
  | Python3 => raise (NameError "unicode")
  end.

(** Lines 154 to 163: the table is not among [tables]. *)
Definition create_table (model : Model) : M unit :=
  do _ <- log Debug "sync_table creating new table %s" [column_family_name model];
  let qs := CreateTable model in
  try_except (execute qs) (fun ex =>
    match ex with
    | CQLEngineException message =>
        (* 1.2 doesn't return cf names, so we have to examine the exception
           and ignore if it says the column family already exists *)
        do text <- unicode message;
        if negb (PyStr.contains already_exists_message text)
        then raise ex
        else ret tt
    | _ => raise ex
    end).

(** Lines 165 to 185: the table is among [tables]. *)
Definition update_table (model : Model) (table_meta : TableMetadata) : M unit :=
  let cf_name := column_family_name model in
  do _ <- log Debug "sync_table checking existing table %s" [cf_name];
  let field_names := _get_non_pk_field_names table_meta in
  do model_fields <-
    fold_each (_columns model) (∅ : gset string) (fun '(name, col) model_fields =>
      if (primary_key col || partition_key col)%bool then
        ret model_fields                    (* we can't mess with the PK *)
      else
        let model_fields := {[name]} ∪ model_fields in
        if bool_decide (db_field_name col ∈ field_names) then
          ret model_fields                  (* skip columns already defined *)
        else
          do _ <- execute (AlterTableAdd cf_name col);
          ret model_fields);
  let db_fields_not_in_model :=
    symmetric_difference model_fields (list_to_set field_names) in
  do _ <- (if bool_decide (db_fields_not_in_model ≠ ∅) then
             log Info "Table %s has fields not referenced by model: %s"
               (cf_name :: elements db_fields_not_in_model)
           else ret tt);
  do _ <- _update_options model;
  ret tt.

(** [index_{raw_cf_name}_{db_field_name}] *)
Definition index_name_of (raw_cf_name : string) (column : Column) : string :=
  "index_" ++ raw_cf_name ++ "_" ++ db_field_name column.

(** Lines 187 to 201: the indexes. *)
Definition sync_indexes (model : Model) : M unit :=
  let cf_name := column_family_name model in
  let raw_cf_name := _raw_column_family_name model in
  do cluster <- get_metadata;
  do keyspace <- getitem cluster (_get_keyspace model);
  do table <- getitem (tables keyspace) raw_cf_name;
  let indexes := snd <$> filter (fun nc => index (snd nc) = true) (_columns model) in
  for_each indexes (fun column =>
    let index_name := index_name_of raw_cf_name column in
    if bool_decide (index_name ∈ tm_indexes table) then ret tt
    else execute (CreateIndex index_name cf_name (db_field_name column))).

(** [sync_table(model)].  [tables] is the dictionary as line 143 reads
    it, before the user types are synchronised. *)
Definition sync_table (model : Model) : M unit :=
  do allowed <- _allow_schema_modification;
  if negb allowed then ret tt
  else if negb (is_model model) then
    raise (CQLEngineException "Models must be derived from base Model.")
  else if __abstract__ model then
    raise (CQLEngineException "cannot create table from abstract model")
  else
    let raw_cf_name := _raw_column_family_name model in
    let ks_name := _get_keyspace model in
    do cluster <- get_metadata;
    do keyspace <- getitem cluster ks_name;
    let tables := tables keyspace in
    do _ <- sync_column_types ks_name model;
    (* check for an existing column family *)
    do _ <- (match tables !! raw_cf_name with
             | None => create_table model
             | Some table_meta => update_table model table_meta
             end);
    sync_indexes model.

(** *** Keyspaces *)

(** [_create_keyspace(name, durable_writes, strategy_class,
    strategy_options)] *)
Definition _create_keyspace (name : string) (durable_writes : bool)
    (strategy_class : string) (strategy_options : list (string * string)) : M unit :=
  do allowed <- _allow_schema_modification;
  if negb allowed then ret tt
  else
    do cluster <- get_metadata;
    if bool_decide (name ∉ dom cluster) then
      do _ <- log Info "Creating keyspace %s " [name];
      execute (CreateKeyspace name durable_writes strategy_class strategy_options)
    else log Info "Not creating keyspace %s because it already exists" [name].

(** [create_keyspace_simple(name, replication_factor, durable_writes)];
    [replication_factor] as it is rendered. *)
Definition create_keyspace_simple (name replication_factor : string)
    (durable_writes : bool) : M unit :=
  _create_keyspace name durable_writes "SimpleStrategy"
    [("replication_factor", replication_factor)].

(** [create_keyspace_network_topology(name, dc_replication_map,
    durable_writes)] *)
Definition create_keyspace_network_topology (name : string)
    (dc_replication_map : list (string * string)) (durable_writes : bool) : M unit :=
  _create_keyspace name durable_writes "NetworkTopologyStrategy" dc_replication_map.


(** [drop_keyspace(name)] *)
Definition drop_keyspace (name : string) : M unit :=
  do allowed <- _allow_schema_modification;
  if negb allowed then ret tt
  else
    do cluster <- get_metadata;
    if bool_decide (name ∈ dom cluster) then execute (DropKeyspace name)
    else ret tt.

(** [drop_table(model)] *)
Definition drop_table (model : Model) : M unit :=
  do allowed <- _allow_schema_modification;
  if negb allowed then ret tt
  else
    do meta <- get_metadata;
    let ks_name := _get_keyspace model in
    let raw_cf_name := _raw_column_family_name model in
    try_except
      (do keyspace <- getitem meta ks_name;
       do _ <- getitem (tables keyspace) raw_cf_name;
       execute (DropTable (column_family_name model)))
      (fun ex =>
         match ex with
         | KeyError _ | InvalidTableOption _ _ => ret tt   (* except KeyError *)
         | _ => raise ex
         end).

End Management.

Arguments mkRun {V A} _ _ _.
Arguments emitted {V A} _.
Arguments cluster_after {V A} _.
Arguments result {V A} _.

(** ** A reference instance of the collaborators

    A reader for flat JSON objects (string keys; values that are strings
    without escapes, or bare literals such as numbers), and a cluster
    that applies a statement to its schema at once and whose metadata is
    always current.  They serve to run the code on examples. *)

Module Reference.

(** A value of a flat JSON object. *)
Inductive jatom : Type :=
| JString (s : string)
| JLiteral (token : string).

#[global] Instance jatom_eq_dec : EqDecision jatom.
Proof. solve_decision. Defined.

Inductive jstate : Type :=
| Start
| ExpectKey (first : bool)
| InKey (key : string)
| AfterKey (key : string)
| ExpectValue (key : string)
| InString (key acc : string)
| InLiteral (key acc : string)
| AfterValue
| Done.

Definition snoc (s : string) (a : ascii) : string := s ++ String a EmptyString.

(** The white space of JSON: space, tab, line feed, carriage return. *)
Definition is_blank (a : ascii) : bool :=
  let n := nat_of_ascii a in
  (Nat.eqb n 32 || Nat.eqb n 9 || Nat.eqb n 10 || Nat.eqb n 13)%bool.

Fixpoint parse (text : string) (st : jstate) (d : gmap string jatom)
    : option (gmap string jatom) :=
  match text with
  | EmptyString => match st with Done => Some d | _ => None end
  | String a rest =>
      let sp := is_blank a in
      let on c := Ascii.eqb a c in
      match st with
      | Start =>
          if sp then parse rest Start d
          else if on "{"%char then parse rest (ExpectKey true) d else None
      | ExpectKey first =>
          if sp then parse rest st d
          else if on PyStr.dquote then parse rest (InKey EmptyString) d
          else if (first && on "}"%char)%bool then parse rest Done d
          else None
      | InKey key =>
          if on PyStr.dquote then parse rest (AfterKey key) d
          else parse rest (InKey (snoc key a)) d
      | AfterKey key =>
          if sp then parse rest st d
          else if on ":"%char then parse rest (ExpectValue key) d else None
      | ExpectValue key =>
          if sp then parse rest st d
          else if on PyStr.dquote then parse rest (InString key EmptyString) d
          else if (on ","%char || on "}"%char || on "{"%char || on ":"%char)%bool
          then None
          else parse rest (InLiteral key (String a EmptyString)) d
      | InString key acc =>
          if on PyStr.dquote then parse rest AfterValue (<[key := JString acc]> d)
          else parse rest (InString key (snoc acc a)) d
      | InLiteral key acc =>
          if sp then parse rest AfterValue (<[key := JLiteral acc]> d)
          else if on ","%char then parse rest (ExpectKey false) (<[key := JLiteral acc]> d)
          else if on "}"%char then parse rest Done (<[key := JLiteral acc]> d)
          else parse rest (InLiteral key (snoc acc a)) d
      | AfterValue =>
          if sp then parse rest st d
          else if on ","%char then parse rest (ExpectKey false) d
          else if on "}"%char then parse rest Done d
          else None
      | Done => if sp then parse rest Done d else None
      end
  end.

Definition json_loads (text : string) : option (gmap string jatom) :=
  parse text Start ∅.

(** *** The cluster *)

Definition invalid (message : string) : exn := DriverError "InvalidRequest" message.

(** A qualified name "keyspace.name". *)
Definition split_qualified (cf_name : string) : option (string * string) :=
  match PyStr.split "." cf_name with
  | [ks; raw] => Some (ks, raw)
  | _ => None
  end.

Definition render_atom (v : jatom) : string :=
  match v with
  | JString s => "'" ++ s ++ "'"
  | JLiteral token => token
  end.

Definition render_value (v : @optval jatom) : string :=
  match v with
  | OptStr s => s
  | OptDict d =>
      "{" ++ String.concat ", "
               ((fun kv => "'" ++ fst kv ++ "': " ++ render_atom (snd kv))
                  <$> map_to_list d) ++ "}"
  end.

(** The option strings of a dictionary of options. *)
Definition render_options (o : gmap string (@optval jatom)) : list string :=
  (fun nv => fst nv ++ " = " ++ render_value (snd nv)) <$> map_to_list o.

(** The options of a table created without any. *)
Definition default_option_strings : list string :=
  [ "comment = ";
    "gc_grace_seconds = 864000";
    "compaction = {'class': 'SizeTieredCompactionStrategy'}" ].

Definition with_keyspace (ks : string) (c : Cluster)
    (f : KeyspaceMetadata -> exn + KeyspaceMetadata) : Cluster * option exn :=
  match c !! ks with
  | None => (c, Some (invalid "keyspace does not exist"))
  | Some km =>
      match f km with
      | inl ex => (c, Some ex)
      | inr km' => (<[ks := km']> c, None)
      end
  end.

Definition with_table (cf_name : string) (c : Cluster)
    (f : TableMetadata -> exn + TableMetadata) : Cluster * option exn :=
  match split_qualified cf_name with
  | None => (c, Some (invalid "no keyspace has been specified"))
  | Some (ks, raw) =>
      with_keyspace ks c (fun km =>
        match tables km !! raw with
        | None => inl (invalid "unconfigured table")
        | Some tm =>
            match f tm with
            | inl ex => inl ex
            | inr tm' =>
                inr (mkKeyspaceMetadata (<[raw := tm']> (tables km)) (user_types km))
            end
        end)
  end.

Definition new_table (m : Model) (option_strings : list string) : TableMetadata :=
  let cols := snd <$> _columns m in
  {| tm_columns := db_field_name <$> cols;
     tm_primary_key := db_field_name <$> filter (fun col => primary_key col = true) cols;
     tm_option_strings := option_strings;
     tm_indexes := ∅ |}.

(** The option strings of a table: one for each of the [options], when
    they are read back as they are. *)
Definition store_options (options : gmap string (@optval jatom)) : exn + list string :=
  let strings := render_options options in
  if bool_decide (_options_map_from_strings json_loads strings = inr options)
  then inr strings
  else inl (invalid "unsupported option value").

(** The option strings of a new table: the given ones over the
    defaults. *)
Definition new_options (option_strings : list string) : exn + list string :=
  match _options_map_from_strings json_loads default_option_strings,
        _options_map_from_strings json_loads option_strings with
  | inr defaults, inr given => store_options (given ∪ defaults)
  | _, _ => inl (invalid "unreadable options")
  end.

(** The executor: a statement that cannot be applied fails and leaves
    the schema as it is. *)
Definition exec (s : @stmt jatom) (c : Cluster) : Cluster * option exn :=
  match s with
  | CreateKeyspace name _ _ _ =>
      if bool_decide (name ∈ dom c)
      then (c, Some (DriverError "AlreadyExists" "keyspace already exists"))
      else (<[name := mkKeyspaceMetadata ∅ ∅]> c, None)
  | DropKeyspace name =>
      if bool_decide (name ∈ dom c) then (delete name c, None)
      else (c, Some (invalid "cannot drop non existing keyspace"))
  | CreateType ks t =>
      with_keyspace ks c (fun km =>
        match user_types km !! type_name t with
        | Some _ => inl (invalid "a user type of that name already exists")
        | None =>
            inr (mkKeyspaceMetadata (tables km)
                   (<[type_name t := db_field_name <$> _fields t]> (user_types km)))
        end)
  | AlterTypeAdd ks tn f =>
      with_keyspace ks c (fun km =>
        match user_types km !! tn with
        | None => inl (invalid "no user type of that name exists")
        | Some fns =>
            if bool_decide (db_field_name f ∈ fns)
            then inl (invalid "the type already has a field of that name")
            else inr (mkKeyspaceMetadata (tables km)
                        (<[tn := (fns ++ [db_field_name f])%list]> (user_types km)))
        end)
  | CreateTable m =>
      match split_qualified (column_family_name m) with
      | None => (c, Some (invalid "no keyspace has been specified"))
      | Some (ks, raw) =>
          with_keyspace ks c (fun km =>
            match tables km !! raw with
            | Some _ => inl (DriverError "AlreadyExists" "table already exists")
            | None =>
                match new_options (model_option_strings m) with
                | inl ex => inl ex
                | inr strings =>
                    if bool_decide (NoDup (tm_columns (new_table m strings)))
                    then inr (mkKeyspaceMetadata
                                (<[raw := new_table m strings]> (tables km))
                                (user_types km))
                    else inl (invalid "multiple definition of identifier")
                end
            end)
      end
  | AlterTableAdd cf col =>
      with_table cf c (fun tm =>
        if bool_decide (db_field_name col ∈ tm_columns tm ∨
                        db_field_name col ∈ tm_primary_key tm)
        then inl (invalid "conflicts with an existing column")
        else inr {| tm_columns := (tm_columns tm ++ [db_field_name col])%list;
                    tm_primary_key := tm_primary_key tm;
                    tm_option_strings := tm_option_strings tm;
                    tm_indexes := tm_indexes tm |})
  | AlterTableWith cf update_options =>
      with_table cf c (fun tm =>
        match _options_map_from_strings json_loads (tm_option_strings tm) with
        | inl _ => inl (invalid "unreadable options")
        | inr existing =>
            match store_options (update_options ∪ existing) with
            | inl ex => inl ex
            | inr strings =>
                inr {| tm_columns := tm_columns tm;
                       tm_primary_key := tm_primary_key tm;
                       tm_option_strings := strings;
                       tm_indexes := tm_indexes tm |}
            end
        end)
  | CreateIndex index_name cf field_name =>
      with_table cf c (fun tm =>
        if bool_decide (index_name ∈ tm_indexes tm)
        then inl (invalid "index already exists")
        else inr {| tm_columns := tm_columns tm;
                    tm_primary_key := tm_primary_key tm;
                    tm_option_strings := tm_option_strings tm;
                    tm_indexes := {[index_name]} ∪ tm_indexes tm |})
  | DropTable cf =>
      match split_qualified cf with
      | None => (c, Some (invalid "no keyspace has been specified"))
      | Some (ks, raw) =>
          with_keyspace ks c (fun km =>
            inr (mkKeyspaceMetadata (delete raw (tables km)) (user_types km)))
      end
  end.

(** The metadata is current: a refresh changes nothing. *)
Definition refresh_user_type_metadata (ks_name type_name : string) (c : Cluster)
    : Cluster := c.

(** The environment variable is set. *)
Definition os_getenv (name : string) : option string := Some "1".

(** A dictionary that is iterated in the order of insertion. *)
Definition dict_order (keys : list string) : {order : list string | order ≡ₚ keys} :=
  exist (fun order => order ≡ₚ keys) keys (Permutation_refl keys).

(** *** Example schema *)

Definition address : UserType :=
  mkUserType 1 "address"
    [ mkColumn "street" false false false "street text" None [];
      mkColumn "zip" false false false "zip int" None [] ].

Definition person : UserType :=
  mkUserType 2 "person"
    [ mkColumn "name" false false false "name text" None [];
      mkColumn "home" false false false "home frozen<address>" None [address] ].

(** A table with two columns of the same user type. *)
Definition users : Model :=
  {| is_model := true;
     __abstract__ := false;
     column_family_name := "ks.users";
     _raw_column_family_name := "users";
     _get_keyspace := "ks";
     _columns :=
       [ ("id", mkColumn "id" true true false "id uuid" None []);
         ("email", mkColumn "email" false false true "email text" None []);
         ("owner",
          mkColumn "owner" false false false "owner frozen<person>" None [person]);
         ("backup",
          mkColumn "backup" false false false "backup frozen<person>" None
            [person]) ];
     _clustering_keys := [];
     model_option_strings := [ "gc_grace_seconds = 3600" ] |}.

Definition empty_keyspace : Cluster :=
  {[ "ks" := mkKeyspaceMetadata ∅ ∅ ]}.

Definition sync_users : Cluster -> run unit :=
  sync_table json_loads exec refresh_user_type_metadata os_getenv Python3 dict_order users.

(** A keyspace in which the table is live with its key column only. *)
Definition old_users : Cluster :=
  {[ "ks" := mkKeyspaceMetadata
       {[ "users" := mkTableMetadata ["id"] ["id"] default_option_strings ∅ ]} ∅ ]}.

Definition no_types : KeyspaceMetadata := mkKeyspaceMetadata ∅ ∅.

(** An executor for the race on table creation: CREATE TABLE fails with
    the given exception because another client has just created the
    table, which the metadata then shows. *)
Definition racing_exec (ex : exn) (s : @stmt jatom) (c : Cluster)
    : Cluster * option exn :=
  match s with
  | CreateTable m => ((exec (CreateTable m) c).1, Some ex)
  | _ => exec s c
  end.

Definition already_exists : string :=
  "Cannot add already existing column family users to keyspace ks".

(** A live type with one field, and a declared type of the same name
    with one other field. *)
Definition point : UserType :=
  mkUserType 3 "point" [ mkColumn "y" false false false "y int" None [] ].

(** The declared type with the live field and one more. *)
Definition point_xy : UserType :=
  mkUserType 4 "point"
    [ mkColumn "x" false false false "x int" None [];
      mkColumn "y" false false false "y int" None [] ].

Definition old_point : Cluster :=
  {[ "ks" := mkKeyspaceMetadata ∅ {[ "point" := ["x"] ]} ]}.

(** The table model with other options. *)
Definition users_with (option_strings : list string) : Model :=
  {| is_model := true;
     __abstract__ := false;
     column_family_name := "ks.users";
     _raw_column_family_name := "users";
     _get_keyspace := "ks";
     _columns := _columns users;
     _clustering_keys := [];
     model_option_strings := option_strings |}.

(** A keyspace in which the table is live without its key column. *)
Definition keyless_users : Cluster :=
  {[ "ks" := mkKeyspaceMetadata
       {[ "users" := mkTableMetadata ["email"] [] default_option_strings ∅ ]} ∅ ]}.

Definition id_column : Column := mkColumn "id" true true false "id uuid" None [].


Definition live_options : gmap string (@optval jatom) :=
  {[ "comment" := OptStr "";
     "gc_grace_seconds" := OptStr "864000";
     "compaction" := OptDict {[ "class" := JString "LeveledCompactionStrategy";
                                "sstable_size_in_mb" := JLiteral "160" ]} ]}.

Definition changed_options : gmap string (@optval jatom) :=
  {[ "gc_grace_seconds" := OptStr "3600" ]}.

(** The options of [default_option_strings], normalised. *)
Definition default_options : gmap string (@optval jatom) :=
  {[ "comment" := OptStr "";
     "gc_grace_seconds" := OptStr "864000";
     "compaction" := OptDict {[ "class" := JString "SizeTieredCompactionStrategy" ]} ]}.

Definition old_users_table : TableMetadata :=
  mkTableMetadata ["id"] ["id"] default_option_strings ∅.

(** An executor for the race on table creation with a client that knows
    an older declaration: CREATE TABLE fails with the given exception
    because that client has just created the table, with its key column
    and the default options. *)
Definition late_exec (ex : exn) (s : @stmt jatom) (c : Cluster)
    : Cluster * option exn :=
  match s with
  | CreateTable m =>
      (alter (fun km =>
                mkKeyspaceMetadata
                  (<[_raw_column_family_name m := old_users_table]> (tables km))
                  (user_types km))
         (_get_keyspace m) c,
       Some ex)
  | _ => exec s c
  end.

(** The table model, declared abstract and without options. *)
Definition abstract_users : Model :=
  {| is_model := true;
     __abstract__ := true;
     column_family_name := "ks.users";
     _raw_column_family_name := "users";
     _get_keyspace := "ks";
     _columns := _columns users;
     _clustering_keys := [];
     model_option_strings := [] |}.

(** An executor that accepts every statement and whose metadata are
    never refreshed. *)
Definition forgetful_exec (s : @stmt jatom) (c : Cluster) : Cluster * option exn :=
  (c, None).

(** An executor on which CREATE TABLE fails with the given exception,
    the metadata listing no such table. *)
Definition unlisted_exec (ex : exn) (s : @stmt jatom) (c : Cluster)
    : Cluster * option exn :=
  match s with
  | CreateTable _ => (c, Some ex)
  | _ => exec s c
  end.

(** A keyspace in which the two user types are live with their fields. *)
Definition typed_keyspace : Cluster :=
  {[ "ks" := mkKeyspaceMetadata ∅
       {[ "address" := ["street"; "zip"]; "person" := ["name"; "home"] ]} ]}.

(** The live table with a comment that holds an equals sign. *)
Definition commented_table : TableMetadata :=
  mkTableMetadata ["id"] ["id"] ["comment = 'a=b'"] ∅.

Definition commented_users : Cluster :=
  {[ "ks" := mkKeyspaceMetadata {[ "users" := commented_table ]} ∅ ]}.

(** The live table with the indexed column and its index. *)
Definition indexed_table : TableMetadata :=
  mkTableMetadata ["id"; "email"] ["id"] default_option_strings {[ "index_users_email" ]}.

Definition indexed_users : Cluster :=
  {[ "ks" := mkKeyspaceMetadata {[ "users" := indexed_table ]} ∅ ]}.

Definition email_column : Column :=
  mkColumn "email" false false true "email text" None [].

Definition home_column : Column :=
  mkColumn "home" false false false "home frozen<address>" None [address].

End Reference.

(** ** Specification vocabulary *)

Section Specification.

Context {V : Type} `{EqDecision V}.

(** [safe Ps R m]: whatever the state, every statement that [m] executes
    satisfies [Ps], and the state after [m] is related by [R] to the
    state before. *)
Definition safe {A} (Ps : @stmt V -> Prop) (R : relation Cluster) (m : @M V A) : Prop :=
  forall c, Forall Ps (executed (emitted (m c))) /\ R c (cluster_after (m c)).

Inductive statement_kind : Type := Create | AlterAdd | AlterWith | Drop.

Definition kind_of (s : @stmt V) : statement_kind :=
  match s with
  | CreateKeyspace _ _ _ _ | CreateType _ _ | CreateTable _ | CreateIndex _ _ _ => Create
  | AlterTypeAdd _ _ _ | AlterTableAdd _ _ => AlterAdd
  | AlterTableWith _ _ => AlterWith
  | DropKeyspace _ | DropTable _ => Drop
  end.

(** The classes registered among the events, in order: one entry for
    every time a user type was synchronised. *)
Fixpoint registered (es : list (@event V)) : list nat :=
  match es with
  | [] => []
  | Registered _ class :: es' => class :: registered es'
  | _ :: es' => registered es'
  end.

(** The statements that synchronising the table model [m] may execute. *)
Definition sync_statement (m : Model) (s : @stmt V) : Prop :=
  match s with
  | CreateType ks _ => ks = _get_keyspace m
  | AlterTypeAdd ks _ _ => ks = _get_keyspace m
  | CreateTable m' => m' = m
  | AlterTableAdd cf col =>
      cf = column_family_name m /\
      (exists name, (name, col) ∈ _columns m) /\
      primary_key col = false /\ partition_key col = false
  | AlterTableWith cf _ => cf = column_family_name m
  | CreateIndex index_name cf field_name =>
      cf = column_family_name m /\
      exists name col, (name, col) ∈ _columns m /\ index col = true /\
        index_name = index_name_of (_raw_column_family_name m) col /\
        field_name = db_field_name col
  | _ => False
  end.

(** The statements about user types. *)
Definition type_statement (s : @stmt V) : Prop :=
  match s with
  | CreateType _ _ | AlterTypeAdd _ _ _ => True
  | _ => False
  end.

(** *** Growth of the live schema *)

Definition table_le (tm tm' : TableMetadata) : Prop :=
  tm_columns tm ⊆ tm_columns tm' /\
  _get_non_pk_field_names tm ⊆ _get_non_pk_field_names tm' /\
  tm_indexes tm ⊆ tm_indexes tm'.

Definition keyspace_le (km km' : KeyspaceMetadata) : Prop :=
  (forall t fns, user_types km !! t = Some fns ->
     exists fns', user_types km' !! t = Some fns' /\ fns ⊆ fns') /\
  (forall n tm, tables km !! n = Some tm ->
     exists tm', tables km' !! n = Some tm' /\ table_le tm tm').

(** Nothing that is live in [c] is missing in [c']: keyspaces, types and
    their fields, tables and their columns and indexes. *)
Definition cluster_le (c c' : Cluster) : Prop :=
  forall ks km, c !! ks = Some km ->
    exists km', c' !! ks = Some km' /\ keyspace_le km km'.

(** The live table of a model. *)
Definition live_table (c : Cluster) (m : Model) : option TableMetadata :=
  c !! _get_keyspace m ≫= fun km => tables km !! _raw_column_family_name m.

(** The type [type_name] of keyspace [ks] has the field. *)
Definition has_field (c : Cluster) (ks type_name field_name : string) : Prop :=
  exists km fns, c !! ks = Some km /\ user_types km !! type_name = Some fns /\
    field_name ∈ fns.

(** The user type is live in keyspace [ks] with all its declared fields. *)
Definition type_defined (c : Cluster) (ks : string) (t : UserType) : Prop :=
  exists km fns, c !! ks = Some km /\ user_types km !! type_name t = Some fns /\
    forall f, f ∈ _fields t -> db_field_name f ∈ fns.

(** The tables of every keyspace are the same in [c] and [c']. *)
Definition same_tables (c c' : Cluster) : Prop :=
  forall ks, tables <$> (c' !! ks) = tables <$> (c !! ks).

(** [m], run from [c], executes nothing and leaves the metadata as they
    are, whether it returns or raises. *)
Definition still {A} (m : @M V A) (c : Cluster) : Prop :=
  executed (emitted (m c)) = [] /\ cluster_after (m c) = c.

(** [m], run from [c], executes nothing, leaves the metadata as they
    are and returns [a]. *)
Definition quiet {A} (m : @M V A) (c : Cluster) (a : A) : Prop :=
  executed (emitted (m c)) = [] /\ cluster_after (m c) = c /\ result (m c) = inr a.

(** [m] never loses anything live and, once it has returned, is quiet on
    every schema that has grown from the one it left. *)
Definition settles {A} (m : @M V A) : Prop :=
  (forall c, cluster_le c (cluster_after (m c))) /\
  forall c a, result (m c) = inr a ->
    forall c2, cluster_le (cluster_after (m c)) c2 -> quiet m c2 a.

(** The live value of an option leaves nothing to change for the
    desired one: the same string, or a dictionary that has every entry
    of the desired dictionary. *)
Definition option_met (existing value : @optval V) : Prop :=
  match existing, value with
  | OptDict e, OptDict d => d ⊆ e
  | _, _ => existing = value
  end.

Definition options_met (existing_options model_options : gmap string (@optval V)) : Prop :=
  forall name value, model_options !! name = Some value ->
    exists existing, existing_options !! name = Some existing /\ option_met existing value.

(** *** A cluster that does what it is told

    The contract of the executor for the statements of one table model:
    nothing live is ever lost; a statement that succeeds has its effect
    on the metadata; and the table that is live after a CREATE TABLE
    statement is the declared one, so that no other client creates
    another one meanwhile. *)
Record faithful
    (json_loads : string -> option (gmap string V))
    (exec : @stmt V -> Cluster -> Cluster * option exn)
    (refresh : string -> string -> Cluster -> Cluster)
    (m : Model) : Prop :=
  mkFaithful {
    f_monotone : forall s c, sync_statement m s -> cluster_le c (exec s c).1;
    f_refresh : forall ks t c, cluster_le c (refresh ks t c);
    f_type_tables : forall s c, type_statement s -> same_tables c (exec s c).1;
    f_refresh_tables : forall k t c, same_tables c (refresh k t c);
    f_create_type : forall t c c',
      exec (CreateType (_get_keyspace m) t) c = (c', None) ->
      type_defined c' (_get_keyspace m) t;
    f_alter_type : forall tn f c c',
      exec (AlterTypeAdd (_get_keyspace m) tn f) c = (c', None) ->
      has_field c' (_get_keyspace m) tn (db_field_name f);
    f_create_table : forall c c' outcome tm,
      exec (CreateTable m) c = (c', outcome) ->
      live_table c m = None -> live_table c' m = Some tm ->
      (forall name col, (name, col) ∈ _columns m ->
         (primary_key col || partition_key col)%bool = false ->
         db_field_name col ∈ _get_non_pk_field_names tm) /\
      (forall mo eo,
         _options_map_from_strings json_loads (model_option_strings m) = inr mo ->
         _options_map_from_strings json_loads (tm_option_strings tm) = inr eo ->
         options_met eo mo);
    f_alter_add : forall col c c',
      exec (AlterTableAdd (column_family_name m) col) c = (c', None) ->
      exists tm, live_table c' m = Some tm /\
        db_field_name col ∈ _get_non_pk_field_names tm;
    f_alter_with : forall update_options c c' tm tm' eo eo',
      exec (AlterTableWith (column_family_name m) update_options) c = (c', None) ->
      live_table c m = Some tm ->
      _options_map_from_strings json_loads (tm_option_strings tm) = inr eo ->
      live_table c' m = Some tm' ->
      _options_map_from_strings json_loads (tm_option_strings tm') = inr eo' ->
      options_met eo' update_options /\
      (forall name, update_options !! name = None -> eo' !! name = eo !! name);
    f_create_index : forall index_name field_name c c',
      exec (CreateIndex index_name (column_family_name m) field_name) c = (c', None) ->
      exists tm', live_table c' m = Some tm' /\ index_name ∈ tm_indexes tm' /\
        forall tm, live_table c m = Some tm ->
          tm_option_strings tm' = tm_option_strings tm }.

(** *** Vocabulary for the other operations *)

(** Two runs execute the same statements, leave the same metadata and
    end the same way; they may differ in what they log. *)
Definition same_outcome {A} (r r' : @run V A) : Prop :=
  executed (emitted r) = executed (emitted r') /\
  cluster_after r = cluster_after r' /\
  result r = result r'.

(** The statements that create a table and those that alter one. *)
Definition creates_table (s : @stmt V) : Prop :=
  match s with CreateTable _ => True | _ => False end.

Definition alters_table (s : @stmt V) : Prop :=
  match s with AlterTableAdd _ _ | AlterTableWith _ _ => True | _ => False end.

Definition creates_index (s : @stmt V) : Prop :=
  match s with CreateIndex _ _ _ => True | _ => False end.

(** [reachable t v]: [v] is [t], or a user type of a field of [t], or of
    a field of such a type, and so on. *)
Inductive reachable : UserType -> UserType -> Prop :=
| reachable_self t : reachable t t
| reachable_nested t f u v :
    f ∈ _fields t -> u ∈ udts f -> reachable u v -> reachable t v.

(** Every user type reachable from [t] is live in keyspace [ks] with all
    its declared fields. *)
Definition all_defined (c : Cluster) (ks : string) (t : UserType) : Prop :=
  forall v, reachable t v -> type_defined c ks v.

(** [v] is a user type of a column of the model, or reachable from one. *)
Definition model_type (m : Model) (v : UserType) : Prop :=
  exists name col t, (name, col) ∈ _columns m /\ t ∈ udts col /\ reachable t v.

(** Among the events, every user type reachable from [t] is registered
    for the keyspace. *)
Definition covered (ks : string) (es : list (@event V)) (t : UserType) : Prop :=
  forall v, reachable t v -> Registered ks (class_id v) ∈ es.

(** Every class of [known] in the set is registered among the events
    together with all that is reachable from it. *)
Definition done_with (ks : string) (known : UserType -> Prop) (s : gset nat)
    (es : list (@event V)) : Prop :=
  forall u, known u -> class_id u ∈ s -> covered ks es u.

(** Among the events [es], which come after the events [before], every
    registration of a class of [known] comes after the registration of
    all that is reachable from the user types of its fields. *)
Definition nested_first (ks : string) (known : UserType -> Prop)
    (before es : list (@event V)) : Prop :=
  forall es1 a es2, es = (es1 ++ Registered ks a :: es2)%list ->
    forall v f u, known v -> class_id v = a -> f ∈ _fields v -> u ∈ udts f ->
      covered ks (before ++ es1) u.

(** Whatever the state, [m] registers no user type. *)
Definition registers_nothing {A} (m : @M V A) : Prop :=
  forall c k a, Registered k a ∉ emitted (m c).

(** The number of occurrences of a character in a string. *)
Fixpoint occurrences (c : ascii) (s : string) : nat :=
  match s with
  | EmptyString => 0
  | String a s' => (if Ascii.eqb a c then 1 else 0) + occurrences c s'
  end.

(** *** The decoding of one option, in the words of the specification

    "If the value looks like a nested map literal (detected by a leading
    brace), parse its interior as a key-value map (after converting
    single-quoted keys/values to a JSON-compatible form) into a nested
    mapping; otherwise treat the trimmed value as an opaque scalar
    string."  The brace is looked for at the head of the trimmed value. *)
(** The desired value of the option is a string and its live value a
    dictionary. *)
Definition string_faces_dictionary (model_options existing_options : gmap string (@optval V))
    (name : string) : Prop :=
  exists s e,
    model_options !! name = Some (OptStr s) /\
    existing_options !! name = Some (OptDict e).

Definition decode_option_by_leading_brace
    (json_loads : string -> option (gmap string V)) (option : string)
    : exn + (string * @optval V) :=
  match PyStr.split "=" option with
  | [name; value] =>
      let value := PyStr.strip value in
      if String.prefix "{" value then
        let text := PyStr.replace PyStr.squote PyStr.dquote value in
        match json_loads text with
        | Some d => inr (PyStr.strip name, OptDict d)
        | None => inl (JSONDecodeError text)
        end
      else inr (PyStr.strip name, OptStr value)
  | pieces => inl (UnpackError (length pieces))
  end.

End Specification.

(** * Properties *)

(** Induction on a user type, with the property available for the user
    types of all its fields. *)
Fixpoint UserType_nested_ind (Q : UserType -> Prop)
    (step : forall t, Forall (fun f => Forall Q (udts f)) (_fields t) -> Q t)
    (t : UserType) {struct t} : Q t :=
  step t
    ((fix fields_ok (fs : list Column) : Forall (fun f => Forall Q (udts f)) fs :=
        match fs with
        | [] => List.Forall_nil _
        | f :: fs' =>
            List.Forall_cons _ f fs'
              ((fix udts_ok (us : list UserType) : Forall Q us :=
                  match us with
                  | [] => List.Forall_nil _
                  | u :: us' =>
                      List.Forall_cons _ u us' (UserType_nested_ind Q step u) (udts_ok us')
                  end) (udts f))
              (fields_ok fs')
        end) (_fields t)).

(** ** Python strings *)

Section Strings.

Implicit Types (c a : ascii) (s pre post : string).

Abbreviation one c := (String c EmptyString).

Lemma append_cons a s s' : String a s ++ s' = String a (s ++ s').
Proof. reflexivity. Qed.

Lemma contains_one_cons c a s :
  PyStr.contains (one c) (String a s) = (Ascii.eqb a c || PyStr.contains (one c) s)%bool.
Proof.
  simpl. destruct (ascii_dec c a) as [->|Hne].
  - rewrite Ascii.eqb_refl. by destruct s.
  - destruct (Ascii.eqb_spec a c) as [->|_]; [done|]. by destruct s.
Qed.

Lemma contains_one_nil c : PyStr.contains (one c) EmptyString = false.
Proof. done. Qed.

Lemma contains_one_app c s s' :
  PyStr.contains (one c) (s ++ s') =
  (PyStr.contains (one c) s || PyStr.contains (one c) s')%bool.
Proof.
  induction s as [|a s IH]; [done|].
  change (String a s ++ s') with (String a (s ++ s')).
  rewrite !contains_one_cons, IH. by destruct (Ascii.eqb a c).
Qed.

Lemma find_from_absent c s i :
  PyStr.contains (one c) s = false -> PyStr.find_from c s i = -1.
Proof.
  revert i. induction s as [|a s IH]; intros i; [done|].
  rewrite contains_one_cons. intros [Ha Hs]%orb_false_elim.
  simpl. rewrite Ha. by apply IH.
Qed.

Lemma find_from_first c pre s i :
  PyStr.contains (one c) pre = false ->
  PyStr.find_from c (pre ++ String c s) i = i + Z.of_nat (String.length pre).
Proof.
  revert i. induction pre as [|a pre IH]; intros i.
  - intros _. simpl. rewrite Ascii.eqb_refl. lia.
  - rewrite contains_one_cons. intros [Ha Hs]%orb_false_elim.
    simpl. rewrite Ha, IH by done. lia.
Qed.

Lemma rfind_from_absent c s i last :
  PyStr.contains (one c) s = false -> PyStr.rfind_from c s i last = last.
Proof.
  revert i. induction s as [|a s IH]; intros i; [done|].
  rewrite contains_one_cons. intros [Ha Hs]%orb_false_elim.
  simpl. rewrite Ha. by apply IH.
Qed.

Lemma rfind_from_last c s post i last :
  PyStr.contains (one c) post = false ->
  PyStr.rfind_from c (s ++ String c post) i last = i + Z.of_nat (String.length s).
Proof.
  intros Hpost. revert i last. induction s as [|a s IH]; intros i last.
  - simpl. rewrite Ascii.eqb_refl, rfind_from_absent by done. lia.
  - simpl. rewrite IH. lia.
Qed.

Lemma rfind_from_bound c s i last :
  last < i -> PyStr.rfind_from c s i last < i + Z.of_nat (String.length s) \/
              (s = EmptyString /\ PyStr.rfind_from c s i last = last).
Proof.
  revert i last. induction s as [|a s IH]; intros i last Hlast; [by right|].
  left. simpl.
  destruct (IH (i + 1) (if Ascii.eqb a c then i else last)) as [?|[-> ->]];
    [destruct (Ascii.eqb a c); lia| lia |destruct (Ascii.eqb a c); lia].
Qed.

Lemma rfind_from_app_absent c s post i last :
  PyStr.contains (one c) post = false ->
  PyStr.rfind_from c (s ++ post) i last = PyStr.rfind_from c s i last.
Proof.
  intros Hpost. revert i last. induction s as [|a s IH]; intros i last.
  - simpl. by apply rfind_from_absent.
  - simpl. by rewrite IH.
Qed.

Lemma split_absent c s : PyStr.contains (one c) s = false -> PyStr.split c s = [s].
Proof.
  induction s as [|a s IH]; [done|].
  rewrite contains_one_cons. intros [Ha Hs]%orb_false_elim.
  simpl. rewrite Ha, IH by done. done.
Qed.

Lemma split_two c s s' :
  PyStr.contains (one c) s = false -> PyStr.contains (one c) s' = false ->
  PyStr.split c (s ++ String c s') = [s; s'].
Proof.
  intros Hs Hs'. induction s as [|a s IH].
  - simpl. rewrite Ascii.eqb_refl, split_absent by done. done.
  - rewrite contains_one_cons in Hs. apply orb_false_elim in Hs as [Ha Hs].
    simpl. rewrite Ha, IH by done. done.
Qed.

Lemma substring_zero n s : String.substring n 0 s = EmptyString.
Proof. revert n. induction s as [|a s IH]; intros [|n]; simpl; auto. Qed.

Lemma substring_head s s' :
  String.substring 0 (String.length s) (s ++ s') = s.
Proof. induction s as [|a s IH]; simpl; [by destruct s'|by rewrite IH]. Qed.

Lemma substring_skip pre s n :
  String.substring (String.length pre) n (pre ++ s) = String.substring 0 n s.
Proof. induction pre as [|a pre IH]; simpl; [done|]. apply IH. Qed.

Lemma string_length_app s s' :
  String.length (s ++ s') = (String.length s + String.length s')%nat.
Proof. induction s as [|a s IH]; [done|]. rewrite append_cons. simpl. by rewrite IH. Qed.

Lemma string_app_assoc s pre post : (s ++ pre) ++ post = s ++ (pre ++ post).
Proof. induction s as [|a s IH]; [done|]. rewrite !append_cons. by rewrite IH. Qed.

Lemma slice_between pre s post i j :
  i = Z.of_nat (String.length pre) ->
  j = Z.of_nat (String.length pre + String.length s) ->
  PyStr.slice (pre ++ s ++ post) i j = s.
Proof.
  intros -> ->. unfold PyStr.slice.
  replace (Z.to_nat (Z.of_nat (String.length pre))) with (String.length pre) by lia.
  replace (Z.to_nat _) with (String.length s) by lia.
  by rewrite substring_skip, substring_head.
Qed.

Lemma slice_empty s i j : j <= i -> PyStr.slice s i j = EmptyString.
Proof.
  intros Hij. unfold PyStr.slice.
  replace (Z.to_nat (j - i)) with 0%nat by lia. apply substring_zero.
Qed.

End Strings.

Lemma prefix_app_l p s s' :
  String.prefix p s = true -> String.prefix p (s ++ s') = true.
Proof.
  revert p. induction s as [|b s IH]; intros [|a p] Hp; try done.
  - by destruct s'.
  - rewrite append_cons. simpl in *. destruct (ascii_dec a b); [auto|done].
Qed.

Lemma prefix_concat_head p sep s (ss : list string) :
  String.prefix p s = true -> String.prefix p (String.concat sep (s :: ss)) = true.
Proof.
  intros Hp. destruct ss as [|s' ss]; [done|].
  change (String.concat sep (s :: s' :: ss))
    with (s ++ sep ++ String.concat sep (s' :: ss)).
  by apply prefix_app_l.
Qed.

(** ** The text of the statements *)

Section Text.

Context {V : Type} `{EqDecision V}.

(** The text that the module formats begins with the keyword of the
    statement's kind. *)
Lemma query_string_keyword (s : @stmt V) (q : string) :
  query_string s = Some q ->
  String.prefix
    (match kind_of s with
     | Create => "CREATE "
     | AlterAdd | AlterWith => "ALTER "
     | Drop => "DROP "
     end) q = true.
Proof.
  destruct s; intros [= <-]; simpl kind_of; cbv beta iota.
  - by apply prefix_app_l.
  - unfold _get_create_table.
    destruct (app _ (model_option_strings model));
      rewrite <- app_comm_cons; by apply prefix_concat_head, prefix_app_l.
  - by apply prefix_app_l.
  - by do 2 apply prefix_app_l.
  - by apply prefix_app_l.
Qed.

End Text.

Section Runs.

Context {V : Type} `{EqDecision V}.
Variable json_loads : string -> option (gmap string V).
Variable exec : @stmt V -> Cluster -> Cluster * option exn.
Variable refresh_user_type_metadata : string -> string -> Cluster -> Cluster.
Variable os_getenv : string -> option string.
Variable python : python_version.
Variable dict_order : forall keys : list string, {order : list string | order ≡ₚ keys}.

Abbreviation M := (@M V).
Abbreviation _sync_type' := (_sync_type exec refresh_user_type_metadata).
Abbreviation sync_one_type' := (sync_one_type exec refresh_user_type_metadata).
Abbreviation sync_table' :=
  (sync_table json_loads exec refresh_user_type_metadata os_getenv python dict_order).

Lemma sync_type_unfold ks_name type_model omit_subtypes :
  _sync_type' ks_name type_model omit_subtypes =
  bind (sync_subtypes (_sync_type' ks_name)
          (_fields type_model) (default ∅ omit_subtypes))
    (fun syncd_sub_types =>
       bind (sync_one_type' ks_name type_model)
         (fun _ => ret (if shared_with_caller omit_subtypes then syncd_sub_types
                        else default ∅ omit_subtypes))).
Proof. destruct type_model; reflexivity. Qed.

Lemma executed_app (es es' : list (@event V)) :
  executed (es ++ es') = (executed es ++ executed es')%list.
Proof.
  induction es as [|e es IH]; [done|].
  destruct e; simpl; rewrite ?IH; done.
Qed.

(** ** Invariants of a run *)

Section Safe.

Variable Ps : @stmt V -> Prop.
Variable R : relation Cluster.
Context `{!PreOrder R}.
Hypothesis exec_R : forall s c, Ps s -> R c (exec s c).1.
Hypothesis refresh_R : forall ks t c, R c (refresh_user_type_metadata ks t c).

Lemma safe_ret {A} (a : A) : safe Ps R (ret a).
Proof. intros c; split; [constructor | reflexivity]. Qed.

Lemma safe_raise {A} ex : safe Ps R (@raise V A ex).
Proof. intros c; split; [constructor | reflexivity]. Qed.

Lemma safe_bind {A B} (m : M A) (f : A -> M B) :
  safe Ps R m -> (forall a, safe Ps R (f a)) -> safe Ps R (bind m f).
Proof.
  intros Hm Hf c. unfold bind.
  destruct (Hm c) as [Hm1 Hm2].
  destruct (result (m c)) as [ex|a]; simpl; [done|].
  destruct (Hf a (cluster_after (m c))) as [Hf1 Hf2].
  split; [rewrite executed_app; by apply Forall_app | by etrans].
Qed.

Lemma safe_try_except {A} (m : M A) (handler : exn -> M A) :
  safe Ps R m -> (forall ex, safe Ps R (handler ex)) -> safe Ps R (try_except m handler).
Proof.
  intros Hm Hh c. unfold try_except.
  destruct (Hm c) as [Hm1 Hm2].
  destruct (result (m c)) as [ex|a]; simpl; [|done].
  destruct (Hh ex (cluster_after (m c))) as [Hh1 Hh2].
  split; [rewrite executed_app; by apply Forall_app | by etrans].
Qed.

Lemma safe_emit e : (forall s, e <> Executed s) -> safe Ps R (emit e).
Proof.
  intros He c; split; [|reflexivity].
  destruct e as [s| | | |]; simpl; [by destruct (He s)|constructor..].
Qed.

Lemma safe_log level format args : safe Ps R (log level format args).
Proof. by apply safe_emit. Qed.

Lemma safe_get_metadata : safe Ps R get_metadata.
Proof. intros c; split; [constructor | reflexivity]. Qed.

Lemma safe_lift {A} (r : exn + A) : safe Ps R (lift r).
Proof. destruct r; [apply safe_raise | apply safe_ret]. Qed.

Lemma safe_getitem {A} (d : gmap string A) key : safe Ps R (getitem d key).
Proof. unfold getitem. destruct (d !! key); [apply safe_ret | apply safe_raise]. Qed.

Lemma safe_execute s : Ps s -> safe Ps R (execute exec s).
Proof.
  intros Hs c. unfold execute.
  specialize (exec_R s c Hs). destruct (exec s c) as [c' r]; simpl in *.
  split; [by repeat constructor | done].
Qed.

Lemma safe_for_each {A} (xs : list A) (body : A -> M unit) :
  (forall x, x ∈ xs -> safe Ps R (body x)) -> safe Ps R (for_each xs body).
Proof.
  induction xs as [|x xs IH]; intros Hb; simpl; [apply safe_ret|].
  apply safe_bind; [apply Hb; by left|].
  intros _. apply IH. intros y Hy. apply Hb. by right.
Qed.

Lemma safe_fold_each {A S} (xs : list A) (s : S) (body : A -> S -> M S) :
  (forall x s, x ∈ xs -> safe Ps R (body x s)) -> safe Ps R (fold_each xs s body).
Proof.
  revert s. induction xs as [|x xs IH]; intros s Hb; simpl; [apply safe_ret|].
  apply safe_bind; [apply Hb; by left|].
  intros s'. apply IH. intros y s'' Hy. apply Hb. by right.
Qed.

Lemma safe_allow_schema_modification : safe Ps R (_allow_schema_modification os_getenv).
Proof.
  unfold _allow_schema_modification.
  apply safe_bind; [|intros; apply safe_ret].
  destruct (os_getenv _) as [[|]|];
    try apply safe_ret; (apply safe_bind; [by apply safe_emit|intros; apply safe_log]).
Qed.

Lemma safe_sync_one_type ks_name type_model :
  Ps (CreateType ks_name type_model) ->
  (forall f, f ∈ _fields type_model -> Ps (AlterTypeAdd ks_name (type_name type_model) f)) ->
  safe Ps R (sync_one_type' ks_name type_model).
Proof.
  intros Hc Ha. unfold sync_one_type.
  apply safe_bind; [apply safe_get_metadata|]. intros cluster.
  apply safe_bind; [apply safe_getitem|]. intros keyspace.
  destruct (user_types keyspace !! type_name type_model) as [defined_fields|].
  - apply safe_bind.
    { apply safe_fold_each. intros f s Hf. case_bool_decide.
      - apply safe_bind; [by apply safe_execute; apply Ha|intros; apply safe_ret].
      - apply safe_ret. }
    intros model_fields. apply safe_bind; [by apply safe_emit|]. intros _.
    repeat case_bool_decide; try apply safe_log; apply safe_ret.
  - apply safe_bind; [apply safe_log|]. intros _.
    apply safe_bind; [by apply safe_execute|]. intros _.
    apply safe_bind; [|intros; by apply safe_emit].
    intros c; split; [constructor | apply refresh_R].
Qed.

Lemma safe_sync_udts rec us :
  Forall (fun u => forall o, safe Ps R (rec u o)) us ->
  forall snapshot s, safe Ps R (sync_udts rec us snapshot s).
Proof.
  induction 1 as [|u us Hu _ IH]; intros snapshot s; simpl; [apply safe_ret|].
  case_bool_decide; [apply IH|].
  apply safe_bind; [apply Hu|]. intros s'. apply IH.
Qed.

Lemma safe_sync_subtypes rec fields :
  Forall (fun f => Forall (fun u => forall o, safe Ps R (rec u o)) (udts f)) fields ->
  forall s, safe Ps R (sync_subtypes rec fields s).
Proof.
  induction 1 as [|f fs Hf _ IH]; intros s; simpl; [apply safe_ret|].
  apply safe_bind; [by apply safe_sync_udts|]. intros s'. apply IH.
Qed.

Lemma safe_sync_type ks_name :
  (forall t, Ps (CreateType ks_name t)) ->
  (forall tn f, Ps (AlterTypeAdd ks_name tn f)) ->
  forall type_model omit_subtypes,
    safe Ps R (_sync_type' ks_name type_model omit_subtypes).
Proof.
  intros Hc Ha type_model.
  induction type_model as [t IH] using UserType_nested_ind. intros o.
  rewrite sync_type_unfold.
  apply safe_bind; [by apply safe_sync_subtypes|]. intros s.
  apply safe_bind; [by apply safe_sync_one_type|]. intros _. apply safe_ret.
Qed.

Section SafeTable.

Variable m : Model.
Hypothesis Ps_sync : forall s, sync_statement m s -> Ps s.

Lemma safe_sync_column_types :
  safe Ps R (sync_column_types exec refresh_user_type_metadata (_get_keyspace m) m).
Proof.
  unfold sync_column_types. apply safe_fold_each. intros col s _.
  apply safe_fold_each. intros udt s' _.
  apply safe_sync_type; intros; by apply Ps_sync.
Qed.

Lemma safe_get_table_metadata : safe Ps R (@_get_table_metadata V m).
Proof.
  unfold _get_table_metadata.
  apply safe_bind; [apply safe_get_metadata|]. intros cluster.
  apply safe_bind; [apply safe_getitem|]. intros keyspace. apply safe_getitem.
Qed.

Lemma safe_update_options : safe Ps R (_update_options json_loads exec dict_order m).
Proof.
  unfold _update_options.
  apply safe_bind; [apply safe_log|]. intros _.
  apply safe_bind; [apply safe_get_table_metadata|]. intros table_meta.
  apply safe_bind; [apply safe_lift|]. intros existing_options.
  apply safe_bind; [apply safe_lift|]. intros model_options.
  apply safe_bind; [apply safe_lift|]. intros update_options.
  case_bool_decide; [|apply safe_ret].
  apply safe_bind; [|intros; apply safe_ret].
  apply safe_execute, Ps_sync. done.
Qed.

Lemma safe_update_table table_meta :
  safe Ps R (update_table json_loads exec dict_order m table_meta).
Proof.
  unfold update_table.
  apply safe_bind; [apply safe_log|]. intros _.
  apply safe_bind.
  { apply safe_fold_each. intros [name col] s Hin.
    destruct (primary_key col || partition_key col)%bool eqn:Hpk; [apply safe_ret|].
    case_bool_decide; [apply safe_ret|].
    apply safe_bind; [|intros; apply safe_ret].
    apply safe_execute, Ps_sync. simpl.
    apply orb_false_elim in Hpk as [? ?]. eauto 10. }
  intros model_fields.
  apply safe_bind; [case_bool_decide; [apply safe_log|apply safe_ret]|]. intros _.
  apply safe_bind; [apply safe_update_options|]. intros; apply safe_ret.
Qed.

Lemma safe_create_table : safe Ps R (create_table exec python m).
Proof.
  unfold create_table.
  apply safe_bind; [apply safe_log|]. intros _.
  apply safe_try_except; [by apply safe_execute, Ps_sync|].
  intros ex. destruct ex; try apply safe_raise.
  apply safe_bind; [unfold unicode; destruct python; [apply safe_ret|apply safe_raise]|].
  intros text. destruct (negb _); [apply safe_raise|apply safe_ret].
Qed.

Lemma safe_sync_indexes : safe Ps R (sync_indexes exec m).
Proof.
  unfold sync_indexes.
  apply safe_bind; [apply safe_get_metadata|]. intros cluster.
  apply safe_bind; [apply safe_getitem|]. intros keyspace.
  apply safe_bind; [apply safe_getitem|]. intros table.
  apply safe_for_each. intros column Hin.
  case_bool_decide; [apply safe_ret|].
  apply safe_execute, Ps_sync. simpl. split; [done|].
  apply list_elem_of_fmap in Hin as [[name col] [-> Hin]].
  apply list_elem_of_filter in Hin as [Hidx Hin]. simpl in *. eauto 10.
Qed.

(** Every statement that [sync_table] executes is one of the statements
    of the model, and the state moves along [R]. *)
Lemma safe_sync_table : safe Ps R (sync_table' m).
Proof.
  unfold sync_table.
  apply safe_bind; [apply safe_allow_schema_modification|]. intros allowed.
  destruct (negb allowed); [apply safe_ret|].
  destruct (negb (is_model m)); [apply safe_raise|].
  destruct (__abstract__ m); [apply safe_raise|].
  apply safe_bind; [apply safe_get_metadata|]. intros cluster.
  apply safe_bind; [apply safe_getitem|]. intros keyspace.
  apply safe_bind; [apply safe_sync_column_types|]. intros _.
  apply safe_bind; [|intros; apply safe_sync_indexes].
  destruct (tables keyspace !! _); [apply safe_update_table|apply safe_create_table].
Qed.

End SafeTable.

End Safe.

(** ** Growth of the live schema *)

#[global] Instance table_le_preorder : PreOrder table_le.
Proof.
  split.
  - intros tm. by repeat split.
  - intros a b c (?&?&?) (?&?&?). repeat split; by etrans.
Qed.

#[global] Instance keyspace_le_preorder : PreOrder keyspace_le.
Proof.
  split.
  - intros km. split; intros ? x Hx; exists x; by split.
  - intros a b c [Hab1 Hab2] [Hbc1 Hbc2]. split.
    + intros t fns Ht. destruct (Hab1 _ _ Ht) as (fns'&Ht'&?).
      destruct (Hbc1 _ _ Ht') as (fns''&?&?). exists fns''. split; [done|by etrans].
    + intros n tm Hn. destruct (Hab2 _ _ Hn) as (tm'&Hn'&?).
      destruct (Hbc2 _ _ Hn') as (tm''&?&?). exists tm''. split; [done|by etrans].
Qed.

#[global] Instance cluster_le_preorder : PreOrder cluster_le.
Proof.
  split.
  - intros c ks km Hks. exists km. by split.
  - intros a b c Hab Hbc ks km Hks. destruct (Hab _ _ Hks) as (km'&Hks'&?).
    destruct (Hbc _ _ Hks') as (km''&?&?). exists km''. split; [done|by etrans].
Qed.

#[local] Instance anything_preorder : PreOrder (fun _ _ : Cluster => True).
Proof. by split. Qed.

Lemma cluster_le_live_table c c' m tm :
  cluster_le c c' -> live_table c m = Some tm ->
  exists tm', live_table c' m = Some tm' /\ table_le tm tm'.
Proof.
  unfold live_table. intros Hle Htm.
  destruct (c !! _get_keyspace m) as [km|] eqn:Hkm; [|done]. simpl in Htm.
  destruct (Hle _ _ Hkm) as (km'&->&_&Htables). simpl.
  by apply Htables.
Qed.

(** ** The statements of a synchronisation *)

(** C5: whatever the live schema, [sync_table] executes no ALTER TABLE
    ... ADD for a column of the model that is part of the primary key
    (partition key or clustering key), also when the live table lacks
    that column. *)
Theorem sync_table_never_adds_key_column (m : Model) (c : Cluster) col cf :
  (primary_key col || partition_key col)%bool = true ->
  AlterTableAdd cf col ∉ executed (emitted (sync_table' m c)).
Proof.
  intros Hpk Hin.
  destruct (safe_sync_table (sync_statement m) (fun _ _ => True)
              (fun _ _ _ => I) (fun _ _ _ => I) m (fun _ Hs => Hs) c) as [Hall _].
  rewrite Forall_forall in Hall. apply Hall in Hin as (_&_&Hp&Hk).
  rewrite Hp, Hk in Hpk. done.
Qed.

(** C3: every statement that [sync_table] executes is a CREATE, an ALTER
    ... ADD or an ALTER ... WITH (for [sync_type]: a CREATE or an ALTER
    ... ADD), never a DROP; and on a cluster where none of these
    statements (nor a metadata refresh) loses anything live, a table that
    is live before [sync_table] is live after it with all the columns and
    indexes it had. *)
Theorem sync_table_is_additive (m : Model) (c : Cluster) :
  (forall s c, sync_statement m s -> cluster_le c (exec s c).1) ->
  (forall ks t c, cluster_le c (refresh_user_type_metadata ks t c)) ->
  (forall s, s ∈ executed (emitted (sync_table' m c)) ->
     kind_of s ∈ [Create; AlterAdd; AlterWith] /\ sync_statement m s) /\
  (forall ks t s,
     s ∈ executed (emitted (sync_type exec refresh_user_type_metadata os_getenv ks t c)) ->
     kind_of s ∈ [Create; AlterAdd]) /\
  (forall tm, live_table c m = Some tm ->
     exists tm', live_table (cluster_after (sync_table' m c)) m = Some tm' /\
       tm_columns tm ⊆ tm_columns tm' /\ tm_indexes tm ⊆ tm_indexes tm').
Proof.
  intros Hexec Hrefresh.
  destruct (safe_sync_table (sync_statement m) cluster_le Hexec Hrefresh m
              (fun _ Hs => Hs) c) as [Hall Hle].
  split; [|split].
  - intros s Hs. rewrite Forall_forall in Hall. specialize (Hall _ Hs).
    split; [|done]. destruct s; try done; simpl; repeat constructor.
  - intros ks t s Hs.
    assert (safe type_statement (fun _ _ => True)
              (sync_type exec refresh_user_type_metadata os_getenv ks t)) as Hsafe.
    { unfold sync_type.
      apply safe_bind; [done|by apply safe_allow_schema_modification|].
      intros allowed. destruct (negb allowed); [by apply safe_ret|].
      apply safe_bind; [done| |intros; by apply safe_ret].
      by apply safe_sync_type. }
    destruct (Hsafe c) as [Hall' _]. rewrite Forall_forall in Hall'.
    specialize (Hall' _ Hs). destruct s; try done; simpl; repeat constructor.
  - intros tm Htm.
    destruct (cluster_le_live_table _ _ _ _ Hle Htm) as (tm'&?&?&?&?). eauto.
Qed.

(** ** Evaluating a run step by step *)

Lemma run_eta {A} (r : @run V A) :
  r = mkRun (emitted r) (cluster_after r) (result r).
Proof. by destruct r. Qed.

Lemma bind_inr {A B} (m : M A) (f : A -> M B) c a :
  result (m c) = inr a ->
  bind m f c =
  mkRun (emitted (m c) ++ emitted (f a (cluster_after (m c))))
    (cluster_after (f a (cluster_after (m c))))
    (result (f a (cluster_after (m c)))).
Proof. intros Hr. unfold bind. by rewrite Hr. Qed.

Lemma bind_inl {A B} (m : M A) (f : A -> M B) c ex :
  result (m c) = inl ex ->
  bind m f c = mkRun (emitted (m c)) (cluster_after (m c)) (inl ex).
Proof. intros Hr. unfold bind. by rewrite Hr. Qed.

Lemma allow_schema_modification_run c :
  let r := @_allow_schema_modification V os_getenv c in
  result r = inr true /\ cluster_after r = c /\ executed (emitted r) = [].
Proof. unfold _allow_schema_modification. by destruct (os_getenv _) as [[|]|]. Qed.

Lemma bind_get_metadata {B} (f : Cluster -> M B) c : bind get_metadata f c = f c c.
Proof. unfold bind; simpl. by destruct (f c c). Qed.

Lemma bind_ret {A B} (a : A) (f : A -> M B) c : bind (ret a) f c = f a c.
Proof. unfold bind; simpl. by destruct (f a c). Qed.

Lemma bind_getitem {A B} (d : gmap string A) key a (f : A -> M B) c :
  d !! key = Some a -> bind (getitem d key) f c = f a c.
Proof. intros Hd. unfold bind, getitem. rewrite Hd; simpl. by destruct (f a c). Qed.

Lemma bind_getitem_None {A B} (d : gmap string A) key (f : A -> M B) c :
  d !! key = None -> bind (getitem d key) f c = mkRun [] c (inl (KeyError key)).
Proof. intros Hd. unfold bind, getitem. by rewrite Hd. Qed.

Lemma bind_run {A B} (m : M A) (f : A -> M B) c es c1 a :
  m c = mkRun es c1 (inr a) ->
  bind m f c = mkRun (es ++ emitted (f a c1)) (cluster_after (f a c1)) (result (f a c1)).
Proof. intros Hm. unfold bind. by rewrite Hm. Qed.

Lemma bind_emit {B} e (f : unit -> M B) c :
  bind (emit e) f c =
  mkRun (e :: emitted (f tt c)) (cluster_after (f tt c)) (result (f tt c)).
Proof. done. Qed.

Lemma bind_lift_inr {A B} (a : A) (f : A -> M B) c : bind (lift (inr a)) f c = f a c.
Proof. apply bind_ret. Qed.

Lemma bind_lift_inl {A B} ex (f : A -> M B) c :
  bind (lift (inl ex)) f c = mkRun [] c (inl ex).
Proof. done. Qed.

(** ** Failure of CREATE TABLE *)

(** What the branch of an absent table leaves behind, for each outcome
    of the CREATE TABLE statement. *)
Lemma create_table_run (m : Model) (c c' : Cluster) (outcome : option exn) :
  exec (CreateTable m) c = (c', outcome) ->
  create_table exec python m c =
  mkRun [Logged Debug "sync_table creating new table %s" [column_family_name m];
         Executed (CreateTable m)] c'
    (match outcome with
     | None => inr tt
     | Some (CQLEngineException message) =>
         match python with
         | Python2 =>
             if negb (PyStr.contains already_exists_message message)
             then inl (CQLEngineException message) else inr tt
         | Python3 => inl (NameError "unicode")
         end
     | Some ex => inl ex
     end).
Proof.
  intros Hexec.
  unfold create_table, bind, try_except, execute, unicode; simpl. rewrite Hexec; simpl.
  destruct outcome as [[message| | | | | | |]|]; try done.
  destruct python; simpl; [|done]. by destruct (negb _).
Qed.

(** [sync_table] up to the end of the branch of an absent table. *)
Lemma sync_table_absent_run (m : Model) (c : Cluster) km syncd :
  let types := sync_column_types exec refresh_user_type_metadata (_get_keyspace m) m c in
  let create := create_table exec python m (cluster_after types) in
  let r := sync_table' m c in
  is_model m = true -> __abstract__ m = false ->
  c !! _get_keyspace m = Some km ->
  tables km !! _raw_column_family_name m = None ->
  result types = inr syncd ->
  match result create with
  | inl ex =>
      result r = inl ex /\ cluster_after r = cluster_after create /\
      executed (emitted r) = (executed (emitted types) ++ executed (emitted create))%list
  | inr _ =>
      let indexes := sync_indexes exec m (cluster_after create) in
      result r = result indexes /\ cluster_after r = cluster_after indexes /\
      executed (emitted r) =
        (executed (emitted types) ++ executed (emitted create) ++
         executed (emitted indexes))%list
  end.
Proof.
  intros types create r Hmodel Habstract Hkm Htable Htypes.
  destruct (allow_schema_modification_run c) as (Hallow&Hc&Hquiet).
  subst r create. unfold sync_table.
  generalize (sync_indexes exec m). intros indexes.
  generalize (create_table exec python m). intros create.
  revert Htypes. subst types.
  generalize (sync_column_types exec refresh_user_type_metadata (_get_keyspace m) m).
  intros types Htypes.
  rewrite (bind_inr _ _ _ _ Hallow), Hc. cbn [negb].
  rewrite Hmodel, Habstract. cbn [negb].
  rewrite bind_get_metadata, (bind_getitem _ _ _ _ _ Hkm), (bind_inr _ _ _ _ Htypes), Htable.
  unfold bind. destruct (result (create _)) as [ex|[]] eqn:Hcreate;
    cbn [result emitted cluster_after]; rewrite !executed_app, Hquiet; simpl; done.
Qed.

(** On Python 2, where [unicode] is a builtin: when the CREATE TABLE of
    an absent table fails, [sync_table] swallows the failure and goes on
    with the indexes if and only if it is a [CQLEngineException] whose
    message contains "Cannot add already existing column family"; any
    other failure, of whatever class and message, reaches the caller as
    it was raised. *)
Lemma sync_table_create_failure_python2 (m : Model) (c c' : Cluster) km syncd ex :
  let types := sync_column_types exec refresh_user_type_metadata (_get_keyspace m) m c in
  let r := sync_table' m c in
  python = Python2 ->
  is_model m = true -> __abstract__ m = false ->
  c !! _get_keyspace m = Some km ->
  tables km !! _raw_column_family_name m = None ->
  result types = inr syncd ->
  exec (CreateTable m) (cluster_after types) = (c', Some ex) ->
  ((exists message, ex = CQLEngineException message /\
      PyStr.contains already_exists_message message = true) ->
   result r = result (sync_indexes exec m c') /\
   cluster_after r = cluster_after (sync_indexes exec m c') /\
   executed (emitted r) =
     (executed (emitted types) ++ [CreateTable m] ++
      executed (emitted (sync_indexes exec m c')))%list) /\
  (~ (exists message, ex = CQLEngineException message /\
        PyStr.contains already_exists_message message = true) ->
   result r = inl ex /\ cluster_after r = c' /\
   executed (emitted r) = (executed (emitted types) ++ [CreateTable m])%list).
Proof.
  intros types r Hpython Hmodel Habstract Hkm Htable Htypes Hexec.
  pose proof (sync_table_absent_run m c km syncd Hmodel Habstract Hkm Htable Htypes) as Hrun.
  cbv zeta in Hrun. fold types in Hrun. fold r in Hrun.
  rewrite (create_table_run _ _ _ _ Hexec), Hpython in Hrun.
  cbn [result emitted cluster_after executed] in Hrun.
  split.
  - intros (message&->&Hmsg). rewrite Hmsg in Hrun. exact Hrun.
  - intros Hno. destruct ex as [message| | | | | | |]; try exact Hrun.
    destruct (PyStr.contains _ _) eqn:Hmsg; [|exact Hrun]. destruct Hno; eauto.
Qed.

(** C7: on Python 3, where the name [unicode] is bound neither in the
    module nor among the builtins, the handler of [sync_table] that is
    to examine the failure of the CREATE TABLE of an absent table fails
    itself: whatever the message of the [CQLEngineException], "Cannot
    add already existing column family" included, [sync_table] raises
    [NameError] for [unicode], right after the CREATE TABLE statement:
    the failure is neither swallowed nor passed on unchanged, and the
    indexes are not looked at.  A failure of another class reaches the
    caller as it was raised. *)
Theorem sync_table_create_failure (m : Model) (c c' : Cluster) km syncd ex :
  let types := sync_column_types exec refresh_user_type_metadata (_get_keyspace m) m c in
  let r := sync_table' m c in
  python = Python3 ->
  is_model m = true -> __abstract__ m = false ->
  c !! _get_keyspace m = Some km ->
  tables km !! _raw_column_family_name m = None ->
  result types = inr syncd ->
  exec (CreateTable m) (cluster_after types) = (c', Some ex) ->
  result r = inl (match ex with
                  | CQLEngineException _ => NameError "unicode"
                  | _ => ex
                  end) /\
  cluster_after r = c' /\
  executed (emitted r) = (executed (emitted types) ++ [CreateTable m])%list.
Proof.
  intros types r Hpython Hmodel Habstract Hkm Htable Htypes Hexec.
  pose proof (sync_table_absent_run m c km syncd Hmodel Habstract Hkm Htable Htypes) as Hrun.
  cbv zeta in Hrun. fold types in Hrun. fold r in Hrun.
  rewrite (create_table_run _ _ _ _ Hexec), Hpython in Hrun.
  cbn [result emitted cluster_after executed] in Hrun.
  by destruct ex.
Qed.

(** ** The option diff *)

Lemma compare_items_cases (items : list (string * V)) (e : gmap string V) :
  match compare_items items e with
  | inr true => exists k v x, (k, v) ∈ items /\ e !! k = Some x /\ x <> v
  | inr false => forall k v, (k, v) ∈ items -> e !! k = Some v
  | inl ex => exists k v, ex = KeyError k /\ (k, v) ∈ items /\ e !! k = None
  end.
Proof.
  induction items as [|[k v] items IH]; simpl.
  - intros k v Hin. inversion Hin.
  - destruct (e !! k) as [x|] eqn:Hk.
    + case_bool_decide as Hx.
      * exists k, v, x. split; [by left|done].
      * destruct (compare_items items e) as [ex|[|]].
        -- destruct IH as (k'&v'&?&?&?). exists k', v'. split; [done|]. split; [by right|done].
        -- destruct IH as (k'&v'&x'&?&?&?). exists k', v', x'. split; [by right|done].
        -- intros k' v' Hin. apply elem_of_cons in Hin as [[= -> ->]|Hin]; [|by apply IH].
           rewrite Hk. f_equal. by destruct (decide (x = v)).
    + exists k, v. split; [done|]. split; [by left|done].
Qed.

(** For two dictionaries, the option is taken iff some key of the
    desired one is missing from the live one or has another value there. *)
Lemma option_changed_dict (d e : gmap string V) :
  exists b, option_changed (OptDict d) (OptDict e) = inr b /\
    (b = true <-> exists k v, d !! k = Some v /\ e !! k <> Some v).
Proof.
  unfold option_changed.
  generalize (compare_items_cases (map_to_list d) e).
  destruct (compare_items (map_to_list d) e) as [ex|[|]].
  - intros (k&v&->&Hin&Hk). exists true. split; [done|]. split; [|done]. intros _.
    exists k, v. apply elem_of_map_to_list in Hin. split; [done|]. by rewrite Hk.
  - intros (k&v&x&Hin&Hk&Hx). exists true. split; [done|]. split; [|done]. intros _.
    exists k, v. apply elem_of_map_to_list in Hin. split; [done|]. rewrite Hk. congruence.
  - intros Hall. exists false. split; [done|]. split; [done|].
    intros (k&v&Hd&He). destruct He. apply Hall. by apply elem_of_map_to_list.
Qed.

Lemma option_changed_error (value existing : @optval V) ex :
  option_changed value existing = inl ex ->
  ex = AttributeError "items" /\
  exists s e, value = OptStr s /\ existing = OptDict e.
Proof.
  destruct existing as [s|e], value as [s'|d]; simpl; try done.
  - intros [= <-]. eauto.
  - destruct (option_changed_dict d e) as (b&Hb&_). unfold option_changed in Hb.
    by rewrite Hb.
Qed.

(** What the loop over the desired options leaves in [update_options]. *)
Lemma diff_loop_inr items known (eo upd d : gmap string (@optval V)) :
  NoDup items.*1 ->
  diff_loop items known eo upd = inr d ->
  (forall name, name ∉ items.*1 -> d !! name = upd !! name) /\
  (forall name value, (name, value) ∈ items ->
     exists existing b, eo !! name = Some existing /\
       option_changed value existing = inr b /\
       d !! name = if b then Some value else upd !! name).
Proof.
  revert upd. induction items as [|[n v] items IH]; intros upd Hnd; simpl.
  - intros [= <-]; split; [done|]. intros ?? Hin; inversion Hin.
  - apply NoDup_cons in Hnd as [Hn Hnd]. simpl in Hn.
    destruct (eo !! n) as [existing|] eqn:Hexisting; [|done].
    destruct (option_changed v existing) as [ex|b] eqn:Hchanged; [done|].
    intros Hd.
    assert (exists upd', diff_loop items known eo upd' = inr d /\
              upd' !! n = (if b then Some v else upd !! n) /\
              forall name, name <> n -> upd' !! name = upd !! name)
      as (upd'&Hd'&Hn'&Hother).
    { destruct b; eexists; (split; [exact Hd|]).
      - split; [by rewrite lookup_insert_eq|]. intros; by rewrite lookup_insert_ne.
      - done. }
    destruct (IH upd' Hnd Hd') as [IH1 IH2]. split.
    + intros name Hname. apply not_elem_of_cons in Hname as [? ?].
      rewrite IH1 by done. by apply Hother.
    + intros name value Hin. apply elem_of_cons in Hin as [[= -> ->]|Hin].
      * exists existing, b. repeat split; try done. by rewrite IH1.
      * destruct (IH2 _ _ Hin) as (existing'&b'&?&?&Hd'').
        exists existing', b'. repeat split; try done. rewrite Hd''.
        destruct b'; [done|]. apply Hother. intros ->.
        apply Hn. apply list_elem_of_fmap. by exists (n, value).
Qed.

(** The errors of the loop: the first desired option that the live
    options do not have, or whose live value is a dictionary while the
    desired one is a string. *)
Lemma diff_loop_inl items known (eo upd : gmap string (@optval V)) ex :
  diff_loop items known eo upd = inl ex ->
  (exists name value, (name, value) ∈ items /\ eo !! name = None /\
     ex = InvalidTableOption name known) \/
  (ex = AttributeError "items" /\
   exists name s e, (name, OptStr s) ∈ items /\ eo !! name = Some (OptDict e)).
Proof.
  revert upd. induction items as [|[n v] items IH]; intros upd; simpl; [done|].
  destruct (eo !! n) as [existing|] eqn:Hexisting.
  - destruct (option_changed v existing) as [ex'|b] eqn:Hchanged.
    + intros [= <-]. right.
      apply option_changed_error in Hchanged as (->&s&e&->&->).
      split; [done|]. exists n, s, e. split; [by left|done].
    + intros Hd. assert (exists upd', diff_loop items known eo upd' = inl ex) as [upd' Hd'].
      { destruct b; eauto. }
      destruct (IH _ Hd') as [(name&value&?&?&?)|(?&name&s&e&?&?)].
      * left. exists name, value. split; [by right|done].
      * right. split; [done|]. exists name, s, e. split; [by right|done].
  - intros [= <-]. left. exists n, v. split; [by left|done].
Qed.

Lemma diff_loop_total items known (eo upd : gmap string (@optval V)) :
  (forall name value, (name, value) ∈ items ->
     exists existing, eo !! name = Some existing /\
       forall s e, value = OptStr s -> existing <> OptDict e) ->
  exists d, diff_loop items known eo upd = inr d.
Proof.
  intros Hok. destruct (diff_loop items known eo upd) as [ex|d] eqn:Hd; [|eauto].
  apply diff_loop_inl in Hd as [(name&value&Hin&Hnone&_)|(_&name&s&e&Hin&He)].
  - destruct (Hok _ _ Hin) as (?&?&_). congruence.
  - destruct (Hok _ _ Hin) as (existing&Hex&Hshape). rewrite Hex in He.
    injection He as ->. by destruct (Hshape s e).
Qed.


(** C10: for an option whose normalised live value is a dictionary and
    whose normalised desired value is a string, the comparison raises
    [AttributeError] (a string has no [items]), which the handler for
    [KeyError] does not catch: the diff is not computed, and the error is
    this one whenever the live options know every desired name. *)
Theorem option_diff_shape_mismatch (model_options existing_options : gmap string (@optval V))
    name s live :
  model_options !! name = Some (OptStr s) ->
  existing_options !! name = Some (OptDict live) ->
  option_changed (OptStr s) (OptDict live) = inl (AttributeError "items") /\
  (exists ex, option_diff model_options existing_options = inl ex) /\
  ((forall n, is_Some (model_options !! n) -> is_Some (existing_options !! n)) ->
   option_diff model_options existing_options = inl (AttributeError "items")).
Proof.
  intros Hm He. split; [done|].
  assert (exists ex, option_diff model_options existing_options = inl ex) as [ex Hex].
  { destruct (option_diff model_options existing_options) as [ex|d] eqn:Hd; [eauto|].
    unfold option_diff in Hd.
    apply diff_loop_inr in Hd as [_ Hin]; [|apply NoDup_fst_map_to_list].
    apply elem_of_map_to_list in Hm.
    destruct (Hin _ _ Hm) as (existing&b&Hex&Hb&_).
    rewrite He in Hex. injection Hex as <-. done. }
  split; [eauto|]. intros Hknown. rewrite Hex. f_equal.
  unfold option_diff in Hex.
  apply diff_loop_inl in Hex as [(n&v&Hin&Hnone&_)|[-> _]]; [|done].
  apply elem_of_map_to_list in Hin.
  destruct (Hknown n) as [? Hsome]; [eauto|]. congruence.
Qed.

Lemma live_table_Some c m tm :
  live_table c m = Some tm ->
  exists km, c !! _get_keyspace m = Some km /\
    tables km !! _raw_column_family_name m = Some tm.
Proof.
  unfold live_table. destruct (c !! _get_keyspace m) as [km|]; [|done]. eauto.
Qed.

Lemma get_table_metadata_run c m tm :
  live_table c m = Some tm ->
  @_get_table_metadata V m c = mkRun [] c (inr tm).
Proof.
  intros (km&Hkm&Htm)%live_table_Some. unfold _get_table_metadata.
  rewrite bind_get_metadata, (bind_getitem _ _ _ _ _ Hkm).
  unfold getitem. by rewrite Htm.
Qed.

(** ** The order of the loop over the desired options *)

Lemma keys_loop_spec (option_strings : list string) (acc o : gmap string (@optval V))
    (keys : list string) :
  NoDup keys -> (forall k, k ∈ keys <-> is_Some (acc !! k)) ->
  options_loop json_loads option_strings acc = inr o ->
  NoDup (keys_loop json_loads option_strings keys) /\
  forall k, k ∈ keys_loop json_loads option_strings keys <-> is_Some (o !! k).
Proof.
  revert acc keys. induction option_strings as [|option rest IH]; intros acc keys Hnd Hkeys; simpl.
  - intros [= <-]. done.
  - destruct (decode_option json_loads option) as [ex|[name value]]; [done|].
    intros Ho. eapply IH; [| |exact Ho].
    + case_bool_decide as Hin; [done|].
      apply NoDup_app. split; [done|]. split; [|apply NoDup_singleton].
      intros k Hk ->%list_elem_of_singleton. done.
    + intros k. destruct (decide (k = name)) as [->|Hne].
      * rewrite lookup_insert_eq. split; [eauto|]. intros _.
        case_bool_decide; [done|]. apply elem_of_app. right. by left.
      * rewrite lookup_insert_ne by done. rewrite <- Hkeys.
        case_bool_decide; [done|]. rewrite elem_of_app, list_elem_of_singleton.
        split; [intros [?|?]; [done|by destruct Hne]|by left].
Qed.

(** [options.keys()] lists every key of the dictionary once. *)
Lemma options_keys_spec (option_strings : list string) (o : gmap string (@optval V)) :
  _options_map_from_strings json_loads option_strings = inr o ->
  NoDup (options_keys json_loads dict_order option_strings) /\
  forall k, k ∈ options_keys json_loads dict_order option_strings <-> is_Some (o !! k).
Proof.
  intros Ho. unfold options_keys, insertion_order.
  destruct (dict_order _) as [order Hperm]; simpl.
  destruct (keys_loop_spec option_strings ∅ o [] (NoDup_nil_2) ) as [Hnd Hkeys]; [|done|].
  { intros k. rewrite lookup_empty. split; [by intros ?%elem_of_nil|by intros [? ?]]. }
  split; [by rewrite Hperm|]. intros k. by rewrite Hperm.
Qed.

(** [options.items()] lists every entry of the dictionary once, in the
    order of the keys. *)
Lemma options_items_spec (option_strings : list string) (o : gmap string (@optval V)) :
  _options_map_from_strings json_loads option_strings = inr o ->
  (options_items json_loads dict_order option_strings o).*1 =
    options_keys json_loads dict_order option_strings /\
  NoDup (options_items json_loads dict_order option_strings o).*1 /\
  forall name value,
    (name, value) ∈ options_items json_loads dict_order option_strings o <->
    o !! name = Some value.
Proof.
  intros Ho. destruct (options_keys_spec _ _ Ho) as [Hnd Hkeys].
  unfold options_items.
  assert (forall keys : list string, (forall k, k ∈ keys -> is_Some (o !! k)) ->
            (omap (fun name => pair name <$> o !! name) keys).*1 = keys) as Hfst.
  { induction keys as [|k keys IH]; intros Hall; [done|]. simpl.
    destruct (Hall k) as [v Hv]; [by left|]. rewrite Hv. simpl. f_equal.
    apply IH. intros k' Hk'. apply Hall. by right. }
  rewrite Hfst by (intros k Hk; by apply Hkeys).
  split; [done|]. split; [done|].
  intros name value. rewrite list_elem_of_omap. split.
  - intros (k&_&Hk). destruct (o !! k) as [v|] eqn:Hv; [|done].
    simpl in Hk. by injection Hk as -> ->.
  - intros Hv. exists name. split; [apply Hkeys; eauto|]. by rewrite Hv.
Qed.

(** The error of the loop is that of the first item that has one: the
    items before it have a live value they can be compared with. *)
Lemma diff_loop_first_error items known (eo upd : gmap string (@optval V)) ex :
  diff_loop items known eo upd = inl ex ->
  exists before name value after,
    items = (before ++ (name, value) :: after)%list /\
    (forall n v, (n, v) ∈ before ->
       exists existing b, eo !! n = Some existing /\ option_changed v existing = inr b) /\
    ((eo !! name = None /\ ex = InvalidTableOption name known) \/
     (exists s e, value = OptStr s /\ eo !! name = Some (OptDict e) /\
        ex = AttributeError "items")).
Proof.
  revert upd. induction items as [|[n v] items IH]; intros upd; simpl; [done|].
  destruct (eo !! n) as [existing|] eqn:Hexisting.
  - destruct (option_changed v existing) as [ex'|b] eqn:Hchanged.
    + intros [= <-].
      apply option_changed_error in Hchanged as (->&s&e&->&->).
      exists [], n, (OptStr s), items. split; [done|].
      split; [by intros ?? ?%elem_of_nil|]. right. eauto.
    + intros Hd.
      assert (exists upd', diff_loop items known eo upd' = inl ex) as [upd' Hd'].
      { destruct b; eauto. }
      destruct (IH _ Hd') as (before&name&value&after&->&Hbefore&Hex).
      exists ((n, v) :: before), name, value, after. split; [done|]. split; [|done].
      intros n' v' [[= -> ->]|Hin]%elem_of_cons; eauto.
  - intros [= <-]. exists [], n, v, items. split; [done|].
    split; [by intros ?? ?%elem_of_nil|]. left. done.
Qed.

(** The loop ends when every item has a live value it can be compared
    with. *)
Lemma diff_loop_returns items known (eo upd : gmap string (@optval V)) :
  (forall name value, (name, value) ∈ items ->
     exists existing b, eo !! name = Some existing /\
       option_changed value existing = inr b) ->
  exists d, diff_loop items known eo upd = inr d.
Proof.
  intros Hok. destruct (diff_loop items known eo upd) as [ex|d] eqn:Hd; [|eauto].
  apply diff_loop_inl in Hd as [(name&value&Hin&Hnone&_)|(_&name&s&e&Hin&He)].
  - destruct (Hok _ _ Hin) as (?&?&?&_). congruence.
  - destruct (Hok _ _ Hin) as (existing&b&Hex&Hb). rewrite Hex in He.
    injection He as ->. done.
Qed.

(** When the loop ends, what it has built does not depend on the order
    of the items. *)
Lemma diff_loop_order items items' known known' (eo d : gmap string (@optval V)) :
  NoDup items.*1 -> NoDup items'.*1 ->
  (forall name value, (name, value) ∈ items <-> (name, value) ∈ items') ->
  diff_loop items known eo ∅ = inr d -> diff_loop items' known' eo ∅ = inr d.
Proof.
  intros Hnd Hnd' Hsame Hd.
  apply diff_loop_inr in Hd as [Hout Hin]; [|done].
  destruct (diff_loop_returns items' known' eo ∅) as [d' Hd'].
  { intros name value Hi. apply Hsame in Hi.
    destruct (Hin _ _ Hi) as (existing&b&?&?&_). eauto. }
  rewrite Hd'. f_equal.
  apply diff_loop_inr in Hd' as [Hout' Hin']; [|done].
  apply map_eq. intros name.
  destruct (decide (name ∈ items.*1)) as [Hname|Hname].
  - apply list_elem_of_fmap in Hname as ([n value]&->&Hi). simpl.
    destruct (Hin _ _ Hi) as (existing&b&He&Hb&Hdn).
    apply Hsame in Hi. destruct (Hin' _ _ Hi) as (existing'&b'&He'&Hb'&Hdn').
    rewrite Hdn, Hdn'. rewrite He in He'. injection He' as <-.
    rewrite Hb in Hb'. by injection Hb' as <-.
  - rewrite Hout by done. rewrite Hout'; [done|].
    intros ([n value]&->&Hi)%list_elem_of_fmap. apply Hname.
    apply list_elem_of_fmap. exists (n, value). split; [done|]. by apply Hsame.
Qed.

(** The loop of [_update_options] against [option_diff]: they end
    together, with the same dictionary. *)
Lemma options_items_diff (option_strings : list string) known
    (mo eo d : gmap string (@optval V)) :
  _options_map_from_strings json_loads option_strings = inr mo ->
  diff_loop (options_items json_loads dict_order option_strings mo) known eo ∅ = inr d <->
  option_diff mo eo = inr d.
Proof.
  intros Hmo. destruct (options_items_spec _ _ Hmo) as (_&Hnd&Hitems).
  unfold option_diff. split; apply diff_loop_order;
    try done; try apply NoDup_fst_map_to_list;
    intros name value; rewrite Hitems, elem_of_map_to_list; done.
Qed.

(** They raise together; when the live options know every desired
    name, with the same error. *)
Lemma options_items_diff_raises (option_strings : list string) known
    (mo eo : gmap string (@optval V)) :
  _options_map_from_strings json_loads option_strings = inr mo ->
  let loop := diff_loop (options_items json_loads dict_order option_strings mo) known eo ∅ in
  ((exists ex, loop = inl ex) <-> (exists ex, option_diff mo eo = inl ex)) /\
  ((forall n, is_Some (mo !! n) -> is_Some (eo !! n)) -> loop = option_diff mo eo).
Proof.
  intros Hmo loop.
  destruct (options_items_spec _ _ Hmo) as (_&_&Hitems).
  destruct loop as [ex|d] eqn:Hloop; destruct (option_diff mo eo) as [ex'|d'] eqn:Hdiff.
  - split; [split; eauto|]. intros Hknown. f_equal. subst loop.
    apply diff_loop_inl in Hloop as [(n&v&Hin&Hnone&_)|[-> _]].
    { apply Hitems in Hin. destruct (Hknown n) as [? ?]; [eauto|congruence]. }
    unfold option_diff in Hdiff.
    apply diff_loop_inl in Hdiff as [(n&v&Hin&Hnone&_)|[-> _]]; [|done].
    apply elem_of_map_to_list in Hin. destruct (Hknown n) as [? ?]; [eauto|congruence].
  - apply (options_items_diff option_strings known mo eo d' Hmo) in Hdiff.
    subst loop. congruence.
  - apply (options_items_diff option_strings known mo eo d Hmo) in Hloop. congruence.
  - apply (options_items_diff option_strings known mo eo d Hmo) in Hloop.
    assert (d' = d) as -> by congruence.
    split; [|done]. split; intros [ex Hex]; discriminate.
Qed.

(** The dictionary [update_options] of [_update_options], for the live
    table [tm]. *)
Abbreviation options_to_update m tm mo eo :=
  (diff_loop (options_items json_loads dict_order (model_option_strings m) mo)
     (options_keys json_loads dict_order (tm_option_strings tm)) eo ∅).

(** [_update_options] on a live table whose options and the desired
    options can be read. *)
Lemma update_options_run c m tm eo mo :
  live_table c m = Some tm ->
  _options_map_from_strings json_loads (tm_option_strings tm) = inr eo ->
  _options_map_from_strings json_loads (model_option_strings m) = inr mo ->
  let r := _update_options json_loads exec dict_order m c in
  match options_to_update m tm mo eo with
  | inl ex => executed (emitted r) = [] /\ cluster_after r = c /\ result r = inl ex
  | inr d =>
      if decide (d = ∅)
      then executed (emitted r) = [] /\ cluster_after r = c /\ result r = inr false
      else executed (emitted r) = [AlterTableWith (column_family_name m) d] /\
           cluster_after r = (exec (AlterTableWith (column_family_name m) d) c).1 /\
           result r = match (exec (AlterTableWith (column_family_name m) d) c).2 with
                      | Some ex => inl ex
                      | None => inr true
                      end
  end.
Proof.
  intros Htm Heo Hmo. unfold _update_options, log.
  rewrite bind_emit, (bind_run _ _ _ _ _ _ (get_table_metadata_run _ _ _ Htm)).
  cbv zeta. rewrite Heo, bind_lift_inr, Hmo, bind_lift_inr.
  destruct (options_to_update m tm mo eo) as [ex|d]; [by rewrite bind_lift_inl|].
  rewrite bind_lift_inr.
  destruct (decide (d = ∅)) as [->|Hne].
  - rewrite bool_decide_eq_false_2 by (by intros ?). done.
  - rewrite bool_decide_eq_true_2 by done. unfold bind, execute.
    destruct (exec _ c) as [c' [ex|]]; done.
Qed.

(** C6 (amended): when some desired option is absent from the live
    table's normalised options, option reconciliation raises and executes
    nothing, the metadata being as before.  The error is that of the
    first desired option, in the order in which the dictionary of the
    desired options is iterated, that the live options lack or whose
    desired value is a string while its live value is a dictionary: the
    [KeyError] that names this option and lists the known ones when the
    live options lack it, so that of several such options one only is
    named; the [AttributeError] of the comparison otherwise.  When the
    option is the only one that the live options lack and no desired
    string faces a live dictionary, the error names it. *)
Theorem update_options_unknown_option (m : Model) (c : Cluster) tm eo mo name :
  live_table c m = Some tm ->
  _options_map_from_strings json_loads (tm_option_strings tm) = inr eo ->
  _options_map_from_strings json_loads (model_option_strings m) = inr mo ->
  is_Some (mo !! name) -> eo !! name = None ->
  let r := _update_options json_loads exec dict_order m c in
  let known := options_keys json_loads dict_order (tm_option_strings tm) in
  executed (emitted r) = [] /\ cluster_after r = c /\
  (exists before first after,
     options_keys json_loads dict_order (model_option_strings m) =
       (before ++ first :: after)%list /\
     (forall n, n ∈ before -> is_Some (eo !! n) /\ ~ string_faces_dictionary mo eo n) /\
     ((eo !! first = None /\ result r = inl (InvalidTableOption first known)) \/
      (string_faces_dictionary mo eo first /\ result r = inl (AttributeError "items")))) /\
  ((forall n, is_Some (mo !! n) -> eo !! n = None -> n = name) ->
   (forall n, ~ string_faces_dictionary mo eo n) ->
   result r = inl (InvalidTableOption name known)).
Proof.
  intros Htm Heo Hmo [value Hname] Hnone r known.
  destruct (options_items_spec _ _ Hmo) as (Hfst&Hnd&Hin).
  generalize (update_options_run c m tm eo mo Htm Heo Hmo). fold r.
  destruct (options_to_update m tm mo eo) as [ex|d] eqn:Hd.
  - intros (?&?&Hr). split; [done|]. split; [done|].
    apply diff_loop_first_error in Hd as (before&first&v&after&Hitems&Hbefore&Hex).
    assert (mo !! first = Some v) as Hfirst.
    { apply Hin. rewrite Hitems. apply elem_of_app. right. by left. }
    assert ((eo !! first = None /\ result r = inl (InvalidTableOption first known)) \/
            (string_faces_dictionary mo eo first /\
             result r = inl (AttributeError "items"))) as Hcases.
    { destruct Hex as [[? ->]|(s&e&->&?&->)]; [by left|right].
      split; [|done]. by exists s, e. }
    split.
    + exists before.*1, first, after.*1. split.
      { by rewrite <- Hfst, Hitems, fmap_app. }
      split; [|done].
      intros n ([n' v']&->&Hnv)%list_elem_of_fmap. simpl.
      destruct (Hbefore _ _ Hnv) as (existing&b&He&Hb). split; [eauto|].
      intros (s&e&Hs&He').
      assert (mo !! n' = Some v') as Hv'.
      { apply Hin. rewrite Hitems. apply elem_of_app. by left. }
      rewrite Hs in Hv'. injection Hv' as <-.
      rewrite He in He'. injection He' as ->. done.
    + intros Honly Hshape. destruct Hcases as [[Habsent ->]|[Hfaces _]].
      * by rewrite (Honly first) by eauto.
      * by destruct (Hshape first).
  - apply diff_loop_inr in Hd as [_ Hd]; [|done].
    apply Hin in Hname.
    destruct (Hd _ _ Hname) as (?&?&?&_). congruence.
Qed.

(** ** The option codec *)

(** C8 (amended): for a clause "name=value", the value is handed to the
    JSON reader iff it has an opening brace anywhere, not only at its
    head: what is read is the text from the first opening brace to the
    last closing brace, single quotes replaced by double quotes (the
    empty text when no closing brace follows), and the option is the
    dictionary read, or the reader's error; a value without any opening
    brace is kept, trimmed, as a string.  Either way the key is the
    trimmed name. *)
Theorem decode_option_by_first_brace (name value : string) :
  PyStr.contains "=" name = false -> PyStr.contains "=" value = false ->
  let read text :=
    match json_loads text with
    | Some d => inr (PyStr.strip name, OptDict d)
    | None => inl (JSONDecodeError text)
    end in
  (PyStr.contains "{" value = false ->
   decode_option json_loads (name ++ "=" ++ value) =
   inr (PyStr.strip name, OptStr (PyStr.strip value))) /\
  (forall pre body post,
     value = pre ++ "{" ++ body ++ "}" ++ post ->
     PyStr.contains "{" pre = false -> PyStr.contains "}" post = false ->
     decode_option json_loads (name ++ "=" ++ value) =
     read (PyStr.replace PyStr.squote PyStr.dquote ("{" ++ body ++ "}"))) /\
  (forall pre rest,
     value = pre ++ "{" ++ rest ->
     PyStr.contains "{" pre = false -> PyStr.contains "}" rest = false ->
     decode_option json_loads (name ++ "=" ++ value) = read "").
Proof.
  intros Hname Hvalue read. unfold decode_option.
  change (name ++ "=" ++ value) with (name ++ String "="%char value).
  rewrite (split_two _ _ _ Hname Hvalue). unfold PyStr.find, PyStr.rfind.
  split; [|split].
  - intros Hbrace. by rewrite find_from_absent.
  - intros pre body post -> Hpre Hpost.
    change (pre ++ "{" ++ body ++ "}" ++ post)
      with (pre ++ String "{"%char (body ++ String "}"%char post)).
    rewrite find_from_first by done.
    replace (pre ++ String "{"%char (body ++ String "}"%char post))
      with ((pre ++ String "{"%char body) ++ String "}"%char post)
      by (by rewrite string_app_assoc).
    rewrite rfind_from_last by done.
    rewrite (proj2 (Z.leb_le _ _)) by lia.
    replace ((pre ++ String "{"%char body) ++ String "}"%char post)
      with (pre ++ ("{" ++ body ++ "}") ++ post).
    2:{ rewrite !string_app_assoc. reflexivity. }
    rewrite (slice_between pre ("{" ++ body ++ "}") post); [done|lia|].
    change ("{" ++ body ++ "}") with (String "{"%char (body ++ "}")).
    rewrite !string_length_app. simpl. rewrite string_length_app. simpl. lia.
  - intros pre rest -> Hpre Hrest.
    change (pre ++ "{" ++ rest) with (pre ++ String "{"%char rest).
    rewrite find_from_first by done.
    rewrite (proj2 (Z.leb_le _ _)) by lia.
    rewrite rfind_from_app_absent.
    2:{ rewrite contains_one_cons, Hrest. done. }
    rewrite slice_empty; [done|].
    destruct (rfind_from_bound "}" pre 0 (-1)) as [?|[_ ->]]; lia.
Qed.

(** ** Running again *)

Lemma bind_inr_inv {A B} (m : M A) (f : A -> M B) c b :
  result (bind m f c) = inr b ->
  exists a, result (m c) = inr a /\
    result (f a (cluster_after (m c))) = inr b /\
    cluster_after (bind m f c) = cluster_after (f a (cluster_after (m c))).
Proof.
  unfold bind. destruct (result (m c)) as [ex|a]; simpl; [done|]. eauto.
Qed.

Lemma quiet_ret {A} (a : A) c : quiet (@ret V A a) c a.
Proof. done. Qed.

Lemma quiet_bind {A B} (m : M A) (f : A -> M B) c a b :
  quiet m c a -> quiet (f a) c b -> quiet (bind m f) c b.
Proof.
  intros (Hm1&Hm2&Hm3) (Hf1&Hf2&Hf3). unfold quiet.
  rewrite (bind_inr _ _ _ _ Hm3), Hm2. simpl.
  by rewrite executed_app, Hm1, Hf1.
Qed.

Lemma quiet_emit e c : (forall s, e <> Executed s) -> quiet (@emit V e) c tt.
Proof. intros He. destruct e as [s| | | |]; [by destruct (He s)|done..]. Qed.

Lemma settles_ret {A} (a : A) : settles (@ret V A a).
Proof. split; [done|]. intros c a' [= <-] c2 _. apply quiet_ret. Qed.

Lemma settles_bind {A B} (m : M A) (f : A -> M B) :
  settles m -> (forall a, settles (f a)) -> settles (bind m f).
Proof.
  intros [Hm1 Hm2] Hf. split.
  - intros c. unfold bind. destruct (result (m c)) as [ex|a]; simpl; [done|].
    etrans; [apply Hm1|apply Hf].
  - intros c b Hb c2 Hc2.
    apply bind_inr_inv in Hb as (a&Ha&Hb&Hc). rewrite Hc in Hc2.
    eapply quiet_bind.
    + apply (Hm2 c a Ha). etrans; [apply Hf|done].
    + by apply (proj2 (Hf a) _ _ Hb).
Qed.

Lemma settles_fold_each {A S} (xs : list A) (s : S) (body : A -> S -> M S) :
  (forall x s, x ∈ xs -> settles (body x s)) -> settles (fold_each xs s body).
Proof.
  revert s. induction xs as [|x xs IH]; intros s Hb; simpl; [apply settles_ret|].
  apply settles_bind; [apply Hb; by left|].
  intros s'. apply IH. intros y s'' Hy. apply Hb. by right.
Qed.

Lemma settles_sync_udts (rec : UserType -> option (gset nat) -> M (gset nat)) us :
  Forall (fun u => forall o, settles (rec u o)) us ->
  forall snapshot s, settles (sync_udts rec us snapshot s).
Proof.
  induction 1 as [|u us Hu _ IH]; intros snapshot s; simpl; [apply settles_ret|].
  case_bool_decide; [apply IH|].
  apply settles_bind; [apply Hu|]. intros s'. apply IH.
Qed.

Lemma settles_sync_subtypes (rec : UserType -> option (gset nat) -> M (gset nat)) fields :
  Forall (fun f => Forall (fun u => forall o, settles (rec u o)) (udts f)) fields ->
  forall s, settles (sync_subtypes rec fields s).
Proof.
  induction 1 as [|f fs Hf _ IH]; intros s; simpl; [apply settles_ret|].
  apply settles_bind; [by apply settles_sync_udts|]. intros s'. apply IH.
Qed.

(** ** A cluster that does what it is told *)

Section Faithful.

(** Apply a lemma and let instance resolution settle what it can. *)
Ltac ap lem := apply lem; try apply _.

Variable m : Model.
Hypothesis cluster_faithful : faithful json_loads exec refresh_user_type_metadata m.

Abbreviation ks := (_get_keyspace m).

Lemma has_field_le c c' k tn fn :
  cluster_le c c' -> has_field c k tn fn -> has_field c' k tn fn.
Proof.
  intros Hle (km&fns&Hkm&Hfns&Hin).
  destruct (Hle _ _ Hkm) as (km'&Hkm'&Htypes&_).
  destruct (Htypes _ _ Hfns) as (fns'&Hfns'&Hsub).
  exists km', fns'. repeat split; try done. by apply Hsub.
Qed.

Lemma type_defined_le c c' k t :
  cluster_le c c' -> type_defined c k t -> type_defined c' k t.
Proof.
  intros Hle (km&fns&Hkm&Hfns&Hin).
  destruct (Hle _ _ Hkm) as (km'&Hkm'&Htypes&_).
  destruct (Htypes _ _ Hfns) as (fns'&Hfns'&Hsub).
  exists km', fns'. repeat split; try done. intros f Hf. by apply Hsub, Hin.
Qed.

Lemma exec_grows s c : sync_statement m s -> cluster_le c (exec s c).1.
Proof. apply (f_monotone _ _ _ _ cluster_faithful). Qed.

Lemma refresh_grows k t c : cluster_le c (refresh_user_type_metadata k t c).
Proof. apply (f_refresh _ _ _ _ cluster_faithful). Qed.

(** The loop of [sync_one_type] over the fields of a live type. *)
Abbreviation add_fields t defined_fields fields start :=
  (fold_each fields start (fun field (model_fields : gset string) =>
    let model_fields := {[db_field_name field]} ∪ model_fields in
    if bool_decide (db_field_name field ∉ defined_fields) then
      bind (execute exec (AlterTypeAdd ks (type_name t) field)) (fun _ => ret model_fields)
    else ret model_fields)).

Lemma add_fields_grows t (defined_fields : list string) fields model_fields c :
  cluster_le c (cluster_after (add_fields t defined_fields fields model_fields c)).
Proof.
  assert (safe (sync_statement m) cluster_le
            (add_fields t defined_fields fields model_fields)) as Hsafe; [|apply Hsafe].
  ap safe_fold_each.
  intros f s _. simpl. case_bool_decide; [|ap safe_ret].
  ap safe_bind; [|intros; ap safe_ret].
  ap safe_execute; [apply exec_grows|done].
Qed.

Lemma add_fields_done t (defined_fields : list string) fields model_fields c s :
  result (add_fields t defined_fields fields model_fields c) = inr s ->
  forall f, f ∈ fields ->
    db_field_name f ∈ defined_fields \/
    has_field (cluster_after (add_fields t defined_fields fields model_fields c))
      ks (type_name t) (db_field_name f).
Proof.
  revert model_fields c. induction fields as [|f0 fields IH]; intros mf c Hr f Hf.
  { inversion Hf. }
  simpl in Hr |- *.
  apply bind_inr_inv in Hr as (mf'&Hbody&Hrest&Hc). rewrite Hc.
  apply elem_of_cons in Hf as [->|Hf]; [|by apply (IH _ _ Hrest)].
  case_bool_decide as Hnew; [|by left].
  right. eapply has_field_le; [apply add_fields_grows|].
  apply bind_inr_inv in Hbody as ([]&Hexec&_&Hc'). rewrite Hc'. simpl.
  unfold execute in *. destruct (exec _ c) as [c' [ex|]] eqn:He; [done|]. simpl.
  by eapply (f_alter_type _ _ _ _ cluster_faithful).
Qed.

Lemma add_fields_quiet t (defined_fields : list string) fields model_fields c :
  (forall f, f ∈ fields -> db_field_name f ∈ defined_fields) ->
  exists s, quiet (add_fields t defined_fields fields model_fields) c s.
Proof.
  revert model_fields. induction fields as [|f0 fields IH]; intros mf Hall.
  { eexists. apply quiet_ret. }
  simpl.
  rewrite bool_decide_eq_false_2 by (intros Hn; apply Hn, Hall; by left).
  destruct (IH ({[db_field_name f0]} ∪ mf)) as [s Hs].
  { intros f Hf. apply Hall. by right. }
  exists s. eapply quiet_bind; [apply quiet_ret|done].
Qed.

Lemma quiet_log level format args c : quiet (@log V level format args) c tt.
Proof. done. Qed.

Lemma sync_one_type_quiet c t :
  type_defined c ks t -> quiet (sync_one_type' ks t) c tt.
Proof.
  intros (km&fns&Hkm&Hfns&Hall). unfold sync_one_type.
  unfold quiet. rewrite bind_get_metadata, (bind_getitem _ _ _ _ _ Hkm), Hfns.
  destruct (add_fields_quiet t fns (_fields t) ∅ c Hall) as [s Hs].
  eapply quiet_bind; [exact Hs|].
  eapply quiet_bind; [by apply quiet_emit|].
  repeat case_bool_decide; try apply quiet_log; apply quiet_ret.
Qed.

Lemma sync_one_type_grows t c :
  cluster_le c (cluster_after (sync_one_type' ks t c)).
Proof.
  assert (safe (sync_statement m) cluster_le (sync_one_type' ks t)) as Hsafe; [|apply Hsafe].
  ap safe_sync_one_type; [apply exec_grows|apply refresh_grows|done|done].
Qed.

Lemma sync_one_type_defines c t :
  result (sync_one_type' ks t c) = inr tt ->
  type_defined (cluster_after (sync_one_type' ks t c)) ks t.
Proof.
  unfold sync_one_type. rewrite bind_get_metadata.
  destruct (c !! ks) as [km|] eqn:Hkm; [|by rewrite bind_getitem_None].
  rewrite (bind_getitem _ _ _ _ _ Hkm).
  destruct (user_types km !! type_name t) as [fns|] eqn:Hfns.
  - intros Hr. apply bind_inr_inv in Hr as (s&Hadd&Hrest&Hc). rewrite Hc.
    match goal with
    | |- context [cluster_after (bind (emit ?e) ?k ?c')] =>
        assert (cluster_after (bind (emit e) k c') = c') as ->
          by (rewrite bind_emit; simpl; by repeat case_bool_decide)
    end.
    pose proof (add_fields_grows t fns (_fields t) ∅ c) as Hle.
    destruct (Hle _ _ Hkm) as (km'&Hkm'&Htypes&_).
    destruct (Htypes _ _ Hfns) as (fns'&Hfns'&Hsub).
    exists km', fns'. repeat split; try done. intros f Hf.
    destruct (add_fields_done _ _ _ _ _ _ Hadd f Hf) as [Hin|(km''&fns''&?&?&?)].
    + by apply Hsub.
    + congruence.
  - unfold log. rewrite bind_emit. intros Hr; simpl in Hr.
    apply bind_inr_inv in Hr as ([]&Hexec&Hrest&Hc). simpl. rewrite Hc. simpl.
    unfold execute in *. destruct (exec _ c) as [c' [ex|]] eqn:He; [done|]. simpl.
    eapply type_defined_le; [apply refresh_grows|].
    by eapply (f_create_type _ _ _ _ cluster_faithful).
Qed.

Lemma settles_sync_one_type t : settles (sync_one_type' ks t).
Proof.
  split; [apply sync_one_type_grows|].
  intros c [] Hr c2 Hc2. apply sync_one_type_quiet.
  eapply type_defined_le; [done|]. by apply sync_one_type_defines.
Qed.

Lemma settles_sync_type t : forall o, settles (_sync_type' ks t o).
Proof.
  induction t as [t IH] using UserType_nested_ind. intros o.
  rewrite sync_type_unfold.
  apply settles_bind; [by apply settles_sync_subtypes|]. intros s.
  apply settles_bind; [apply settles_sync_one_type|]. intros _. apply settles_ret.
Qed.

Lemma settles_sync_column_types :
  settles (sync_column_types exec refresh_user_type_metadata ks m).
Proof.
  unfold sync_column_types. apply settles_fold_each. intros col s _.
  apply settles_fold_each. intros udt s' _. apply settles_sync_type.
Qed.

(** *** The tables during the synchronisation of the types *)

#[global] Instance same_tables_preorder : PreOrder same_tables.
Proof.
  split.
  - by intros c k.
  - intros a b c Hab Hbc k. by rewrite Hbc, Hab.
Qed.

Lemma types_keep_tables c :
  same_tables c (cluster_after (sync_column_types exec refresh_user_type_metadata ks m c)).
Proof.
  assert (safe type_statement same_tables
            (sync_column_types exec refresh_user_type_metadata ks m)) as Hsafe;
    [|apply Hsafe].
  unfold sync_column_types. ap safe_fold_each. intros col s _.
  ap safe_fold_each. intros udt s' _.
  ap safe_sync_type; try done.
  - intros s0 c0 Hs0. by apply (f_type_tables _ _ _ _ cluster_faithful).
  - apply (f_refresh_tables _ _ _ _ cluster_faithful).
Qed.

(** *** Options that need no change *)

Lemma option_changed_same (value : @optval V) : option_changed value value = inr false.
Proof.
  destruct value as [s|d]; simpl.
  - f_equal. apply bool_decide_eq_false_2. by intros ?.
  - destruct (option_changed_dict d d) as (b&Hb&Hiff). unfold option_changed in Hb.
    rewrite Hb. f_equal. destruct b; [|done].
    destruct Hiff as [(k&v&Hk&Hne) _]; [done|]. by destruct Hne.
Qed.

Lemma diff_loop_unchanged items known (eo upd : gmap string (@optval V)) :
  (forall name value, (name, value) ∈ items ->
     exists existing, eo !! name = Some existing /\
       option_changed value existing = inr false) ->
  diff_loop items known eo upd = inr upd.
Proof.
  induction items as [|[n v] items IH]; intros Hall; simpl; [done|].
  destruct (Hall n v) as (existing&->&->); [by left|].
  apply IH. intros name value Hin. apply Hall. by right.
Qed.

(** What the comparison of [_update_options] finds unchanged. *)
Lemma option_changed_met (value existing : @optval V) :
  option_changed value existing = inr false <-> option_met existing value.
Proof.
  destruct existing as [s|e], value as [s'|d]; simpl.
  1, 2: split;
    [intros [= Hb]; apply bool_decide_eq_false in Hb; by apply dec_stable in Hb
    |intros Heq; try discriminate Heq; f_equal; apply bool_decide_eq_false_2;
     intros Hne; by destruct Hne].
  - done.
  - destruct (option_changed_dict d e) as (b&Hb&Hiff). unfold option_changed in Hb.
    rewrite Hb. split.
    + intros [= ->]. apply map_subseteq_spec. intros k v Hk.
      destruct (decide (e !! k = Some v)) as [|Hne]; [done|].
      assert (true = false) by (symmetry; apply Hiff; eauto). done.
    + intros Hsub. destruct b; [|done].
      destruct (proj1 Hiff eq_refl) as (k&v&Hk&Hne). destruct Hne.
      by eapply lookup_weaken.
Qed.

Lemma option_diff_subseteq (mo eo : gmap string (@optval V)) :
  mo ⊆ eo -> option_diff mo eo = inr ∅.
Proof.
  intros Hsub. apply diff_loop_unchanged. intros name value Hin.
  apply elem_of_map_to_list in Hin. exists value. split.
  - by eapply lookup_weaken.
  - apply option_changed_same.
Qed.

(** *** The columns *)

Abbreviation col_live c col :=
  (exists tm, live_table c m = Some tm /\
     db_field_name col ∈ _get_non_pk_field_names tm).

Lemma col_live_le c c' (col : Column) :
  cluster_le c c' -> col_live c col -> col_live c' col.
Proof.
  intros Hle (tm&Htm&Hin).
  destruct (cluster_le_live_table _ _ _ _ Hle Htm) as (tm'&Htm'&_&Hsub&_).
  exists tm'. split; [done|]. by apply Hsub.
Qed.

(** The loop of [update_table] over the columns of the model. *)
Abbreviation add_columns field_names cols start :=
  (fold_each cols start (fun '(name, col) (model_fields : gset string) =>
     if (primary_key col || partition_key col)%bool then ret model_fields
     else
       let model_fields := {[name]} ∪ model_fields in
       if bool_decide (db_field_name col ∈ field_names) then ret model_fields
       else bind (execute exec (AlterTableAdd (column_family_name m) col))
              (fun _ => ret model_fields))).

Lemma add_columns_safe (field_names : list string) cols start :
  (forall nc, nc ∈ cols -> nc ∈ _columns m) ->
  safe (sync_statement m) cluster_le (add_columns field_names cols start).
Proof.
  intros Hsub. ap safe_fold_each. intros [name col] s Hin.
  destruct (primary_key col || partition_key col)%bool eqn:Hpk; [ap safe_ret|].
  simpl. case_bool_decide; [ap safe_ret|].
  ap safe_bind; [|intros; ap safe_ret].
  ap safe_execute; [apply exec_grows|]. simpl.
  apply orb_false_elim in Hpk as [? ?]. split; [done|]. split; [|done].
  exists name. by apply Hsub.
Qed.

Lemma add_columns_done (field_names : list string) cols start c s :
  (forall nc, nc ∈ cols -> nc ∈ _columns m) ->
  result (add_columns field_names cols start c) = inr s ->
  forall name col, (name, col) ∈ cols ->
    (primary_key col || partition_key col)%bool = false ->
    db_field_name col ∈ field_names \/
    col_live (cluster_after (add_columns field_names cols start c)) col.
Proof.
  revert start c. induction cols as [|[n0 c0] cols IH]; intros start c Hsub Hr name col Hin Hpk.
  { inversion Hin. }
  simpl in Hr |- *.
  apply bind_inr_inv in Hr as (mf'&Hbody&Hrest&Hc). rewrite Hc.
  assert (forall nc, nc ∈ cols -> nc ∈ _columns m) as Hsub'.
  { intros nc Hnc. apply Hsub. by right. }
  apply elem_of_cons in Hin as [[= -> ->]|Hin]; [|by apply (IH _ _ Hsub' Hrest name)].
  rewrite Hpk in *. simpl in *.
  case_bool_decide as Hnew; [by left|].
  right. eapply col_live_le; [apply (add_columns_safe field_names cols mf' Hsub')|].
  apply bind_inr_inv in Hbody as ([]&Hexec&_&Hc'). rewrite Hc'. simpl.
  unfold execute in *. destruct (exec _ c) as [c' [ex|]] eqn:He; [done|]. simpl.
  by eapply (f_alter_add _ _ _ _ cluster_faithful).
Qed.

Lemma add_columns_quiet (field_names : list string) cols start c :
  (forall name col, (name, col) ∈ cols ->
     (primary_key col || partition_key col)%bool = false ->
     db_field_name col ∈ field_names) ->
  exists s, quiet (add_columns field_names cols start) c s.
Proof.
  revert start. induction cols as [|[n0 c0] cols IH]; intros start Hall.
  { eexists. apply quiet_ret. }
  simpl.
  assert (forall name col, (name, col) ∈ cols ->
     (primary_key col || partition_key col)%bool = false ->
     db_field_name col ∈ field_names) as Hall'.
  { intros name col Hin. apply (Hall name). by right. }
  destruct (primary_key c0 || partition_key c0)%bool eqn:Hpk.
  - destruct (IH start Hall') as [s Hs]. exists s.
    eapply quiet_bind; [apply quiet_ret|done].
  - rewrite bool_decide_eq_true_2 by (apply (Hall n0 c0); [by left|done]).
    destruct (IH ({[n0]} ∪ start) Hall') as [s Hs]. exists s.
    eapply quiet_bind; [apply quiet_ret|done].
Qed.

(** *** The options *)

(** The live options of the table need no change. *)
Abbreviation options_settled c :=
  (forall tm eo mo, live_table c m = Some tm ->
     _options_map_from_strings json_loads (tm_option_strings tm) = inr eo ->
     _options_map_from_strings json_loads (model_option_strings m) = inr mo ->
     options_met eo mo).

Lemma get_table_metadata_inv c tm :
  result (@_get_table_metadata V m c) = inr tm -> live_table c m = Some tm.
Proof.
  unfold _get_table_metadata, live_table. rewrite bind_get_metadata.
  destruct (c !! ks) as [km|] eqn:Hkm; [|by rewrite bind_getitem_None].
  rewrite (bind_getitem _ _ _ _ _ Hkm). unfold getitem. simpl.
  destruct (tables km !! _raw_column_family_name m); simpl; [|done]. by intros [= ->].
Qed.

Lemma update_options_inv c b :
  result (_update_options json_loads exec dict_order m c) = inr b ->
  exists tm eo mo, live_table c m = Some tm /\
    _options_map_from_strings json_loads (tm_option_strings tm) = inr eo /\
    _options_map_from_strings json_loads (model_option_strings m) = inr mo.
Proof.
  unfold _update_options, log. rewrite bind_emit. cbn [result]. intros Hr.
  apply bind_inr_inv in Hr as (tm&Htm&Hr&_).
  pose proof (get_table_metadata_inv _ _ Htm) as Hlive.
  rewrite (get_table_metadata_run _ _ _ Hlive) in Hr. cbn [cluster_after] in Hr.
  exists tm.
  destruct (_options_map_from_strings json_loads (tm_option_strings tm)) as [ex|eo];
    [by rewrite bind_lift_inl in Hr|].
  rewrite bind_lift_inr in Hr.
  destruct (_options_map_from_strings json_loads (model_option_strings m)) as [ex|mo];
    [by rewrite bind_lift_inl in Hr|].
  eauto.
Qed.

Lemma update_options_settles c b :
  result (_update_options json_loads exec dict_order m c) = inr b ->
  options_settled (cluster_after (_update_options json_loads exec dict_order m c)).
Proof.
  intros Hr. destruct (update_options_inv _ _ Hr) as (tm&eo&mo&Htm&Heo&Hmo).
  destruct (options_items_spec _ _ Hmo) as (_&Hnd&Hitems).
  generalize (update_options_run c m tm eo mo Htm Heo Hmo). cbn zeta.
  destruct (options_to_update m tm mo eo) as [ex|d] eqn:Hd;
    [intros (_&_&Hr'); congruence|].
  apply diff_loop_inr in Hd as [_ Hd]; [|done].
  assert (forall name value, mo !! name = Some value ->
            exists existing b, eo !! name = Some existing /\
              option_changed value existing = inr b /\
              d !! name = if b then Some value else None) as Hdiff.
  { intros name value Hname%Hitems.
    destruct (Hd _ _ Hname) as (existing&b'&?&?&Hdn). rewrite lookup_empty in Hdn. eauto. }
  destruct (decide (d = ∅)) as [->|Hne].
  - intros (_&->&_) tm' eo' mo' Htm' Heo' Hmo'.
    assert (tm' = tm) as -> by congruence.
    assert (eo' = eo) as -> by congruence.
    assert (mo' = mo) as -> by congruence.
    intros name value Hname.
    destruct (Hdiff _ _ Hname) as (existing&b'&He&Hb&Hdn). exists existing.
    split; [done|]. apply option_changed_met.
    destruct b'; [by rewrite lookup_empty in Hdn|done].
  - intros (_&Hc&Hr') tm' eo' mo' Htm' Heo' Hmo'.
    destruct (exec (AlterTableWith (column_family_name m) d) c) as [c' [ex|]] eqn:He;
      simpl in *; [congruence|].
    rewrite Hc in Htm'.
    assert (mo' = mo) as -> by congruence.
    destruct (f_alter_with _ _ _ _ cluster_faithful _ _ _ _ _ _ _ He Htm Heo Htm' Heo')
      as [Hmet Hother].
    intros name value Hname.
    destruct (Hdiff _ _ Hname) as (existing&b'&Hex&Hb&Hdn).
    destruct b'.
    + by apply Hmet.
    + exists existing. split; [by rewrite Hother|]. by apply option_changed_met.
Qed.

Lemma update_options_quiet c tm :
  live_table c m = Some tm -> options_settled c ->
  executed (emitted (_update_options json_loads exec dict_order m c)) = [] /\
  cluster_after (_update_options json_loads exec dict_order m c) = c.
Proof.
  intros Htm Hsettled. unfold _update_options, log.
  rewrite bind_emit, (bind_run _ _ _ _ _ _ (get_table_metadata_run _ _ _ Htm)).
  cbn [emitted cluster_after executed app]. cbv zeta.
  destruct (_options_map_from_strings json_loads (tm_option_strings tm)) as [ex|eo] eqn:Heo;
    [by rewrite bind_lift_inl|].
  rewrite bind_lift_inr.
  destruct (_options_map_from_strings json_loads (model_option_strings m)) as [ex|mo] eqn:Hmo;
    [by rewrite bind_lift_inl|].
  rewrite bind_lift_inr.
  destruct (options_items_spec _ _ Hmo) as (_&_&Hitems).
  rewrite diff_loop_unchanged, bind_lift_inr.
  - by rewrite bool_decide_eq_false_2 by (by intros ?).
  - intros name value Hname%Hitems.
    destruct (Hsettled _ _ _ Htm Heo eq_refl _ _ Hname) as (existing&?&?).
    exists existing. split; [done|]. by apply option_changed_met.
Qed.

Lemma update_options_grows c :
  cluster_le c (cluster_after (_update_options json_loads exec dict_order m c)).
Proof.
  assert (safe (sync_statement m) cluster_le (_update_options json_loads exec dict_order m))
    as Hsafe; [|apply Hsafe].
  ap safe_update_options; [apply exec_grows|done].
Qed.

(** *** Runs that execute nothing *)

Lemma quiet_still {A} (m' : M A) c a : quiet m' c a -> still m' c.
Proof. by intros (?&?&?). Qed.

Lemma still_bind {A B} (m' : M A) (f : A -> M B) c :
  still m' c -> (forall a, still (f a) c) -> still (bind m' f) c.
Proof.
  intros [Hm1 Hm2] Hf. unfold still, bind.
  destruct (result (m' c)) as [ex|a]; simpl; [done|].
  rewrite Hm2. destruct (Hf a) as [Hf1 Hf2].
  by rewrite executed_app, Hm1, Hf1.
Qed.

Lemma still_ret {A} (a : A) c : still (@ret V A a) c.
Proof. done. Qed.

Lemma still_raise {A} ex c : still (@raise V A ex) c.
Proof. done. Qed.

Lemma still_log level format args c : still (@log V level format args) c.
Proof. done. Qed.

Lemma still_getitem {A} (d : gmap string A) key c : still (@getitem V A d key) c.
Proof. unfold getitem. by destruct (d !! key). Qed.

Lemma still_allow_schema_modification c :
  still (@_allow_schema_modification V os_getenv) c.
Proof. by destruct (allow_schema_modification_run c) as (_&?&?). Qed.

Lemma bind_quiet {A B} (m' : M A) (f : A -> M B) c a :
  quiet m' c a ->
  result (bind m' f c) = result (f a c) /\
  cluster_after (bind m' f c) = cluster_after (f a c) /\
  executed (emitted (bind m' f c)) = executed (emitted (f a c)).
Proof.
  intros (Hm1&Hm2&Hm3). rewrite (bind_inr _ _ _ _ Hm3), Hm2. simpl.
  by rewrite executed_app, Hm1.
Qed.

Lemma cluster_after_ret {A} (a : A) c : cluster_after (@ret V A a c) = c.
Proof. done. Qed.

(** *** The table, when it is live *)

Lemma update_table_settles c tm0 :
  (exists tm, live_table c m = Some tm /\ table_le tm0 tm) ->
  result (update_table json_loads exec dict_order m tm0 c) = inr tt ->
  let cU := cluster_after (update_table json_loads exec dict_order m tm0 c) in
  cluster_le c cU /\
  (forall name col, (name, col) ∈ _columns m ->
     (primary_key col || partition_key col)%bool = false -> col_live cU col) /\
  options_settled cU.
Proof.
  intros (tmT&HtmT&Hle0) Hr cU. subst cU. revert Hr. unfold update_table.
  match goal with
  | |- context [bind (log ?l ?f ?a) ?k c] =>
      destruct (bind_quiet (log l f a) k c tt (quiet_log _ _ _ _)) as (->&->&_)
  end.
  intros Hr.
  apply bind_inr_inv in Hr as (s&Hadd&Hr&->).
  pose proof (add_columns_safe (_get_non_pk_field_names tm0) (_columns m) ∅
                (fun _ H => H) c) as [_ HcA].
  set (cA := cluster_after (add_columns (_get_non_pk_field_names tm0) (_columns m) ∅ c)) in *.
  match type of Hr with
  | result (bind ?l ?k cA) = _ =>
      assert (quiet l cA tt) as Hl by (case_bool_decide; [apply quiet_log|apply quiet_ret]);
      destruct (bind_quiet l k cA tt Hl) as (Hr'&->&_); rewrite Hr' in Hr; clear Hr' Hl
  end.
  apply bind_inr_inv in Hr as (b&Hupd&_&Hc). rewrite Hc, cluster_after_ret in *.
  pose proof (update_options_grows cA) as HcU.
  split; [by etrans|]. split; [|by eapply update_options_settles].
  intros name col Hin Hpk.
  destruct (add_columns_done _ _ _ _ _ (fun _ H => H) Hadd name col Hin Hpk) as [Hold|Hnew].
  - assert (cluster_le c (cluster_after (_update_options json_loads exec dict_order m cA))) as Hle
      by (by etrans).
    destruct (cluster_le_live_table _ _ _ _ Hle HtmT) as (tmU&HtmU&_&Hsub&_).
    exists tmU. split; [done|]. apply Hsub. destruct Hle0 as (_&Hsub0&_). by apply Hsub0.
  - eapply col_live_le; [apply HcU|done].
Qed.

Lemma update_table_still c tm :
  live_table c m = Some tm ->
  (forall name col, (name, col) ∈ _columns m ->
     (primary_key col || partition_key col)%bool = false ->
     db_field_name col ∈ _get_non_pk_field_names tm) ->
  options_settled c ->
  still (update_table json_loads exec dict_order m tm) c.
Proof.
  intros Htm Hcols Hsettled. unfold update_table.
  apply still_bind; [apply still_log|]. intros _.
  destruct (add_columns_quiet (_get_non_pk_field_names tm) (_columns m) ∅ c Hcols)
    as [s Hs].
  apply still_bind; [by eapply quiet_still|]. intros model_fields.
  apply still_bind; [case_bool_decide; [apply still_log|apply still_ret]|]. intros _.
  apply still_bind; [by eapply update_options_quiet|]. intros _. apply still_ret.
Qed.

(** *** The table, when it is created *)

Lemma create_table_settles c :
  result (create_table exec python m c) = inr tt ->
  let cU := cluster_after (create_table exec python m c) in
  live_table c m = None -> live_table cU m <> None ->
  cluster_le c cU /\
  (forall name col, (name, col) ∈ _columns m ->
     (primary_key col || partition_key col)%bool = false -> col_live cU col) /\
  options_settled cU.
Proof.
  intros Hr cU Hnone Hsome.
  assert (cluster_le c cU) as HcU.
  { assert (safe (sync_statement m) cluster_le (create_table exec python m)) as Hsafe;
      [|apply Hsafe].
    ap safe_create_table; [apply exec_grows|done]. }
  split; [done|]. clear HcU. subst cU. revert Hr Hsome.
  destruct (exec (CreateTable m) c) as [c' [ex|]] eqn:He;
    rewrite (create_table_run _ _ _ _ He); cbn [result cluster_after].
  all: intros _ Hsome;
    destruct (live_table c' m) as [tm|] eqn:Htm; [clear Hsome|done];
    destruct (f_create_table _ _ _ _ cluster_faithful _ _ _ _ He Hnone Htm) as (Hcols&Hopts);
    (split;
     [intros name col Hin Hpk; exists tm; split; [done|]; by eapply Hcols
     |intros tm' eo mo Htm' Heo Hmo; assert (tm' = tm) as -> by congruence;
      by apply Hopts]).
Qed.

(** *** The indexes *)

Abbreviation indexed_columns :=
  ((filter (fun nc : string * Column => index (snd nc) = true) (_columns m)).*2).

(** The loop of [sync_indexes], for the live table [table]. *)
Abbreviation create_indexes table cols :=
  (for_each cols (fun column : Column =>
     if bool_decide (index_name_of (_raw_column_family_name m) column ∈ tm_indexes table)
     then ret tt
     else execute exec
            (CreateIndex (index_name_of (_raw_column_family_name m) column)
               (column_family_name m) (db_field_name column)))).

Lemma sync_indexes_run c tm :
  live_table c m = Some tm ->
  sync_indexes exec m c = create_indexes tm indexed_columns c.
Proof.
  intros (km&Hkm&Htm)%live_table_Some. unfold sync_indexes.
  by rewrite bind_get_metadata, (bind_getitem _ _ _ _ _ Hkm), (bind_getitem _ _ _ _ _ Htm).
Qed.

Lemma sync_indexes_inv c :
  result (sync_indexes exec m c) = inr tt -> live_table c m <> None.
Proof.
  unfold sync_indexes, live_table. rewrite bind_get_metadata.
  destruct (c !! ks) as [km|] eqn:Hkm; [|by rewrite bind_getitem_None].
  rewrite (bind_getitem _ _ _ _ _ Hkm). simpl.
  destruct (tables km !! _raw_column_family_name m) eqn:Htm; [done|].
  by rewrite (bind_getitem_None _ _ _ _ Htm).
Qed.

Lemma create_indexes_settles table cols c tm :
  (forall col, col ∈ cols -> col ∈ indexed_columns) ->
  live_table c m = Some tm -> table_le table tm ->
  result (create_indexes table cols c) = inr tt ->
  exists tm1, live_table (cluster_after (create_indexes table cols c)) m = Some tm1 /\
    table_le tm tm1 /\ tm_option_strings tm1 = tm_option_strings tm /\
    forall col, col ∈ cols ->
      index_name_of (_raw_column_family_name m) col ∈ tm_indexes tm1.
Proof.
  revert c tm. induction cols as [|col0 cols IH]; intros c tm Hsub Htm Hle Hr.
  { exists tm. repeat split; try done. intros col Hcol. inversion Hcol. }
  simpl in Hr |- *.
  apply bind_inr_inv in Hr as ([]&Hbody&Hrest&->).
  assert (forall col, col ∈ cols -> col ∈ indexed_columns) as Hsub'.
  { intros col Hcol. apply Hsub. by right. }
  assert (exists tm', live_table
            (cluster_after
               ((if bool_decide (index_name_of (_raw_column_family_name m) col0
                                 ∈ tm_indexes table)
                 then ret tt
                 else execute exec
                        (CreateIndex (index_name_of (_raw_column_family_name m) col0)
                           (column_family_name m) (db_field_name col0))) c)) m = Some tm' /\
            table_le tm tm' /\ tm_option_strings tm' = tm_option_strings tm /\
            index_name_of (_raw_column_family_name m) col0 ∈ tm_indexes tm')
    as (tm'&Htm'&Hle'&Hopts'&Hidx').
  { case_bool_decide as Hold.
    - exists tm. repeat split; try done. destruct Hle as (_&_&Hidx). by apply Hidx.
    - unfold execute in *.
      destruct (exec _ c) as [c' [ex|]] eqn:He; [done|]. simpl.
      destruct (f_create_index _ _ _ _ cluster_faithful _ _ _ _ He) as (tm'&Htm'&Hin&Hsame).
      exists tm'. split; [done|]. split; [|split; [by apply Hsame|done]].
      assert (cluster_le c c') as Hgrow.
      { replace c' with (exec (CreateIndex (index_name_of (_raw_column_family_name m) col0)
                           (column_family_name m) (db_field_name col0)) c).1
          by (by rewrite He).
        apply exec_grows. simpl. split; [done|].
        assert (col0 ∈ indexed_columns) as Hcol0 by (apply Hsub; by left).
        apply list_elem_of_fmap in Hcol0 as ([name col]&->&Hcol0).
        apply list_elem_of_filter in Hcol0 as [Hidx Hcol0]. simpl in *. eauto 10. }
      destruct (cluster_le_live_table _ _ _ _ Hgrow Htm) as (tm''&Htm''&?).
      congruence. }
  destruct (IH _ tm' Hsub' Htm' (transitivity Hle Hle') Hrest)
    as (tm1&Htm1&Hle1&Hopts1&Hidx1).
  exists tm1. split; [done|]. split; [by etrans|]. split; [congruence|].
  intros col Hcol. apply elem_of_cons in Hcol as [->|Hcol]; [|by apply Hidx1].
  destruct Hle1 as (_&_&Hidx). by apply Hidx.
Qed.

Lemma create_indexes_still table cols c :
  (forall col, col ∈ cols ->
     index_name_of (_raw_column_family_name m) col ∈ tm_indexes table) ->
  still (create_indexes table cols) c.
Proof.
  induction cols as [|col0 cols IH]; intros Hall; simpl; [apply still_ret|].
  apply still_bind.
  - rewrite bool_decide_eq_true_2 by (apply Hall; by left). apply still_ret.
  - intros _. apply IH. intros col Hcol. apply Hall. by right.
Qed.

(** *** The two runs *)

Lemma still_bind_quiet {A B} (m' : M A) (f : A -> M B) c a :
  quiet m' c a -> still (f a) c -> still (bind m' f) c.
Proof.
  intros Hm [Hf1 Hf2]. destruct (bind_quiet m' f c a Hm) as (_&Hc&He).
  unfold still. by rewrite Hc, He.
Qed.

Lemma quiet_allow_schema_modification c :
  quiet (@_allow_schema_modification V os_getenv) c true.
Proof. by destruct (allow_schema_modification_run c) as (?&?&?). Qed.

Abbreviation table_step km :=
  (match tables km !! _raw_column_family_name m with
   | Some table_meta => update_table json_loads exec dict_order m table_meta
   | None => create_table exec python m
   end).

Lemma sync_table_inv c :
  result (sync_table' m c) = inr tt ->
  exists km syncd,
    is_model m = true /\ __abstract__ m = false /\ c !! ks = Some km /\
    result (sync_column_types exec refresh_user_type_metadata ks m c) = inr syncd /\
    result (table_step km
              (cluster_after (sync_column_types exec refresh_user_type_metadata ks m c)))
      = inr tt /\
    result (sync_indexes exec m
              (cluster_after
                 (table_step km
                    (cluster_after
                       (sync_column_types exec refresh_user_type_metadata ks m c)))))
      = inr tt /\
    cluster_after (sync_table' m c) =
    cluster_after
      (sync_indexes exec m
         (cluster_after
            (table_step km
               (cluster_after
                  (sync_column_types exec refresh_user_type_metadata ks m c))))).
Proof.
  unfold sync_table.
  destruct (bind_quiet (_allow_schema_modification os_getenv)
              (fun allowed : bool =>
                 if negb allowed then ret tt
                 else if negb (is_model m)
                 then raise (CQLEngineException "Models must be derived from base Model.")
                 else if __abstract__ m
                 then raise (CQLEngineException "cannot create table from abstract model")
                 else bind get_metadata (fun cluster =>
                        bind (getitem cluster ks) (fun keyspace =>
                          bind (sync_column_types exec refresh_user_type_metadata ks m)
                            (fun _ => bind (table_step keyspace)
                                        (fun _ => sync_indexes exec m)))))
              c true (quiet_allow_schema_modification c)) as (->&->&_).
  cbn [negb].
  destruct (is_model m); [|done]. destruct (__abstract__ m); [done|]. cbn [negb].
  rewrite bind_get_metadata.
  destruct (c !! ks) as [km|] eqn:Hkm; [|by rewrite bind_getitem_None].
  rewrite (bind_getitem _ _ _ _ _ Hkm). intros Hr.
  apply bind_inr_inv in Hr as (syncd&Htypes&Hr&->).
  apply bind_inr_inv in Hr as ([]&Htable&Hidx&->).
  exists km, syncd. repeat split; done.
Qed.

End Faithful.

(** C1 (amended): on a cluster that honours the contract [faithful] for
    the table model, when [sync_table] has returned for the model,
    [sync_table] for the same model on the metadata it left executes no
    statement at all.  The contract: the cluster loses nothing live on a
    statement or a refresh, and leaves the tables as they are on a
    statement about a user type or a refresh; its metadata show the
    effect of every statement it accepts (the type created with its
    declared fields, the field or the column added, the index created
    with the options of the table as before, the options altered so that
    each one named leaves nothing to change and the others are as
    before); and the table that is live after a CREATE TABLE statement
    that found none, accepted or rejected, has the declared columns and
    options that leave nothing to change, which is what the single
    context asked for by the docstring of [sync_table] gives. *)
Theorem sync_table_idempotent (m : Model) (c : Cluster) :
  faithful json_loads exec refresh_user_type_metadata m ->
  result (sync_table' m c) = inr tt ->
  executed (emitted (sync_table' m (cluster_after (sync_table' m c)))) = [].
Proof.
  intros cluster_faithful Hr.
  destruct (sync_table_inv m c Hr)
    as (km&syncd&Hmodel&Habstract&Hkm&Htypes&Htable&Hidx&Hc1).
  set (types := sync_column_types exec refresh_user_type_metadata (_get_keyspace m) m)
    in Htypes, Htable, Hidx, Hc1.
  set (cT := cluster_after (types c)) in Htable, Hidx, Hc1.
  set (cU := cluster_after (_ cT)) in Hidx, Hc1.
  rewrite Hc1. set (c1 := cluster_after (sync_indexes exec m cU)).
  (* the first run: the types, then the table, then the indexes *)
  destruct (settles_sync_column_types m cluster_faithful) as [Hgrow_types Hquiet_types].
  fold types in Hgrow_types, Hquiet_types.
  pose proof (Hgrow_types c) as HcT. fold cT in HcT.
  pose proof (sync_indexes_inv _ _ Hidx) as HliveU.
  assert (cluster_le cT cU /\
          (forall name col, (name, col) ∈ _columns m ->
             (primary_key col || partition_key col)%bool = false ->
             exists tm, live_table cU m = Some tm /\
               db_field_name col ∈ _get_non_pk_field_names tm) /\
          (forall tm eo mo, live_table cU m = Some tm ->
             _options_map_from_strings json_loads (tm_option_strings tm) = inr eo ->
             _options_map_from_strings json_loads (model_option_strings m) = inr mo ->
             options_met eo mo)) as (HcU&Hcols&Hsettled).
  { subst cU. destruct (tables km !! _raw_column_family_name m) as [tm0|] eqn:Htm0.
    - apply (update_table_settles m cluster_faithful); [|done].
      apply (cluster_le_live_table c cT m tm0 HcT).
      unfold live_table. by rewrite Hkm.
    - apply (create_table_settles m cluster_faithful); [done| |done].
      unfold live_table.
      pose proof (types_keep_tables m cluster_faithful c (_get_keyspace m)) as Hsame.
      fold types cT in Hsame. rewrite Hkm in Hsame. simpl in Hsame.
      destruct (cT !! _get_keyspace m) as [kmT|]; [|done]. simpl in *. congruence. }
  assert (exists tmU, live_table cU m = Some tmU) as [tmU HtmU]
    by (destruct (live_table cU m); [eauto|done]).
  rewrite (sync_indexes_run _ _ _ HtmU) in Hidx.
  destruct (create_indexes_settles m cluster_faithful tmU
              ((filter (fun nc : string * Column => index (snd nc) = true) (_columns m)).*2)
              cU tmU (fun _ H => H) HtmU (reflexivity _) Hidx)
    as (tm1&Htm1&Hle1&Hopts1&Hidx1).
  rewrite <- (sync_indexes_run _ _ _ HtmU) in Htm1. fold c1 in Htm1.
  assert (cluster_le cU c1) as Hc1U.
  { assert (safe (sync_statement m) cluster_le (sync_indexes exec m)) as Hsafe;
      [|apply Hsafe].
    apply safe_sync_indexes; try apply _; [apply (exec_grows m cluster_faithful)|done]. }
  (* the second run, on the metadata [c1] that the first has left *)
  destruct (live_table_Some _ _ _ Htm1) as (km1&Hkm1&Htable1).
  assert (still (sync_table' m) c1) as [Hstill _]; [|done].
  unfold sync_table.
  eapply still_bind_quiet; [apply quiet_allow_schema_modification|].
  cbn [negb]. rewrite Hmodel, Habstract. cbn [negb].
  unfold still. rewrite bind_get_metadata, (bind_getitem _ _ _ _ _ Hkm1).
  eapply still_bind_quiet.
  { apply (Hquiet_types c syncd Htypes). fold cT. by etrans. }
  rewrite Htable1.
  apply still_bind.
  - apply update_table_still; [done| |].
    + intros name col Hin Hpk.
      destruct (col_live_le m cU c1 col Hc1U (Hcols name col Hin Hpk)) as (tm&Htm&?).
      congruence.
    + intros tm eo mo Htm Heo Hmo.
      assert (tm = tm1) as -> by congruence. rewrite Hopts1 in Heo.
      by apply (Hsettled tmU).
  - intros _. unfold still. rewrite (sync_indexes_run _ _ _ Htm1).
    apply create_indexes_still. intros col Hcol. by apply Hidx1.
Qed.

(** * The other operations *)

(** ** The environment variable *)

Lemma allow_any_run (getenv : string -> option string) c :
  let r := @_allow_schema_modification V getenv c in
  result r = inr true /\ cluster_after r = c /\ executed (emitted r) = [].
Proof. unfold _allow_schema_modification. by destruct (getenv _) as [[|]|]. Qed.

Lemma bind_allow {B} (getenv : string -> option string) (k : bool -> M B) c :
  same_outcome (bind (_allow_schema_modification getenv) k c) (k true c).
Proof.
  destruct (allow_any_run getenv c) as (Hr&Hc&He).
  unfold same_outcome. rewrite (bind_inr _ _ _ _ Hr), Hc. simpl.
  by rewrite executed_app, He.
Qed.

Lemma same_outcome_trans {A} (r1 r2 r3 : @run V A) :
  same_outcome r1 r2 -> same_outcome r3 r2 -> same_outcome r1 r3.
Proof. intros (?&?&?) (?&?&?). repeat split; congruence. Qed.

(** Step over the call of [_allow_schema_modification]. *)
Ltac pass_gate :=
  match goal with
  | |- context [bind (_allow_schema_modification ?g) ?k ?c] =>
      destruct (bind_allow g k c) as (->&->&->)
  end; cbn [negb].

(** X1: [_allow_schema_modification] returns [True] whether the variable
    CQLENG_ALLOW_SCHEMA_MANAGEMENT is set or not, so that the variable
    gates nothing: under any two environments, each operation executes
    the same statements, leaves the same metadata and ends the same way. *)
Theorem schema_management_not_gated (getenv getenv' : string -> option string) c :
  (forall m, same_outcome
     (sync_table json_loads exec refresh_user_type_metadata getenv python dict_order m c)
     (sync_table json_loads exec refresh_user_type_metadata getenv' python dict_order m c)) /\
  (forall ks_name t, same_outcome
     (sync_type exec refresh_user_type_metadata getenv ks_name t c)
     (sync_type exec refresh_user_type_metadata getenv' ks_name t c)) /\
  (forall m, same_outcome (drop_table exec getenv m c) (drop_table exec getenv' m c)) /\
  (forall name, same_outcome
     (drop_keyspace exec getenv name c) (drop_keyspace exec getenv' name c)) /\
  (forall name durable_writes strategy_class strategy_options, same_outcome
     (_create_keyspace exec getenv name durable_writes strategy_class strategy_options c)
     (_create_keyspace exec getenv' name durable_writes strategy_class strategy_options c)).
Proof.
  repeat split; intros;
    (eapply same_outcome_trans; [apply bind_allow|apply bind_allow]).
Qed.

(** ** Keyspaces *)

(** X2: [_create_keyspace], behind [create_keyspace_simple] and
    [create_keyspace_network_topology]: a keyspace that the metadata list
    is left as it is, whatever replication is asked for; one that they do
    not list is created by one statement, whose failure reaches the
    caller. *)
Theorem create_keyspace_runs name durable_writes strategy_class strategy_options c :
  let r := _create_keyspace exec os_getenv name durable_writes strategy_class
             strategy_options c in
  let s := CreateKeyspace name durable_writes strategy_class strategy_options in
  if decide (name ∈ dom c) then
    executed (emitted r) = [] /\ cluster_after r = c /\ result r = inr tt
  else
    executed (emitted r) = [s] /\ cluster_after r = (exec s c).1 /\
    result r = match (exec s c).2 with Some ex => inl ex | None => inr tt end.
Proof.
  intros r s. subst r s.
  unfold _create_keyspace. pass_gate.
  rewrite bind_get_metadata.
  destruct (decide (name ∈ dom c)) as [Hin|Hin].
  - rewrite bool_decide_eq_false_2 by (intros Hn; by apply Hn). done.
  - rewrite bool_decide_eq_true_2 by done.
    unfold log. rewrite bind_emit. unfold execute. simpl.
    by destruct (exec _ c) as [c' [ex|]].
Qed.

(** X3: [drop_keyspace]: a keyspace that the metadata do not list is not an
    error, nothing is executed; one that they list is dropped by one
    statement. *)
Theorem drop_keyspace_runs name c :
  let r := drop_keyspace exec os_getenv name c in
  let s := DropKeyspace name in
  if decide (name ∈ dom c) then
    executed (emitted r) = [s] /\ cluster_after r = (exec s c).1 /\
    result r = match (exec s c).2 with Some ex => inl ex | None => inr tt end
  else executed (emitted r) = [] /\ cluster_after r = c /\ result r = inr tt.
Proof.
  intros r s. subst r s.
  unfold drop_keyspace. pass_gate.
  rewrite bind_get_metadata.
  destruct (decide (name ∈ dom c)) as [Hin|Hin].
  - rewrite bool_decide_eq_true_2 by done. unfold execute. simpl.
    by destruct (exec _ c) as [c' [ex|]].
  - by rewrite bool_decide_eq_false_2.
Qed.

(** ** Dropping a table *)

(** X4: [drop_table]: when the metadata do not list the keyspace or the
    table, nothing is executed and the call returns; otherwise one DROP
    TABLE is executed, and a [KeyError] that the executor raises is
    swallowed like the one of the lookup, any other failure reaching the
    caller. *)
Theorem drop_table_runs (m : Model) c :
  let r := drop_table exec os_getenv m c in
  let s := DropTable (column_family_name m) in
  match live_table c m with
  | None => executed (emitted r) = [] /\ cluster_after r = c /\ result r = inr tt
  | Some _ =>
      executed (emitted r) = [s] /\ cluster_after r = (exec s c).1 /\
      result r = match (exec s c).2 with
                 | None | Some (KeyError _) | Some (InvalidTableOption _ _) => inr tt
                 | Some ex => inl ex
                 end
  end.
Proof.
  intros r s. subst r s.
  unfold drop_table. pass_gate.
  rewrite bind_get_metadata. unfold live_table, try_except.
  destruct (c !! _get_keyspace m) as [km|] eqn:Hkm; simpl.
  2:{ by rewrite bind_getitem_None. }
  rewrite (bind_getitem _ _ _ _ _ Hkm).
  destruct (tables km !! _raw_column_family_name m) as [tm|] eqn:Htm.
  2:{ by rewrite bind_getitem_None. }
  rewrite (bind_getitem _ _ _ _ _ Htm). unfold execute.
  destruct (exec _ c) as [c' [ex|]]; simpl; [|done].
  destruct ex; simpl; rewrite ?app_nil_r; done.
Qed.

(** ** The entry of [sync_table] *)

(** X5: [sync_table] refuses a class that is not a model, then an abstract
    model, then a keyspace that the metadata do not list (a [KeyError]):
    in that order, before anything is executed. *)
Theorem sync_table_entry_errors (m : Model) c :
  is_model m = false \/ __abstract__ m = true \/ c !! _get_keyspace m = None ->
  let r := sync_table' m c in
  executed (emitted r) = [] /\ cluster_after r = c /\
  result r =
    inl (if negb (is_model m) then
           CQLEngineException "Models must be derived from base Model."
         else if __abstract__ m then
           CQLEngineException "cannot create table from abstract model"
         else KeyError (_get_keyspace m)).
Proof.
  intros Hbad r. subst r.
  unfold sync_table. pass_gate.
  destruct (is_model m); cbn [negb]; [|done].
  destruct (__abstract__ m); [done|].
  destruct Hbad as [?|[?|Hks]]; try done.
  cbv zeta. rewrite bind_get_metadata. by rewrite bind_getitem_None.
Qed.

(** ** The two branches of [sync_table] *)

Ltac ap lem := apply lem; try apply _.

Section Branches.

Variable Ps : @stmt V -> Prop.
Hypothesis Ps_types : forall s, type_statement s -> Ps s.
Hypothesis Ps_index : forall index_name cf_name field_name,
  Ps (CreateIndex index_name cf_name field_name).

Abbreviation anyhow := (fun _ _ : Cluster => True).

Lemma safe_update_table_by (m : Model) (tm : TableMetadata) :
  (forall name col, (name, col) ∈ _columns m ->
     (primary_key col || partition_key col)%bool = false ->
     db_field_name col ∉ _get_non_pk_field_names tm ->
     Ps (AlterTableAdd (column_family_name m) col)) ->
  (forall d, d <> ∅ -> Ps (AlterTableWith (column_family_name m) d)) ->
  safe Ps anyhow (update_table json_loads exec dict_order m tm).
Proof.
  intros Hadd Hwith. unfold update_table.
  ap safe_bind; [ap safe_log|]. intros _.
  ap safe_bind.
  { ap safe_fold_each. intros [name col] s Hin.
    destruct (primary_key col || partition_key col)%bool eqn:Hpk; [ap safe_ret|].
    case_bool_decide; [ap safe_ret|].
    ap safe_bind; [|intros; ap safe_ret].
    ap safe_execute; [done|]. by eapply Hadd. }
  intros model_fields.
  ap safe_bind; [case_bool_decide; [ap safe_log|ap safe_ret]|]. intros _.
  ap safe_bind; [|intros; ap safe_ret].
  unfold _update_options.
  ap safe_bind; [ap safe_log|]. intros _.
  ap safe_bind.
  { unfold _get_table_metadata.
    ap safe_bind; [ap safe_get_metadata|]. intros cluster.
    ap safe_bind; [ap safe_getitem|]. intros keyspace. ap safe_getitem. }
  intros table_meta.
  ap safe_bind; [ap safe_lift|]. intros existing_options.
  ap safe_bind; [ap safe_lift|]. intros model_options.
  ap safe_bind; [ap safe_lift|]. intros update_options.
  case_bool_decide; [|ap safe_ret].
  ap safe_bind; [|intros; ap safe_ret].
  ap safe_execute; [done|]. by apply Hwith.
Qed.

Lemma sync_table_by_branch (m : Model) c :
  match live_table c m with
  | None => Ps (CreateTable m)
  | Some tm => safe Ps anyhow (update_table json_loads exec dict_order m tm)
  end ->
  Forall Ps (executed (emitted (sync_table' m c))).
Proof.
  intros Hbranch. unfold sync_table.
  match goal with
  | |- context [bind (_allow_schema_modification ?g) ?k ?c] =>
      destruct (bind_allow g k c) as (->&_&_)
  end; cbn [negb].
  destruct (negb (is_model m)); [constructor|].
  destruct (__abstract__ m); [constructor|].
  cbv zeta. rewrite bind_get_metadata. unfold live_table in Hbranch.
  destruct (c !! _get_keyspace m) as [km|] eqn:Hkm.
  2:{ rewrite bind_getitem_None by done. constructor. }
  rewrite (bind_getitem _ _ _ _ _ Hkm). simpl in Hbranch.
  match goal with
  | |- Forall _ (executed (emitted (?f c))) =>
      assert (safe Ps anyhow f) as Hsafe; [|apply Hsafe]
  end.
  ap safe_bind.
  { unfold sync_column_types. ap safe_fold_each. intros col s _.
    ap safe_fold_each. intros udt s' _.
    ap safe_sync_type; try done; intros; by apply Ps_types. }
  intros _. ap safe_bind.
  { destruct (tables km !! _raw_column_family_name m) as [tm|]; [done|].
    unfold create_table.
    ap safe_bind; [ap safe_log|]. intros _.
    ap safe_try_except; [by ap safe_execute|].
    intros ex. destruct ex; try ap safe_raise.
    ap safe_bind; [unfold unicode; destruct python; [ap safe_ret|ap safe_raise]|].
    intros text. destruct (negb _); [ap safe_raise|ap safe_ret]. }
  intros _. unfold sync_indexes.
  ap safe_bind; [ap safe_get_metadata|]. intros cluster.
  ap safe_bind; [ap safe_getitem|]. intros keyspace.
  ap safe_bind; [ap safe_getitem|]. intros table.
  ap safe_for_each. intros column Hin.
  case_bool_decide; [ap safe_ret|]. by ap safe_execute.
Qed.

End Branches.

(** X6: [sync_table] decides once, on the metadata it reads at its entry,
    whether the table is created or altered: on a table that is not
    listed it executes no ALTER TABLE, on a table that is listed no
    CREATE TABLE. *)
Theorem sync_table_creates_or_alters (m : Model) c :
  Forall (fun s => match live_table c m with
                   | Some _ => ~ creates_table s
                   | None => ~ alters_table s
                   end)
    (executed (emitted (sync_table' m c))).
Proof.
  apply sync_table_by_branch.
  - intros s Hs. destruct s; simpl in Hs; try contradiction;
      destruct (live_table c m); intros [].
  - intros. destruct (live_table c m); intros [].
  - destruct (live_table c m) as [tm|] eqn:Htm; [|intros []].
    apply safe_update_table_by; intros; intros [].
Qed.

(** X7: On a table that the metadata list, [sync_table] adds no column whose
    name is among the live columns outside the primary key, and alters
    the options with a non-empty set of options only. *)
Theorem sync_table_adds_missing_columns_only (m : Model) c tm :
  live_table c m = Some tm ->
  Forall (fun s =>
            match s with
            | AlterTableAdd _ col => db_field_name col ∉ _get_non_pk_field_names tm
            | AlterTableWith _ update_options => update_options <> ∅
            | _ => True
            end)
    (executed (emitted (sync_table' m c))).
Proof.
  intros Htm. apply sync_table_by_branch.
  - intros s Hs. by destruct s.
  - done.
  - rewrite Htm. by apply safe_update_table_by.
Qed.

(** ** The steps of [sync_table] *)

Lemma same_outcome_sym {A} (r r' : @run V A) : same_outcome r r' -> same_outcome r' r.
Proof. intros (?&?&?). by repeat split. Qed.

Lemma executed_bind_l {A B} (m : M A) (f : A -> M B) c s :
  s ∈ executed (emitted (m c)) -> s ∈ executed (emitted (bind m f c)).
Proof.
  intros Hs. unfold bind. destruct (result (m c)); simpl; [done|].
  rewrite executed_app. apply elem_of_app. by left.
Qed.

Lemma executed_bind_r {A B} (m : M A) (f : A -> M B) c a s :
  result (m c) = inr a ->
  s ∈ executed (emitted (f a (cluster_after (m c)))) ->
  s ∈ executed (emitted (bind m f c)).
Proof.
  intros Hr Hs. rewrite (bind_inr _ _ _ _ Hr). simpl.
  rewrite executed_app. apply elem_of_app. by right.
Qed.

(** What [sync_table] does once its entry checks are passed. *)
Abbreviation table_steps m km :=
  (bind (sync_column_types exec refresh_user_type_metadata (_get_keyspace m) m)
     (fun _ =>
        bind (match tables km !! _raw_column_family_name m with
              | None => create_table exec python m
              | Some table_meta => update_table json_loads exec dict_order m table_meta
              end)
          (fun _ => sync_indexes exec m))).

Lemma sync_table_steps (m : Model) c km :
  is_model m = true -> __abstract__ m = false -> c !! _get_keyspace m = Some km ->
  same_outcome (sync_table' m c) (table_steps m km c).
Proof.
  intros Hmodel Habstract Hkm. unfold sync_table.
  eapply same_outcome_trans; [apply bind_allow|]. cbn [negb].
  rewrite Hmodel, Habstract. cbn [negb]. cbv zeta.
  rewrite bind_get_metadata, (bind_getitem _ _ _ _ _ Hkm). by repeat split.
Qed.

Lemma sync_table_returns (m : Model) c :
  result (sync_table' m c) = inr tt ->
  is_model m = true /\ __abstract__ m = false /\
  exists km, c !! _get_keyspace m = Some km.
Proof.
  unfold sync_table.
  match goal with
  | |- context [bind (_allow_schema_modification ?g) ?k ?c] =>
      destruct (bind_allow g k c) as (_&_&->)
  end; cbn [negb].
  destruct (is_model m); cbn [negb]; [|done].
  destruct (__abstract__ m); [done|].
  cbv zeta. rewrite bind_get_metadata.
  destruct (c !! _get_keyspace m) as [km|] eqn:Hkm; [eauto|].
  by rewrite bind_getitem_None.
Qed.

(** The loop of [update_table] over the columns of the model. *)
Abbreviation add_missing_columns m field_names cols start :=
  (fold_each cols start (fun '(name, col) (model_fields : gset string) =>
     if (primary_key col || partition_key col)%bool then ret model_fields
     else
       let model_fields := {[name]} ∪ model_fields in
       if bool_decide (db_field_name col ∈ field_names) then ret model_fields
       else
         bind (execute exec (AlterTableAdd (column_family_name m) col))
           (fun _ => ret model_fields))).

Lemma add_missing_columns_all (m : Model) (field_names : list string) cols start c s :
  result (add_missing_columns m field_names cols start c) = inr s ->
  forall name col, (name, col) ∈ cols ->
    (primary_key col || partition_key col)%bool = false ->
    db_field_name col ∉ field_names ->
    AlterTableAdd (column_family_name m) col
      ∈ executed (emitted (add_missing_columns m field_names cols start c)).
Proof.
  revert start c. induction cols as [|[n0 c0] cols IH]; intros start c Hr name col Hin Hpk Hnew.
  { inversion Hin. }
  simpl in Hr |- *.
  apply elem_of_cons in Hin as [[= -> ->]|Hin].
  - apply executed_bind_l. rewrite Hpk, bool_decide_eq_false_2 by done.
    apply executed_bind_l. unfold execute. destruct (exec _ c) as [c' r]. simpl. by left.
  - apply bind_inr_inv in Hr as (s'&Hbody&Hrest&_).
    eapply executed_bind_r; [exact Hbody|]. by eapply IH.
Qed.

(** X8: When [sync_table] returns on a table that the metadata list, it has
    executed an ALTER TABLE ... add for every column of the model
    outside the primary key whose name is not among the live columns
    outside the primary key. *)
Theorem sync_table_adds_every_missing_column (m : Model) c tm name col :
  live_table c m = Some tm ->
  result (sync_table' m c) = inr tt ->
  (name, col) ∈ _columns m ->
  (primary_key col || partition_key col)%bool = false ->
  db_field_name col ∉ _get_non_pk_field_names tm ->
  AlterTableAdd (column_family_name m) col ∈ executed (emitted (sync_table' m c)).
Proof.
  intros Htm Hr Hin Hpk Hnew.
  destruct (sync_table_returns _ _ Hr) as (Hmodel&Habstract&km&Hkm).
  destruct (sync_table_steps m c km Hmodel Habstract Hkm) as (->&_&Hsame).
  rewrite Hsame in Hr.
  unfold live_table in Htm. rewrite Hkm in Htm. simpl in Htm. rewrite Htm in Hr |- *.
  apply bind_inr_inv in Hr as (syncd&Htypes&Hr&_).
  eapply executed_bind_r; [exact Htypes|].
  apply executed_bind_l.
  apply bind_inr_inv in Hr as ([]&Hupdate&_&_).
  unfold update_table in Hupdate |- *. unfold log in Hupdate |- *.
  rewrite bind_emit in Hupdate |- *. simpl in Hupdate |- *.
  apply bind_inr_inv in Hupdate as (model_fields&Hloop&_&_).
  apply executed_bind_l. by eapply add_missing_columns_all.
Qed.

(** X9: When CREATE TABLE has succeeded, or has failed on Python 2 with
    the message that is swallowed there, [sync_table] reads the table
    from the metadata again: if they do not list it then, the call ends
    in a [KeyError] and no index is created. *)
Theorem sync_table_needs_listed_table (m : Model) c km syncd c' outcome :
  let types := sync_column_types exec refresh_user_type_metadata (_get_keyspace m) m c in
  let r := sync_table' m c in
  is_model m = true -> __abstract__ m = false ->
  c !! _get_keyspace m = Some km ->
  tables km !! _raw_column_family_name m = None ->
  result types = inr syncd ->
  exec (CreateTable m) (cluster_after types) = (c', outcome) ->
  match outcome with
  | None => True
  | Some (CQLEngineException message) =>
      python = Python2 /\
      PyStr.contains already_exists_message message = true
  | Some _ => False
  end ->
  live_table c' m = None ->
  result r = inl (KeyError (match c' !! _get_keyspace m with
                            | Some _ => _raw_column_family_name m
                            | None => _get_keyspace m
                            end)) /\
  cluster_after r = c' /\
  executed (emitted r) = (executed (emitted types) ++ [CreateTable m])%list.
Proof.
  intros types r Hmodel Habstract Hkm Htable Htypes Hexec Hok Hlive.
  destruct (sync_table_steps m c km Hmodel Habstract Hkm) as (He&Hc&Hr).
  subst r. rewrite He, Hc, Hr. clear He Hc Hr. rewrite Htable.
  assert (create_table exec python m (cluster_after types) =
          mkRun [Logged Debug "sync_table creating new table %s" [column_family_name m];
                 Executed (CreateTable m)] c' (inr tt)) as Hcreate.
  { rewrite (create_table_run _ _ _ _ Hexec).
    destruct outcome as [[message| | | | | | |]|]; try done.
    destruct Hok as [-> ->]. done. }
  assert (sync_indexes exec m c' =
          mkRun [] c' (inl (KeyError (match c' !! _get_keyspace m with
                                      | Some _ => _raw_column_family_name m
                                      | None => _get_keyspace m
                                      end)))) as Hindexes.
  { unfold sync_indexes. rewrite bind_get_metadata. unfold live_table in Hlive.
    destruct (c' !! _get_keyspace m) as [km'|] eqn:Hkm'.
    - rewrite (bind_getitem _ _ _ _ _ Hkm'). simpl in Hlive.
      by rewrite bind_getitem_None.
    - by rewrite bind_getitem_None. }
  revert Htypes Hcreate. subst types.
  generalize (sync_column_types exec refresh_user_type_metadata (_get_keyspace m) m).
  intros types Htypes Hcreate.
  rewrite (bind_inr _ _ _ _ Htypes). cbn [result emitted cluster_after].
  unfold bind at 1 2 3. rewrite Hcreate. cbn [result emitted cluster_after].
  rewrite Hindexes. cbn [result emitted cluster_after].
  rewrite !executed_app. simpl. rewrite ?app_nil_r. done.
Qed.

(** ** User types: a keyspace that is not listed *)

Lemma sync_udts_no_keyspace (rec : UserType -> option (gset nat) -> M (gset nat))
    ks_name c us :
  Forall (fun u => forall o, rec u o c = mkRun [] c (inl (KeyError ks_name))) us ->
  forall snapshot s,
    sync_udts rec us snapshot s c = mkRun [] c (inl (KeyError ks_name)) \/
    exists s', sync_udts rec us snapshot s c = mkRun [] c (inr s').
Proof.
  induction 1 as [|u us Hu _ IH]; intros snapshot s; simpl; [right; by eexists|].
  case_bool_decide; [apply IH|].
  left. unfold bind. by rewrite Hu.
Qed.

Lemma sync_subtypes_no_keyspace (rec : UserType -> option (gset nat) -> M (gset nat))
    ks_name c fields :
  Forall (fun f => Forall (fun u => forall o,
            rec u o c = mkRun [] c (inl (KeyError ks_name))) (udts f)) fields ->
  forall s,
    sync_subtypes rec fields s c = mkRun [] c (inl (KeyError ks_name)) \/
    exists s', sync_subtypes rec fields s c = mkRun [] c (inr s').
Proof.
  induction 1 as [|f fs Hf _ IH]; intros s; simpl; [right; by eexists|].
  destruct (sync_udts_no_keyspace rec ks_name c (udts f) Hf s s) as [Hfail|[s' Hs']].
  - left. unfold bind. by rewrite Hfail.
  - rewrite (bind_run _ _ _ _ _ _ Hs'). simpl.
    destruct (IH s') as [->|[s'' ->]]; [by left|right; by eexists].
Qed.

Lemma sync_one_type_no_keyspace ks_name c t :
  c !! ks_name = None ->
  sync_one_type' ks_name t c = mkRun [] c (inl (KeyError ks_name)).
Proof.
  intros Hks. unfold sync_one_type. rewrite bind_get_metadata.
  by rewrite bind_getitem_None.
Qed.

Lemma sync_type_no_keyspace ks_name c t :
  c !! ks_name = None ->
  forall o, _sync_type' ks_name t o c = mkRun [] c (inl (KeyError ks_name)).
Proof.
  intros Hks. induction t as [t IH] using UserType_nested_ind. intros o.
  rewrite sync_type_unfold.
  destruct (sync_subtypes_no_keyspace (_sync_type' ks_name) ks_name c (_fields t) IH
              (default ∅ o)) as [Hfail|[s' Hs']].
  - unfold bind. by rewrite Hfail.
  - rewrite (bind_run _ _ _ _ _ _ Hs').
    unfold bind. by rewrite (sync_one_type_no_keyspace _ _ _ Hks).
Qed.

(** X10: In a keyspace that the metadata do not list, [sync_type] ends in a
    [KeyError] for the keyspace before anything is executed, however the
    user type is nested. *)
Theorem sync_type_missing_keyspace ks_name (t : UserType) c :
  c !! ks_name = None ->
  let r := sync_type exec refresh_user_type_metadata os_getenv ks_name t c in
  executed (emitted r) = [] /\ cluster_after r = c /\ result r = inl (KeyError ks_name).
Proof.
  intros Hks r. subst r. unfold sync_type. pass_gate.
  unfold bind. by rewrite (sync_type_no_keyspace _ _ _ Hks).
Qed.

(** ** User types that are live already *)

Lemma reachable_nested_r t u f v :
  reachable t u -> f ∈ _fields u -> v ∈ udts f -> reachable t v.
Proof.
  induction 1 as [t|t f' u' w Hf' Hu' _ IH]; intros Hf Hv.
  - eapply reachable_nested; [done..|apply reachable_self].
  - eapply reachable_nested; [done..|]. by apply IH.
Qed.

Lemma reachable_trans t u v : reachable t u -> reachable u v -> reachable t v.
Proof.
  induction 1 as [t|t f u' w Hf Hu' _ IH]; [done|].
  intros Hv. eapply reachable_nested; [done..|]. by apply IH.
Qed.

Lemma quiet_fold_fields ks_name (t : UserType) (defined_fields : list string) fields
    (model_fields : gset string) c :
  (forall f, f ∈ fields -> db_field_name f ∈ defined_fields) ->
  exists s,
    quiet (fold_each fields model_fields (fun field (model_fields : gset string) =>
             let model_fields := {[db_field_name field]} ∪ model_fields in
             if bool_decide (db_field_name field ∉ defined_fields) then
               bind (execute exec (AlterTypeAdd ks_name (type_name t) field))
                 (fun _ => ret model_fields)
             else ret model_fields)) c s.
Proof.
  revert model_fields. induction fields as [|f0 fields IH]; intros mf Hall.
  { eexists. apply quiet_ret. }
  simpl.
  rewrite bool_decide_eq_false_2 by (intros Hn; apply Hn, Hall; by left).
  destruct (IH ({[db_field_name f0]} ∪ mf)) as [s Hs].
  { intros f Hf. apply Hall. by right. }
  exists s. eapply quiet_bind; [apply quiet_ret|done].
Qed.

Lemma sync_one_type_quiet_at ks_name c t :
  type_defined c ks_name t -> quiet (sync_one_type' ks_name t) c tt.
Proof.
  intros (km&fns&Hkm&Hfns&Hall). unfold sync_one_type.
  unfold quiet. rewrite bind_get_metadata, (bind_getitem _ _ _ _ _ Hkm), Hfns.
  destruct (quiet_fold_fields ks_name t fns (_fields t) ∅ c Hall) as [s Hs].
  eapply quiet_bind; [exact Hs|].
  eapply quiet_bind; [by apply quiet_emit|].
  repeat case_bool_decide; try done; apply quiet_ret.
Qed.

Lemma quiet_sync_udts (rec : UserType -> option (gset nat) -> M (gset nat)) c us :
  Forall (fun u => forall o, exists s, quiet (rec u o) c s) us ->
  forall snapshot s, exists s', quiet (sync_udts rec us snapshot s) c s'.
Proof.
  induction 1 as [|u us Hu _ IH]; intros snapshot s; simpl.
  { eexists. apply quiet_ret. }
  case_bool_decide; [apply IH|].
  destruct (Hu (Some s)) as [s1 Hs1].
  destruct (IH snapshot ({[class_id u]} ∪ s1)) as [s2 Hs2].
  exists s2. by eapply quiet_bind.
Qed.

Lemma quiet_sync_subtypes (rec : UserType -> option (gset nat) -> M (gset nat)) c fields :
  Forall (fun f => Forall (fun u => forall o, exists s, quiet (rec u o) c s) (udts f))
    fields ->
  forall s, exists s', quiet (sync_subtypes rec fields s) c s'.
Proof.
  induction 1 as [|f fs Hf _ IH]; intros s; simpl.
  { eexists. apply quiet_ret. }
  destruct (quiet_sync_udts rec c (udts f) Hf s s) as [s1 Hs1].
  destruct (IH s1) as [s2 Hs2].
  exists s2. by eapply quiet_bind.
Qed.

Lemma quiet_sync_type ks_name c t :
  all_defined c ks_name t ->
  forall o, exists s, quiet (_sync_type' ks_name t o) c s.
Proof.
  induction t as [t IH] using UserType_nested_ind. intros Hall o.
  rewrite sync_type_unfold.
  destruct (quiet_sync_subtypes (_sync_type' ks_name) c (_fields t)) with (s := default ∅ o)
    as [s1 Hs1].
  { rewrite Forall_forall in IH |- *. intros f Hf.
    specialize (IH f Hf). rewrite Forall_forall in IH |- *. intros u Hu.
    apply IH; [done|]. intros v Hv. apply Hall.
    by eapply reachable_nested. }
  eexists. eapply quiet_bind; [exact Hs1|].
  eapply quiet_bind; [apply sync_one_type_quiet_at, Hall, reachable_self|].
  apply quiet_ret.
Qed.

(** X11: When the user type and every user type nested in it are live with
    all their declared fields, [sync_type] executes nothing, leaves the
    metadata as they are and returns. *)
Theorem sync_type_defined_is_quiet ks_name (t : UserType) c :
  all_defined c ks_name t ->
  let r := sync_type exec refresh_user_type_metadata os_getenv ks_name t c in
  executed (emitted r) = [] /\ cluster_after r = c /\ result r = inr tt.
Proof.
  intros Hall r. subst r. unfold sync_type. pass_gate.
  destruct (quiet_sync_type ks_name c t Hall None) as [s Hs].
  apply (quiet_bind _ _ _ _ _ Hs). apply quiet_ret.
Qed.

(** ** User types: what a run registers *)

Lemma emitted_bind_l {A B} (m : M A) (f : A -> M B) c e :
  e ∈ emitted (m c) -> e ∈ emitted (bind m f c).
Proof.
  intros He. unfold bind. destruct (result (m c)); simpl; [done|].
  apply elem_of_app. by left.
Qed.

Lemma emitted_bind_r {A B} (m : M A) (f : A -> M B) c a e :
  result (m c) = inr a ->
  e ∈ emitted (f a (cluster_after (m c))) ->
  e ∈ emitted (bind m f c).
Proof.
  intros Hr He. rewrite (bind_inr _ _ _ _ Hr). simpl.
  apply elem_of_app. by right.
Qed.

Lemma emitted_bind {A B} (m : M A) (f : A -> M B) c a :
  result (m c) = inr a ->
  emitted (bind m f c) = (emitted (m c) ++ emitted (f a (cluster_after (m c))))%list.
Proof. intros Hr. by rewrite (bind_inr _ _ _ _ Hr). Qed.

(** A call of lines 235 to 265 that returns has registered the type. *)
Lemma sync_one_type_registers ks_name t c :
  result (sync_one_type' ks_name t c) = inr tt ->
  Registered ks_name (class_id t) ∈ emitted (sync_one_type' ks_name t c).
Proof.
  unfold sync_one_type. rewrite bind_get_metadata.
  destruct (c !! ks_name) as [km|] eqn:Hkm; [|by rewrite bind_getitem_None].
  rewrite (bind_getitem _ _ _ _ _ Hkm).
  destruct (user_types km !! type_name t) as [fns|] eqn:Hfns.
  - intros Hr. apply bind_inr_inv in Hr as (s&Hadd&_&_).
    eapply emitted_bind_r; [exact Hadd|]. rewrite bind_emit. simpl. by left.
  - unfold log. rewrite bind_emit. intros Hr; simpl in Hr.
    apply bind_inr_inv in Hr as ([]&Hexec&_&_). simpl. right.
    eapply emitted_bind_r; [exact Hexec|]. simpl. right. by left.
Qed.

Section Registration.

Variable ks_name : string.

(** The user types at hand; a class is one Python object, so that two of
    them with the same identity are the same. *)
Variable known : UserType -> Prop.
Hypothesis known_nested : forall t f u,
  known t -> f ∈ _fields t -> u ∈ udts f -> known u.
Hypothesis known_identity : forall u v,
  known u -> known v -> class_id u = class_id v -> u = v.

Lemma covered_app (es es' : list (@event V)) t :
  covered ks_name es t -> covered ks_name (es ++ es') t.
Proof. intros Hc v Hv. apply elem_of_app. left. by apply Hc. Qed.

Lemma done_with_app s (es es' : list (@event V)) :
  done_with ks_name known s es -> done_with ks_name known s (es ++ es').
Proof. intros Hd u Hu Hs. by apply covered_app, Hd. Qed.

(** What is shown of one call of [_sync_type]. *)
Abbreviation registers := (fun t : UserType =>
  known t ->
  forall o c es s',
    done_with ks_name known (default ∅ o) es ->
    result (_sync_type' ks_name t o c) = inr s' ->
    covered ks_name (es ++ emitted (_sync_type' ks_name t o c)) t /\
    done_with ks_name known s' (es ++ emitted (_sync_type' ks_name t o c))).

Lemma sync_udts_registers us :
  Forall registers us -> (forall u, u ∈ us -> known u) ->
  forall snapshot s c es s',
    done_with ks_name known snapshot es -> done_with ks_name known s es ->
    result (sync_udts (_sync_type' ks_name) us snapshot s c) = inr s' ->
    let es' := (es ++ emitted (sync_udts (_sync_type' ks_name) us snapshot s c))%list in
    done_with ks_name known s' es' /\ forall u, u ∈ us -> covered ks_name es' u.
Proof.
  induction 1 as [|u us Hu _ IH]; intros Hknown snapshot s c es s' Hsnap Hs Hr; simpl in *.
  { injection Hr as <-. rewrite app_nil_r. split; [done|]. intros u Hu. inversion Hu. }
  assert (known u) as Hku by (apply Hknown; by left).
  assert (forall v, v ∈ us -> known v) as Hknown' by (intros v Hv; apply Hknown; by right).
  case_bool_decide as Hskip.
  - destruct (IH Hknown' _ _ _ _ _ Hsnap Hs Hr) as [Hd Hc]. split; [done|].
    intros v Hv. apply elem_of_cons in Hv as [->|Hv]; [|by apply Hc].
    by apply covered_app, Hsnap.
  - apply bind_inr_inv in Hr as (s1&Hr1&Hr2&_).
    rewrite (emitted_bind _ _ _ _ Hr1), app_assoc.
    destruct (Hu Hku (Some s) c es s1 Hs Hr1) as [Hcu Hd1].
    set (es1 := (es ++ emitted (_sync_type' ks_name u (Some s) c))%list) in *.
    assert (done_with ks_name known ({[class_id u]} ∪ s1) es1) as Hd2.
    { intros w Hw Hin. apply elem_of_union in Hin as [Hin|Hin]; [|by apply Hd1].
      apply elem_of_singleton in Hin.
      by rewrite (known_identity w u Hw Hku Hin). }
    destruct (IH Hknown' snapshot _ _ es1 s' (done_with_app _ _ _ Hsnap) Hd2 Hr2)
      as [Hd Hc].
    split; [done|].
    intros v Hv. apply elem_of_cons in Hv as [->|Hv]; [|by apply Hc].
    by apply covered_app.
Qed.

Lemma sync_subtypes_registers fields :
  Forall (fun f => Forall registers (udts f)) fields ->
  (forall f u, f ∈ fields -> u ∈ udts f -> known u) ->
  forall s c es s',
    done_with ks_name known s es ->
    result (sync_subtypes (_sync_type' ks_name) fields s c) = inr s' ->
    let es' := (es ++ emitted (sync_subtypes (_sync_type' ks_name) fields s c))%list in
    done_with ks_name known s' es' /\
    forall f u, f ∈ fields -> u ∈ udts f -> covered ks_name es' u.
Proof.
  induction 1 as [|f fs Hf _ IH]; intros Hknown s c es s' Hs Hr; simpl in *.
  { injection Hr as <-. rewrite app_nil_r. split; [done|]. intros f u Hf. inversion Hf. }
  apply bind_inr_inv in Hr as (s1&Hr1&Hr2&_).
  rewrite (emitted_bind _ _ _ _ Hr1), app_assoc.
  destruct (sync_udts_registers (udts f) Hf (fun u Hu => Hknown f u (list_elem_of_here _ _) Hu)
              s s c es s1 Hs Hs Hr1) as [Hd1 Hc1].
  destruct (IH (fun f' u Hf' Hu => Hknown f' u (list_elem_of_further _ _ _ Hf') Hu)
              _ _ _ s' Hd1 Hr2) as [Hd Hc].
  split; [done|].
  intros f' u Hf' Hu. apply elem_of_cons in Hf' as [->|Hf']; [|by eapply Hc].
  by apply covered_app, Hc1.
Qed.

Lemma sync_type_registers t : registers t.
Proof.
  induction t as [t IH] using UserType_nested_ind.
  intros Hkt o c es s' Hd Hr. revert Hr. rewrite sync_type_unfold. intros Hr.
  apply bind_inr_inv in Hr as (s1&Hr1&Hr2&_).
  rewrite (emitted_bind _ _ _ _ Hr1), app_assoc.
  destruct (sync_subtypes_registers (_fields t) IH
              (fun f u Hf Hu => known_nested t f u Hkt Hf Hu) _ c es s1 Hd Hr1)
    as [Hd1 Hc1].
  apply bind_inr_inv in Hr2 as ([]&Hone&Hret&_).
  rewrite (emitted_bind _ _ _ _ Hone). simpl in Hret |- *. injection Hret as <-.
  rewrite app_nil_r. split.
  - intros v Hv. inversion Hv as [|? f u ? Hf Hu Huv]; subst.
    + apply elem_of_app. right. by apply sync_one_type_registers.
    + apply elem_of_app. left. by apply (Hc1 f u).
  - destruct (shared_with_caller o); [by apply done_with_app|].
    rewrite <- app_assoc. by apply done_with_app.
Qed.

(** The loops of lines 145 to 150. *)
Lemma sync_listed_types_registers us :
  (forall u, u ∈ us -> known u) ->
  forall s c es s',
    done_with ks_name known s es ->
    let loop := fold_each us s (fun udt syncd_types =>
                  _sync_type' ks_name udt (Some syncd_types)) in
    result (loop c) = inr s' ->
    done_with ks_name known s' (es ++ emitted (loop c)) /\
    forall u, u ∈ us -> covered ks_name (es ++ emitted (loop c)) u.
Proof.
  induction us as [|u us IH]; intros Hknown s c es s' Hs loop Hr; subst loop; simpl in *.
  { injection Hr as <-. rewrite app_nil_r. split; [done|]. intros u Hu. inversion Hu. }
  apply bind_inr_inv in Hr as (s1&Hr1&Hr2&_).
  rewrite (emitted_bind _ _ _ _ Hr1), app_assoc.
  destruct (sync_type_registers u (Hknown u (list_elem_of_here _ _)) (Some s) c es s1 Hs Hr1)
    as [Hcu Hd1].
  destruct (IH (fun v Hv => Hknown v (list_elem_of_further _ _ _ Hv)) _ _ _ s' Hd1 Hr2)
    as [Hd Hc].
  split; [done|].
  intros v Hv. apply elem_of_cons in Hv as [->|Hv]; [|by apply Hc].
  by apply covered_app.
Qed.

Lemma sync_column_types_registers (cols : list Column) :
  (forall col u, col ∈ cols -> u ∈ udts col -> known u) ->
  forall s c es s',
    done_with ks_name known s es ->
    let loop := fold_each cols s (fun col syncd_types =>
                  let udts := udts col in
                  fold_each (filter (fun u => class_id u ∉ syncd_types) udts) syncd_types
                    (fun udt syncd_types => _sync_type' ks_name udt (Some syncd_types))) in
    result (loop c) = inr s' ->
    done_with ks_name known s' (es ++ emitted (loop c)) /\
    forall col u, col ∈ cols -> u ∈ udts col -> covered ks_name (es ++ emitted (loop c)) u.
Proof.
  induction cols as [|col cols IH]; intros Hknown s c es s' Hs loop Hr; subst loop;
    simpl in *.
  { injection Hr as <-. rewrite app_nil_r. split; [done|]. intros col u Hc. inversion Hc. }
  apply bind_inr_inv in Hr as (s1&Hr1&Hr2&_).
  rewrite (emitted_bind _ _ _ _ Hr1), app_assoc.
  destruct (sync_listed_types_registers (filter (fun u => class_id u ∉ s) (udts col)))
    with (s := s) (c := c) (es := es) (s' := s1) as [Hd1 Hc1]; try done.
  { intros u Hu. apply list_elem_of_filter in Hu as [_ Hu].
    by apply (Hknown col u (list_elem_of_here _ _)). }
  destruct (IH (fun col' u Hc Hu => Hknown col' u (list_elem_of_further _ _ _ Hc) Hu)
              _ _ _ s' Hd1 Hr2) as [Hd Hc].
  split; [done|].
  intros col' u Hcol Hu. apply elem_of_cons in Hcol as [->|Hcol]; [|by eapply Hc].
  apply covered_app.
  destruct (decide (class_id u ∈ s)) as [Hin|Hout].
  - apply covered_app, Hs; [|done]. by apply (Hknown col u (list_elem_of_here _ _)).
  - apply Hc1. by apply list_elem_of_filter.
Qed.

End Registration.

(** X12: When [sync_type] returns, it has registered for the keyspace the
    user type and every user type nested in it, at whatever depth. *)
Theorem sync_type_registers_reachable ks_name (t : UserType) c :
  (forall u v, reachable t u -> reachable t v -> class_id u = class_id v -> u = v) ->
  let r := sync_type exec refresh_user_type_metadata os_getenv ks_name t c in
  result r = inr tt ->
  forall v, reachable t v -> Registered ks_name (class_id v) ∈ emitted r.
Proof.
  intros Hid r Hr v Hv. subst r. revert Hr. unfold sync_type.
  destruct (allow_any_run os_getenv c) as (Hallow&Hc&_).
  rewrite (bind_inr _ _ _ _ Hallow), Hc. cbn [negb result emitted].
  intros Hr. apply bind_inr_inv in Hr as (s&Hr&_&_).
  apply elem_of_app. right. eapply emitted_bind_l.
  destruct (sync_type_registers ks_name (reachable t)
              (fun t' f u Ht Hf Hu => reachable_nested_r _ _ _ _ Ht Hf Hu) Hid
              t (reachable_self t) None c [] s) as [Hcov _]; [|done|by apply Hcov].
  intros u _ Hin. by apply not_elem_of_empty in Hin.
Qed.

(** X13: When [sync_table] returns, it has registered for the keyspace of the
    model every user type of its columns and every user type nested in
    one of these. *)
Theorem sync_table_registers_reachable (m : Model) c :
  (forall u v, model_type m u -> model_type m v -> class_id u = class_id v -> u = v) ->
  let r := sync_table' m c in
  result r = inr tt ->
  forall v, model_type m v -> Registered (_get_keyspace m) (class_id v) ∈ emitted r.
Proof.
  intros Hid r Hr v (name&col&t&Hcol&Ht&Hv). subst r.
  destruct (sync_table_returns _ _ Hr) as (Hmodel&Habstract&km&Hkm).
  revert Hr. unfold sync_table.
  destruct (allow_any_run os_getenv c) as (Hallow&Hc&_).
  rewrite (bind_inr _ _ _ _ Hallow), Hc. cbn [negb result emitted].
  rewrite Hmodel, Habstract. cbn [negb]. cbv zeta.
  rewrite bind_get_metadata, (bind_getitem _ _ _ _ _ Hkm).
  intros Hr. apply bind_inr_inv in Hr as (s&Hr&_&_).
  apply elem_of_app. right. eapply emitted_bind_l.
  unfold sync_column_types in Hr |- *.
  destruct (sync_column_types_registers (_get_keyspace m) (model_type m)) with
    (cols := (_columns m).*2) (s := (∅ : gset nat)) (c := c) (es := @nil (@event V)) (s' := s)
    as [_ Hcov]; try done.
  - intros t' f u (n'&c'&t0&?&?&?) Hf Hu. exists n', c', t0. split; [done|]. split; [done|].
    by eapply reachable_nested_r.
  - intros col' u Hcol' Hu. apply list_elem_of_fmap in Hcol' as ([n' c']&->&Hin).
    exists n', c', u. split; [done|]. split; [done|]. apply reachable_self.
  - apply (Hcov col t); [|done|done].
    apply list_elem_of_fmap. by exists (name, col).
Qed.

(** ** The option codec: other properties *)

Section Codec.

Implicit Types (s t name : string).

Lemma split_length (c : ascii) s :
  length (PyStr.split c s) = S (occurrences c s).
Proof.
  induction s as [|a s IH]; [done|]. simpl.
  destruct (Ascii.eqb a c); simpl; [by rewrite IH|].
  destruct (PyStr.split c s) as [|p ps]; [done|]. done.
Qed.

Lemma decode_option_pieces option :
  occurrences "=" option <> 1%nat ->
  decode_option json_loads option = inl (UnpackError (S (occurrences "=" option))).
Proof.
  intros Hn. unfold decode_option. rewrite <- split_length.
  pose proof (split_length "=" option) as Hlen.
  destruct (PyStr.split "=" option) as [|a [|b [|c l]]]; try done.
  simpl in Hlen. destruct Hn. lia.
Qed.

Lemma options_loop_fails option_strings option (options : gmap string (@optval V)) :
  option ∈ option_strings ->
  (exists ex, decode_option json_loads option = inl ex) ->
  exists ex, options_loop json_loads option_strings options = inl ex.
Proof.
  intros Hin [ex Hex]. revert options.
  induction option_strings as [|o l IH]; intros options; [inversion Hin|].
  simpl. apply elem_of_cons in Hin as [<-|Hin].
  - rewrite Hex. eauto.
  - destruct (decode_option json_loads o) as [ex'|[n v]]; [eauto|]. by apply IH.
Qed.

(** X14: An option string is read only if it has exactly one equals sign:
    with none or with several (one inside a quoted value counts), the
    unpacking of [option.split('=')] raises [ValueError], at once when
    the string comes first, and whatever else the list holds. *)
Theorem options_need_one_equals_sign option :
  occurrences "=" option <> 1%nat ->
  (forall rest,
     _options_map_from_strings json_loads (option :: rest) =
     inl (UnpackError (S (occurrences "=" option)))) /\
  (forall option_strings, option ∈ option_strings ->
     exists ex, _options_map_from_strings json_loads option_strings = inl ex).
Proof.
  intros Hn. split.
  - intros rest. unfold _options_map_from_strings. simpl.
    by rewrite decode_option_pieces.
  - intros l Hin. apply options_loop_fails with option; [done|].
    rewrite decode_option_pieces by done. eauto.
Qed.

Lemma options_loop_union l (acc acc' o : gmap string (@optval V)) :
  options_loop json_loads l acc = inr o ->
  options_loop json_loads l (acc ∪ acc') = inr (o ∪ acc').
Proof.
  revert acc. induction l as [|x l IH]; intros acc; simpl.
  - by intros [= <-].
  - destruct (decode_option json_loads x) as [ex|[n v]]; [done|].
    intros Hl. rewrite insert_union_l. by apply IH.
Qed.

Lemma options_loop_app l1 l2 (acc o1 : gmap string (@optval V)) :
  options_loop json_loads l1 acc = inr o1 ->
  options_loop json_loads (l1 ++ l2) acc = options_loop json_loads l2 o1.
Proof.
  revert acc. induction l1 as [|x l IH]; intros acc; simpl.
  - by intros [= <-].
  - destruct (decode_option json_loads x) as [ex|[n v]]; [done|]. apply IH.
Qed.

(** X15: Reading two lists of option strings one after the other is reading
    each and letting the options of the second override those of the
    first. *)
Theorem options_map_app l1 l2 (o1 o2 : gmap string (@optval V)) :
  _options_map_from_strings json_loads l1 = inr o1 ->
  _options_map_from_strings json_loads l2 = inr o2 ->
  _options_map_from_strings json_loads (l1 ++ l2) = inr (o2 ∪ o1).
Proof.
  unfold _options_map_from_strings. intros H1 H2.
  rewrite (options_loop_app _ _ _ _ H1).
  rewrite <- (left_id_L ∅ (∪) o1) at 1. by apply options_loop_union.
Qed.

Lemma rstrip_cons a t :
  PyStr.rstrip (String a t) =
  match PyStr.rstrip t with
  | EmptyString => if PyStr.is_space a then EmptyString else String a EmptyString
  | r => String a r
  end.
Proof. reflexivity. Qed.

Lemma lstrip_cons a t :
  PyStr.lstrip (String a t) = if PyStr.is_space a then PyStr.lstrip t else String a t.
Proof. reflexivity. Qed.

Lemma lstrip_head s :
  match PyStr.lstrip s with
  | EmptyString => True
  | String a _ => PyStr.is_space a = false
  end.
Proof.
  induction s as [|a s IH]; [done|]. rewrite lstrip_cons.
  by destruct (PyStr.is_space a) eqn:Ha.
Qed.

Lemma rstrip_head a t :
  PyStr.is_space a = false -> exists t', PyStr.rstrip (String a t) = String a t'.
Proof.
  intros Ha. rewrite rstrip_cons. destruct (PyStr.rstrip t); [rewrite Ha|]; eauto.
Qed.

Lemma rstrip_idem t : PyStr.rstrip (PyStr.rstrip t) = PyStr.rstrip t.
Proof.
  induction t as [|a t IH]; [done|]. rewrite (rstrip_cons a t).
  destruct (PyStr.rstrip t) as [|b r] eqn:Hr.
  - destruct (PyStr.is_space a) eqn:Ha; [done|].
    rewrite rstrip_cons. change (PyStr.rstrip EmptyString) with EmptyString.
    by rewrite Ha.
  - rewrite (rstrip_cons a (String b r)), IH. done.
Qed.

Lemma lstrip_rstrip_lstrip s :
  PyStr.lstrip (PyStr.rstrip (PyStr.lstrip s)) = PyStr.rstrip (PyStr.lstrip s).
Proof.
  pose proof (lstrip_head s) as Hhead.
  destruct (PyStr.lstrip s) as [|a t]; [done|].
  destruct (rstrip_head a t Hhead) as [t' ->]. by rewrite lstrip_cons, Hhead.
Qed.

Lemma strip_idem s : PyStr.strip (PyStr.strip s) = PyStr.strip s.
Proof. unfold PyStr.strip. by rewrite lstrip_rstrip_lstrip, rstrip_idem. Qed.

Lemma decode_option_trimmed option name (value : @optval V) :
  decode_option json_loads option = inr (name, value) ->
  PyStr.strip name = name /\
  forall v, value = OptStr v -> PyStr.strip v = v.
Proof.
  unfold decode_option.
  destruct (PyStr.split "=" option) as [|n [|v [|? ?]]]; try done.
  destruct (0 <=? PyStr.find "{" v).
  - destruct (json_loads _); [|done]. intros [= <- <-].
    split; [apply strip_idem|done].
  - intros [= <- <-]. split; [apply strip_idem|]. intros ? [= <-]. apply strip_idem.
Qed.

Lemma options_loop_trimmed l (acc o : gmap string (@optval V)) :
  options_loop json_loads l acc = inr o ->
  forall name value, o !! name = Some value ->
    acc !! name = Some value \/
    (PyStr.strip name = name /\ forall v, value = OptStr v -> PyStr.strip v = v).
Proof.
  revert acc. induction l as [|x l IH]; intros acc; simpl.
  - intros [= <-]. eauto.
  - destruct (decode_option json_loads x) as [ex|[n v]] eqn:Hx; [done|].
    intros Hl name value Hname.
    destruct (IH _ Hl _ _ Hname) as [Hacc|?]; [|by right].
    destruct (decide (name = n)) as [->|Hne].
    + rewrite lookup_insert_eq in Hacc. injection Hacc as ->.
      right. by eapply decode_option_trimmed.
    + rewrite lookup_insert_ne in Hacc by done. by left.
Qed.

(** X16: The names of the options that are read, and the values that are
    kept as strings, have no white space at either end: trimming them
    again changes nothing. *)
Theorem options_map_trimmed option_strings (o : gmap string (@optval V)) name value :
  _options_map_from_strings json_loads option_strings = inr o ->
  o !! name = Some value ->
  PyStr.strip name = name /\ forall v, value = OptStr v -> PyStr.strip v = v.
Proof.
  intros Ho Hname.
  destruct (options_loop_trimmed _ _ _ Ho _ _ Hname) as [Hempty|?]; [|done].
  by rewrite lookup_empty in Hempty.
Qed.

Lemma rstrip_app_space s : PyStr.rstrip (s ++ " ") = PyStr.rstrip s.
Proof.
  induction s as [|a s IH]; [done|].
  rewrite append_cons, !rstrip_cons, IH. done.
Qed.

Lemma strip_fixed_head s :
  PyStr.strip s = s ->
  match s with
  | EmptyString => True
  | String a _ => PyStr.is_space a = false
  end.
Proof.
  unfold PyStr.strip. intros Hs. pose proof (lstrip_head s) as Hhead.
  destruct (PyStr.lstrip s) as [|a t].
  - by rewrite <- Hs.
  - destruct (rstrip_head a t Hhead) as [t' Ht']. rewrite Ht' in Hs. by rewrite <- Hs.
Qed.

Lemma strip_app_space s : PyStr.strip s = s -> PyStr.strip (s ++ " ") = s.
Proof.
  intros Hs. pose proof (strip_fixed_head s Hs) as Hhead.
  destruct s as [|a s]; [done|].
  unfold PyStr.strip in *. rewrite append_cons, lstrip_cons, Hhead.
  rewrite lstrip_cons, Hhead in Hs.
  rewrite <- append_cons. by rewrite rstrip_app_space.
Qed.

(** X17: A name and a value rendered as "name = value" are read back as they
    were, the value as a string: for a name and a value without equals
    sign and without white space at either end, and a value without
    opening brace. *)
Theorem options_scalar_round_trip name (value : string) :
  PyStr.contains "=" name = false -> PyStr.contains "=" value = false ->
  PyStr.contains "{" value = false ->
  PyStr.strip name = name -> PyStr.strip value = value ->
  _options_map_from_strings json_loads [name ++ " = " ++ value] =
  inr {[ name := OptStr value ]}.
Proof.
  intros Hname Hvalue Hbrace Hn Hv.
  unfold _options_map_from_strings. simpl. unfold decode_option.
  replace (name ++ " = " ++ value)
    with ((name ++ " ") ++ String "="%char (" " ++ value))
    by (by rewrite string_app_assoc).
  rewrite split_two.
  2:{ rewrite contains_one_app, Hname. done. }
  2:{ change (" " ++ value) with (String " "%char value).
      by rewrite contains_one_cons, Hvalue. }
  unfold PyStr.find. rewrite find_from_absent.
  2:{ change (" " ++ value) with (String " "%char value).
      by rewrite contains_one_cons, Hbrace. }
  change (0 <=? -1) with false. cbv iota.
  rewrite (strip_app_space _ Hn).
  change (PyStr.strip (" " ++ value)) with (PyStr.strip value). by rewrite Hv.
Qed.

End Codec.

(** ** Option reconciliation: other properties *)

Lemma get_table_metadata_missing c (m : Model) :
  live_table c m = None ->
  @_get_table_metadata V m c =
  mkRun [] c (inl (KeyError (match c !! _get_keyspace m with
                             | Some _ => _raw_column_family_name m
                             | None => _get_keyspace m
                             end))).
Proof.
  unfold live_table, _get_table_metadata. rewrite bind_get_metadata.
  destruct (c !! _get_keyspace m) as [km|] eqn:Hkm; simpl.
  - intros Htm. rewrite (bind_getitem _ _ _ _ _ Hkm). unfold getitem. by rewrite Htm.
  - intros _. by rewrite bind_getitem_None.
Qed.

(** X18: [_update_options] on a table that the metadata do not list ends in
    the [KeyError] of [_get_table_metadata], for the keyspace or for the
    table, and executes nothing. *)
Theorem update_options_missing_table (m : Model) c :
  live_table c m = None ->
  let r := _update_options json_loads exec dict_order m c in
  executed (emitted r) = [] /\ cluster_after r = c /\
  result r = inl (KeyError (match c !! _get_keyspace m with
                            | Some _ => _raw_column_family_name m
                            | None => _get_keyspace m
                            end)).
Proof.
  intros Htm r. subst r. unfold _update_options, log. rewrite bind_emit.
  unfold bind. by rewrite (get_table_metadata_missing _ _ Htm).
Qed.

Lemma update_options_unreadable c (m : Model) tm ex :
  live_table c m = Some tm ->
  _options_map_from_strings json_loads (tm_option_strings tm) = inl ex \/
  (exists eo, _options_map_from_strings json_loads (tm_option_strings tm) = inr eo) /\
  _options_map_from_strings json_loads (model_option_strings m) = inl ex ->
  let r := _update_options json_loads exec dict_order m c in
  executed (emitted r) = [] /\ cluster_after r = c /\ result r = inl ex.
Proof.
  intros Htm Hbad r. subst r. unfold _update_options, log.
  rewrite bind_emit, (bind_run _ _ _ _ _ _ (get_table_metadata_run _ _ _ Htm)).
  destruct Hbad as [->|[[eo ->] ->]]; [by rewrite bind_lift_inl|].
  by rewrite bind_lift_inr, bind_lift_inl.
Qed.

(** X19: The value of [_update_options] tells whether the options were
    altered: [True] after exactly one ALTER TABLE ... WITH, of a set of
    options that is not empty; [False] after no statement at all, the
    metadata being as before.  When it raises, either nothing was
    executed or the one ALTER TABLE ... WITH has failed with that
    exception. *)
Theorem update_options_return_value (m : Model) c :
  let r := _update_options json_loads exec dict_order m c in
  let altered_with d := AlterTableWith (column_family_name m) d in
  match result r with
  | inr true =>
      exists d, d <> ∅ /\ executed (emitted r) = [altered_with d] /\
        exec (altered_with d) c = (cluster_after r, None)
  | inr false => executed (emitted r) = [] /\ cluster_after r = c
  | inl ex =>
      (executed (emitted r) = [] /\ cluster_after r = c) \/
      exists d, d <> ∅ /\ executed (emitted r) = [altered_with d] /\
        exec (altered_with d) c = (cluster_after r, Some ex)
  end.
Proof.
  intros r altered_with. subst r altered_with.
  destruct (live_table c m) as [tm|] eqn:Htm.
  2:{ unfold _update_options, log. rewrite bind_emit.
      unfold bind. rewrite (get_table_metadata_missing _ _ Htm). by left. }
  destruct (_options_map_from_strings json_loads (tm_option_strings tm)) as [ex|eo] eqn:Heo.
  { destruct (update_options_unreadable c m tm ex Htm) as (He&Hc&->); [by left|by left]. }
  destruct (_options_map_from_strings json_loads (model_option_strings m)) as [ex|mo] eqn:Hmo.
  { destruct (update_options_unreadable c m tm ex Htm) as (He&Hc&->); [|by left].
    right. split; [eauto|done]. }
  generalize (update_options_run c m tm eo mo Htm Heo Hmo). cbv zeta.
  destruct (options_to_update m tm mo eo) as [ex|d].
  - intros (?&?&->). by left.
  - destruct (decide (d = ∅)) as [->|Hd].
    + intros (?&?&->). done.
    + intros (He&Hc&->).
      destruct (exec (AlterTableWith (column_family_name m) d) c) as [c' [ex|]] eqn:Hexec;
        simpl in *; subst c'.
      * right. exists d. by rewrite He.
      * exists d. by rewrite He.
Qed.

(** X20: When every desired option is live with the desired value,
    [_update_options] executes nothing and returns [False]; so it does
    for a model without options, on any table whose live options can be
    read. *)
Theorem update_options_nothing_to_change (m : Model) c tm eo mo :
  live_table c m = Some tm ->
  _options_map_from_strings json_loads (tm_option_strings tm) = inr eo ->
  _options_map_from_strings json_loads (model_option_strings m) = inr mo ->
  mo ⊆ eo ->
  let r := _update_options json_loads exec dict_order m c in
  executed (emitted r) = [] /\ cluster_after r = c /\ result r = inr false.
Proof.
  intros Htm Heo Hmo Hsub.
  generalize (update_options_run c m tm eo mo Htm Heo Hmo).
  rewrite (proj2 (options_items_diff _ _ _ _ _ Hmo) (option_diff_subseteq _ _ Hsub)).
  by rewrite decide_True.
Qed.

(** X21: The live options are read first, through their rendering as "name =
    value": a live option whose rendering has not exactly one equals
    sign makes [_update_options] raise before it compares anything,
    whatever the model asks for. *)
Theorem update_options_live_option_unreadable (m : Model) c tm option :
  live_table c m = Some tm ->
  option ∈ tm_option_strings tm ->
  occurrences "=" option <> 1%nat ->
  let r := _update_options json_loads exec dict_order m c in
  executed (emitted r) = [] /\ cluster_after r = c /\ exists ex, result r = inl ex.
Proof.
  intros Htm Hin Hn.
  destruct (options_loop_fails (tm_option_strings tm) option ∅ Hin) as [ex Hex].
  { rewrite decode_option_pieces by done. eauto. }
  destruct (update_options_unreadable c m tm ex Htm) as (?&?&?); [by left|]. eauto.
Qed.

(** ** Indexes that are live already *)

Lemma executed_bind_inv {A B} (m : M A) (f : A -> M B) c s :
  s ∈ executed (emitted (bind m f c)) ->
  s ∈ executed (emitted (m c)) \/
  exists a, result (m c) = inr a /\ s ∈ executed (emitted (f a (cluster_after (m c)))).
Proof.
  unfold bind. destruct (result (m c)) as [ex|a]; simpl; [by left|].
  rewrite executed_app. intros [?|?]%elem_of_app; [by left|right; eauto].
Qed.

Lemma sync_indexes_skips_live (m : Model) c tm idx :
  live_table c m = Some tm -> idx ∈ tm_indexes tm ->
  Forall (fun s => forall cf f, s <> CreateIndex idx cf f)
    (executed (emitted (sync_indexes exec m c))).
Proof.
  intros (km&Hkm&Htm)%live_table_Some Hidx. unfold sync_indexes.
  rewrite bind_get_metadata, (bind_getitem _ _ _ _ _ Hkm), (bind_getitem _ _ _ _ _ Htm).
  match goal with
  | |- Forall _ (executed (emitted (?loop c))) =>
      assert (safe (fun s => forall cf f, s <> CreateIndex idx cf f)
                (fun _ _ : Cluster => True) loop) as Hsafe; [|apply Hsafe]
  end.
  ap safe_for_each. intros column _.
  case_bool_decide as Hlive; [ap safe_ret|].
  ap safe_execute; [done|]. intros cf f [= Heq _ _]. by rewrite Heq in Hlive.
Qed.

(** X22: On a cluster where no statement of the synchronisation loses
    anything live, [sync_table] executes no CREATE INDEX for an index
    that the table has when the call begins. *)
Theorem sync_table_keeps_live_indexes (m : Model) c tm idx :
  (forall s c, sync_statement m s -> cluster_le c (exec s c).1) ->
  (forall ks_name t c, cluster_le c (refresh_user_type_metadata ks_name t c)) ->
  live_table c m = Some tm -> idx ∈ tm_indexes tm ->
  forall cf f, CreateIndex idx cf f ∉ executed (emitted (sync_table' m c)).
Proof.
  intros Hexec Hrefresh Htm Hidx cf f.
  destruct (live_table_Some _ _ _ Htm) as (km&Hkm&Htable).
  destruct (is_model m) eqn:Hmodel.
  2:{ unfold sync_table.
      match goal with
      | |- context [bind (_allow_schema_modification ?g) ?k ?c] =>
          destruct (bind_allow g k c) as (->&_&_)
      end. cbn [negb]. rewrite Hmodel. simpl. apply not_elem_of_nil. }
  destruct (__abstract__ m) eqn:Habstract.
  { unfold sync_table.
    match goal with
    | |- context [bind (_allow_schema_modification ?g) ?k ?c] =>
        destruct (bind_allow g k c) as (->&_&_)
    end. cbn [negb]. rewrite Hmodel, Habstract. simpl. apply not_elem_of_nil. }
  destruct (sync_table_steps m c km Hmodel Habstract Hkm) as (->&_&_).
  rewrite Htable. intros Hin.
  assert (safe (sync_statement m) cluster_le
            (sync_column_types exec refresh_user_type_metadata (_get_keyspace m) m))
    as Hsafe1 by (by ap safe_sync_column_types).
  destruct (Hsafe1 c) as [_ Hle1].
  apply executed_bind_inv in Hin as [Hin|(syncd&_&Hin)].
  { assert (safe type_statement (fun _ _ : Cluster => True)
              (sync_column_types exec refresh_user_type_metadata (_get_keyspace m) m))
      as Hsafe.
    { unfold sync_column_types. ap safe_fold_each. intros col s _.
      ap safe_fold_each. intros udt s' _. by ap safe_sync_type. }
    destruct (Hsafe c) as [Hall _]. rewrite Forall_forall in Hall.
    by apply Hall in Hin. }
  set (c1 := cluster_after (sync_column_types exec refresh_user_type_metadata
                              (_get_keyspace m) m c)) in *.
  assert (safe (sync_statement m) cluster_le (update_table json_loads exec dict_order m tm))
    as Hsafe2 by (by ap safe_update_table).
  destruct (Hsafe2 c1) as [_ Hle2].
  apply executed_bind_inv in Hin as [Hin|([]&_&Hin)].
  { pose proof (safe_update_table_by (fun s => forall cf f, s <> CreateIndex idx cf f)
                  m tm) as Hsafe.
    destruct (Hsafe (fun _ _ _ _ _ _ _ => ltac:(done)) (fun _ _ _ _ => ltac:(done)) c1)
      as [Hall _].
    rewrite Forall_forall in Hall. by apply (Hall _ Hin cf f). }
  set (c2 := cluster_after (update_table json_loads exec dict_order m tm c1)) in *.
  destruct (cluster_le_live_table c c2 m tm) as (tm2&Htm2&_&_&Hsub);
    [by etrans|done|].
  pose proof (sync_indexes_skips_live m c2 tm2 idx Htm2 (Hsub _ Hidx)) as Hall.
  rewrite Forall_forall in Hall. by apply (Hall _ Hin cf f).
Qed.

(** ** The statements of [sync_type] *)

Lemma safe_sync_type_declared ks_name (t : UserType) (Ps : @stmt V -> Prop) :
  (forall v, reachable t v -> Ps (CreateType ks_name v)) ->
  (forall v f, reachable t v -> f ∈ _fields v ->
     Ps (AlterTypeAdd ks_name (type_name v) f)) ->
  forall v, reachable t v ->
    forall o, safe Ps (fun _ _ : Cluster => True) (_sync_type' ks_name v o).
Proof.
  intros Hcreate Halter v.
  induction v as [v IH] using UserType_nested_ind. intros Hv o.
  rewrite sync_type_unfold.
  ap safe_bind.
  { ap safe_sync_subtypes; [done..|].
    rewrite Forall_forall in IH |- *. intros f Hf.
    specialize (IH f Hf). rewrite Forall_forall in IH |- *. intros u Hu.
    apply IH; [done|]. by eapply reachable_nested_r. }
  intros s. ap safe_bind; [|intros; ap safe_ret].
  ap safe_sync_one_type; [done..|by apply Hcreate|]. intros f Hf. by apply Halter.
Qed.

(** X23: [sync_type] creates no user type but the declared one and those
    nested in it, and adds to a live type none but its declared fields;
    all in the keyspace it is given. *)
Theorem sync_type_statements_declared ks_name (t : UserType) c :
  Forall (fun s =>
            match s with
            | CreateType k v => k = ks_name /\ reachable t v
            | AlterTypeAdd k tn f =>
                k = ks_name /\
                exists v, reachable t v /\ tn = type_name v /\ f ∈ _fields v
            | _ => False
            end)
    (executed (emitted (sync_type exec refresh_user_type_metadata os_getenv ks_name t c))).
Proof.
  unfold sync_type.
  match goal with
  | |- context [bind (_allow_schema_modification ?g) ?k ?c] =>
      destruct (bind_allow g k c) as (->&_&_)
  end. cbn [negb].
  match goal with
  | |- Forall ?P (executed (emitted (?f c))) =>
      assert (safe P (fun _ _ : Cluster => True) f) as Hsafe; [|apply Hsafe]
  end.
  ap safe_bind; [|intros; ap safe_ret].
  apply safe_sync_type_declared with t; [by split|eauto 10|apply reachable_self].
Qed.

(** ** The text of CREATE TABLE *)

Section CreateTableText.

Implicit Types (n s p q : string).

Lemma contains_unfold n s :
  PyStr.contains n s =
  (String.prefix n s || match s with
                        | EmptyString => false
                        | String _ h => PyStr.contains n h
                        end)%bool.
Proof. by destruct s. Qed.

Lemma prefix_refl n : String.prefix n n = true.
Proof. induction n as [|a n IH]; [done|]. simpl. by destruct (ascii_dec a a). Qed.

Lemma contains_refl n : PyStr.contains n n = true.
Proof. by rewrite contains_unfold, prefix_refl. Qed.

Lemma contains_app_l n s q : PyStr.contains n s = true -> PyStr.contains n (s ++ q) = true.
Proof.
  induction s as [|a s IH].
  - rewrite contains_unfold. intros [Hp|?]%orb_true_iff; [|done].
    rewrite contains_unfold. by rewrite (prefix_app_l _ _ _ Hp).
  - rewrite (contains_unfold n (String a s)). intros [Hp|Hs]%orb_true_iff.
    + rewrite contains_unfold. by rewrite (prefix_app_l _ _ _ Hp).
    + rewrite append_cons, contains_unfold. rewrite (IH Hs). apply orb_true_r.
Qed.

Lemma contains_app_r n p s : PyStr.contains n s = true -> PyStr.contains n (p ++ s) = true.
Proof.
  intros Hs. induction p as [|a p IH]; [done|].
  rewrite append_cons, contains_unfold, IH. apply orb_true_r.
Qed.

Lemma contains_concat n sep (l : list string) s :
  s ∈ l -> PyStr.contains n s = true -> PyStr.contains n (String.concat sep l) = true.
Proof.
  intros Hin Hs. induction l as [|x l IH]; [inversion Hin|].
  destruct l as [|y l].
  - apply list_elem_of_singleton in Hin as ->. done.
  - change (String.concat sep (x :: y :: l)) with (x ++ sep ++ String.concat sep (y :: l)).
    apply elem_of_cons in Hin as [->|Hin].
    + by apply contains_app_l.
    + by apply contains_app_r, contains_app_r, IH.
Qed.

(** X24: The text of [_get_create_table] begins with CREATE TABLE and the
    name of the column family, and carries the definition of every column
    and every option string of the model. *)
Theorem get_create_table_text (m : Model) :
  String.prefix ("CREATE TABLE " ++ column_family_name m) (_get_create_table m) = true /\
  (forall name col, (name, col) ∈ _columns m ->
     PyStr.contains (column_def col) (_get_create_table m) = true) /\
  (forall option, option ∈ model_option_strings m ->
     PyStr.contains option (_get_create_table m) = true).
Proof.
  unfold _get_create_table. cbv zeta.
  set (pk := ("PRIMARY KEY ((" ++ _ ++ ")" ++ _ ++ ")")).
  set (order := map _ (_clustering_keys m)).
  set (clustering := match order with [] => [] | _ => _ end).
  split; [|split].
  - destruct (app clustering (model_option_strings m));
      rewrite <- app_comm_cons; apply prefix_concat_head, prefix_refl.
  - intros name col Hin.
    assert (PyStr.contains (column_def col)
              ("(" ++ String.concat ", " (map column_def (_columns m).*2 ++ [pk]) ++ ")")
            = true) as Hdefs.
    { apply contains_app_r, contains_app_l.
      apply contains_concat with (column_def col); [|apply contains_refl].
      apply elem_of_app. left. apply list_elem_of_fmap. exists col. split; [done|].
      apply list_elem_of_fmap. by exists (name, col). }
    destruct (app clustering (model_option_strings m));
      (eapply contains_concat; [|exact Hdefs]); rewrite <- app_comm_cons; set_solver.
  - intros option Hin.
    assert (option ∈ app clustering (model_option_strings m)) as Hin'.
    { apply elem_of_app. by right. }
    destruct (app clustering (model_option_strings m)) as [|x l] eqn:Hl;
      [inversion Hin'|].
    eapply contains_concat
      with (s := "WITH " ++ String.concat " AND " (x :: l)).
    + simpl. repeat constructor.
    + apply contains_app_r. by apply contains_concat with option; [|apply contains_refl].
Qed.

End CreateTableText.

(** ** User types: the order of the registrations *)

Lemma emitted_bind_inv {A B} (m : M A) (f : A -> M B) c e :
  e ∈ emitted (bind m f c) ->
  e ∈ emitted (m c) \/
  exists a, result (m c) = inr a /\ e ∈ emitted (f a (cluster_after (m c))).
Proof.
  unfold bind. destruct (result (m c)) as [ex|a]; simpl; [by left|].
  intros [?|?]%elem_of_app; [by left|right; eauto].
Qed.

(** The loop over the fields of a live type emits executions only. *)
Lemma add_fields_events ks_name (t : UserType) (defined_fields : list string) fields
    (model_fields : gset string) c e :
  e ∈ emitted
        (fold_each fields model_fields (fun field (model_fields : gset string) =>
           let model_fields := {[db_field_name field]} ∪ model_fields in
           if bool_decide (db_field_name field ∉ defined_fields) then
             bind (execute exec (AlterTypeAdd ks_name (type_name t) field))
               (fun _ => ret model_fields)
           else ret model_fields) c) ->
  exists s, e = Executed s.
Proof.
  revert model_fields c. induction fields as [|f0 fields IH]; intros mf c; simpl.
  { intros He. inversion He. }
  intros [He|(a&_&He)]%emitted_bind_inv; [|by eapply IH].
  case_bool_decide; [|inversion He].
  apply emitted_bind_inv in He as [He|(a&_&He)]; [|inversion He].
  unfold execute in He. destruct (exec _ c) as [c' r]. simpl in He.
  apply list_elem_of_singleton in He. eauto.
Qed.

(** Lines 235 to 265 register no class but the one of the type. *)
Lemma sync_one_type_registered ks_name t c k a :
  Registered k a ∈ emitted (sync_one_type' ks_name t c) -> a = class_id t.
Proof.
  unfold sync_one_type. rewrite bind_get_metadata.
  destruct (c !! ks_name) as [km|] eqn:Hkm.
  2:{ rewrite bind_getitem_None by done. intros He. inversion He. }
  rewrite (bind_getitem _ _ _ _ _ Hkm).
  destruct (user_types km !! type_name t) as [fns|] eqn:Hfns.
  - intros [He|(s&_&He)]%emitted_bind_inv.
    { by apply add_fields_events in He as [? ?]. }
    rewrite bind_emit in He. simpl in He.
    apply elem_of_cons in He as [[= _ ->]|He]; [done|].
    repeat case_bool_decide; simpl in He;
      repeat (apply elem_of_cons in He as [?|He]; [done|]); inversion He.
  - unfold log. rewrite bind_emit. simpl.
    intros [?|He]%elem_of_cons; [done|].
    apply emitted_bind_inv in He as [He|([]&_&He)].
    { unfold execute in He. destruct (exec _ c) as [c' r]. simpl in He.
      by apply list_elem_of_singleton in He. }
    apply emitted_bind_inv in He as [He|([]&_&He)]; simpl in He.
    + by apply list_elem_of_singleton in He.
    + by apply list_elem_of_singleton in He as [= _ ->].
Qed.

Section Order.

Variable ks_name : string.
Variable known : UserType -> Prop.
Hypothesis known_nested : forall t f u,
  known t -> f ∈ _fields t -> u ∈ udts f -> known u.
Hypothesis known_identity : forall u v,
  known u -> known v -> class_id u = class_id v -> u = v.

Lemma nested_first_app (before es es' : list (@event V)) :
  nested_first ks_name known before es ->
  nested_first ks_name known (before ++ es) es' ->
  nested_first ks_name known before (es ++ es').
Proof.
  intros H1 H2 es1 a es2 Heq v f u Hv Ha Hf Hu.
  apply app_eq_inv in Heq as [(k&->&Hk)|(k&->&->)].
  - destruct k as [|e k]; simpl in Hk.
    + subst es'.
      specialize (H2 [] a es2 eq_refl v f u Hv Ha Hf Hu).
      by rewrite !app_nil_r in H2.
    + injection Hk as <- ->.
      by apply (H1 es1 a k eq_refl v f u).
  - rewrite app_assoc. by apply (H2 k a es2 eq_refl v f u).
Qed.

Lemma nested_first_nil (before : list (@event V)) :
  nested_first ks_name known before [].
Proof. intros es1 a es2 Heq. by destruct es1. Qed.

Lemma sync_one_type_nested_first t c (before : list (@event V)) :
  known t ->
  (forall f u, f ∈ _fields t -> u ∈ udts f -> covered ks_name before u) ->
  nested_first ks_name known before (emitted (sync_one_type' ks_name t c)).
Proof.
  intros Hkt Hcov es1 a es2 Heq v f u Hv Ha Hf Hu.
  assert (a = class_id t) as ->.
  { apply (sync_one_type_registered ks_name t c ks_name). rewrite Heq.
    apply elem_of_app. right. by left. }
  rewrite (known_identity v t Hv Hkt Ha) in Hf.
  by apply covered_app, (Hcov f u).
Qed.

Abbreviation in_order := (fun t : UserType =>
  known t ->
  forall o c es s',
    done_with ks_name known (default ∅ o) es ->
    result (_sync_type' ks_name t o c) = inr s' ->
    nested_first ks_name known es (emitted (_sync_type' ks_name t o c))).

Lemma sync_udts_in_order us :
  Forall in_order us -> (forall u, u ∈ us -> known u) ->
  forall snapshot s c es s',
    done_with ks_name known snapshot es -> done_with ks_name known s es ->
    result (sync_udts (_sync_type' ks_name) us snapshot s c) = inr s' ->
    nested_first ks_name known es
      (emitted (sync_udts (_sync_type' ks_name) us snapshot s c)).
Proof.
  induction 1 as [|u us Hu _ IH]; intros Hknown snapshot s c es s' Hsnap Hs Hr; simpl in *.
  { apply nested_first_nil. }
  assert (known u) as Hku by (apply Hknown; by left).
  assert (forall v, v ∈ us -> known v) as Hknown' by (intros v Hv; apply Hknown; by right).
  case_bool_decide as Hskip; [by eapply IH|].
  apply bind_inr_inv in Hr as (s1&Hr1&Hr2&_).
  rewrite (emitted_bind _ _ _ _ Hr1).
  apply nested_first_app; [by eapply Hu|].
  destruct (sync_type_registers ks_name known known_nested known_identity u Hku
              (Some s) c es s1 Hs Hr1) as [Hcu Hd1].
  eapply IH; [done|by apply done_with_app| |exact Hr2].
  intros w Hw Hin. apply elem_of_union in Hin as [Hin|Hin]; [|by apply Hd1].
  apply elem_of_singleton in Hin.
  by rewrite (known_identity w u Hw Hku Hin).
Qed.

Lemma sync_subtypes_in_order fields :
  Forall (fun f => Forall in_order (udts f)) fields ->
  (forall f u, f ∈ fields -> u ∈ udts f -> known u) ->
  forall s c es s',
    done_with ks_name known s es ->
    result (sync_subtypes (_sync_type' ks_name) fields s c) = inr s' ->
    nested_first ks_name known es
      (emitted (sync_subtypes (_sync_type' ks_name) fields s c)).
Proof.
  induction 1 as [|f fs Hf _ IH]; intros Hknown s c es s' Hs Hr; simpl in *.
  { apply nested_first_nil. }
  apply bind_inr_inv in Hr as (s1&Hr1&Hr2&_).
  rewrite (emitted_bind _ _ _ _ Hr1).
  assert (forall u, u ∈ udts f -> known u) as Hkf
    by (intros u Hu; by apply (Hknown f u (list_elem_of_here _ _))).
  apply nested_first_app; [by eapply sync_udts_in_order|].
  destruct (sync_udts_registers ks_name known known_identity (udts f))
    with (snapshot := s) (s := s) (c := c) (es := es) (s' := s1) as [Hd1 _]; try done.
  { rewrite Forall_forall. intros u Hu.
    apply sync_type_registers; done. }
  eapply IH; [|exact Hd1|exact Hr2].
  intros f' u Hf' Hu. apply (Hknown f' u); [by right|done].
Qed.

Lemma sync_type_in_order t : in_order t.
Proof.
  induction t as [t IH] using UserType_nested_ind.
  intros Hkt o c es s' Hd Hr. revert Hr. rewrite sync_type_unfold. intros Hr.
  apply bind_inr_inv in Hr as (s1&Hr1&Hr2&_).
  rewrite (emitted_bind _ _ _ _ Hr1).
  assert (forall f u, f ∈ _fields t -> u ∈ udts f -> known u) as Hkf
    by (intros f u; by apply known_nested).
  apply nested_first_app; [by eapply sync_subtypes_in_order|].
  apply bind_inr_inv in Hr2 as ([]&Hone&_&_).
  rewrite (emitted_bind _ _ _ _ Hone). simpl. rewrite app_nil_r.
  apply sync_one_type_nested_first; [done|].
  destruct (sync_subtypes_registers ks_name known known_identity (_fields t))
    with (s := default ∅ o) (c := c) (es := es) (s' := s1) as [_ Hc1]; try done.
  rewrite Forall_forall. intros f Hf. rewrite Forall_forall. intros u Hu.
  apply sync_type_registers; done.
Qed.

End Order.

(** X25: When [sync_type] returns, each registration of a user type comes
    after a registration of every user type nested in it, at whatever
    depth: nested types first. *)
Theorem sync_type_registers_nested_first ks_name (t : UserType) c es1 es2 v f u w :
  (forall u v, reachable t u -> reachable t v -> class_id u = class_id v -> u = v) ->
  let r := sync_type exec refresh_user_type_metadata os_getenv ks_name t c in
  result r = inr tt ->
  emitted r = (es1 ++ Registered ks_name (class_id v) :: es2)%list ->
  reachable t v -> f ∈ _fields v -> u ∈ udts f -> reachable u w ->
  Registered ks_name (class_id w) ∈ es1.
Proof.
  intros Hid r Hr Heq Hv Hf Hu Hw. subst r. revert Hr Heq. unfold sync_type.
  destruct (allow_any_run os_getenv c) as (Hallow&Hc&_).
  rewrite (bind_inr _ _ _ _ Hallow), Hc. cbn [negb result emitted].
  intros Hr Heq. apply bind_inr_inv in Hr as (s&Hr&_&_).
  rewrite (emitted_bind _ _ _ _ Hr) in Heq. simpl in Heq. rewrite app_nil_r in Heq.
  assert (nested_first ks_name (reachable t) []
            (emitted (@_allow_schema_modification V os_getenv c)
             ++ emitted (_sync_type' ks_name t None c))) as Horder.
  { apply nested_first_app.
    - intros es1' a es2' Heq'. exfalso.
      assert (Registered ks_name a ∈ emitted (@_allow_schema_modification V os_getenv c))
        as Hin by (rewrite Heq'; apply elem_of_app; right; by left).
      clear -Hin. unfold _allow_schema_modification in Hin.
      destruct (os_getenv _) as [[|]|]; simpl in Hin;
        repeat (apply elem_of_cons in Hin as [?|Hin]; [done|]); inversion Hin.
    - apply (sync_type_in_order ks_name (reachable t)
               (fun t' f' u' Ht Hf' Hu' => reachable_nested_r _ _ _ _ Ht Hf' Hu') Hid
               t (reachable_self t) None c _ s); [|done].
      intros u' _ Hin. by apply not_elem_of_empty in Hin. }
  specialize (Horder es1 (class_id v) es2 Heq v f u Hv eq_refl Hf Hu w Hw).
  done.
Qed.

(** ** The registrations of [sync_table] *)

Lemma registers_nothing_ret {A} (a : A) : registers_nothing (@ret V A a).
Proof. intros c k a' Hin. inversion Hin. Qed.

Lemma registers_nothing_raise {A} ex : registers_nothing (@raise V A ex).
Proof. intros c k a' Hin. inversion Hin. Qed.

Lemma registers_nothing_bind {A B} (m : M A) (f : A -> M B) :
  registers_nothing m -> (forall a, registers_nothing (f a)) ->
  registers_nothing (bind m f).
Proof.
  intros Hm Hf c k a [Hin|(x&_&Hin)]%emitted_bind_inv; [by eapply Hm|by eapply Hf].
Qed.

Lemma registers_nothing_log level format args :
  registers_nothing (@log V level format args).
Proof. intros c k a Hin. by apply list_elem_of_singleton in Hin. Qed.

Lemma registers_nothing_execute s : registers_nothing (execute exec s).
Proof.
  intros c k a Hin. unfold execute in Hin. destruct (exec s c) as [c' r].
  by apply list_elem_of_singleton in Hin.
Qed.

Lemma registers_nothing_getitem {A} (d : gmap string A) key :
  registers_nothing (@getitem V A d key).
Proof.
  unfold getitem. destruct (d !! key);
    [apply registers_nothing_ret|apply registers_nothing_raise].
Qed.

Lemma registers_nothing_lift {A} (r : exn + A) : registers_nothing (@lift V A r).
Proof. destruct r; [apply registers_nothing_raise|apply registers_nothing_ret]. Qed.

Lemma registers_nothing_get_metadata : registers_nothing (@get_metadata V).
Proof. intros c k a Hin. inversion Hin. Qed.

Lemma registers_nothing_for_each {A} (xs : list A) (body : A -> M unit) :
  (forall x, registers_nothing (body x)) -> registers_nothing (for_each xs body).
Proof.
  intros Hb. induction xs as [|x xs IH]; simpl; [apply registers_nothing_ret|].
  apply registers_nothing_bind; [apply Hb|]. intros _. apply IH.
Qed.

Lemma registers_nothing_fold_each {A S} (xs : list A) (s : S) (body : A -> S -> M S) :
  (forall x s, registers_nothing (body x s)) -> registers_nothing (fold_each xs s body).
Proof.
  intros Hb. revert s. induction xs as [|x xs IH]; intros s; simpl;
    [apply registers_nothing_ret|].
  apply registers_nothing_bind; [apply Hb|]. intros s'. apply IH.
Qed.

Lemma registers_nothing_try_except {A} (m : M A) (handler : exn -> M A) :
  registers_nothing m -> (forall ex, registers_nothing (handler ex)) ->
  registers_nothing (try_except m handler).
Proof.
  intros Hm Hh c k a. unfold try_except.
  destruct (result (m c)) as [ex|x] eqn:Hr; simpl; [|apply Hm].
  intros [Hin|Hin]%elem_of_app; [by eapply Hm|by eapply Hh].
Qed.

Lemma registers_nothing_table (m : Model) km :
  registers_nothing
    (bind (match tables km !! _raw_column_family_name m with
           | None => create_table exec python m
           | Some table_meta => update_table json_loads exec dict_order m table_meta
           end)
       (fun _ => sync_indexes exec m)).
Proof.
  apply registers_nothing_bind.
  - destruct (tables km !! _raw_column_family_name m) as [tm|].
    + unfold update_table.
      apply registers_nothing_bind; [apply registers_nothing_log|]. intros _.
      apply registers_nothing_bind.
      { apply registers_nothing_fold_each. intros [name col] s.
        destruct (primary_key col || partition_key col)%bool; [apply registers_nothing_ret|].
        case_bool_decide; [apply registers_nothing_ret|].
        apply registers_nothing_bind; [apply registers_nothing_execute|].
        intros _. apply registers_nothing_ret. }
      intros model_fields. apply registers_nothing_bind.
      { case_bool_decide; [apply registers_nothing_log|apply registers_nothing_ret]. }
      intros _. apply registers_nothing_bind; [|intros; apply registers_nothing_ret].
      unfold _update_options.
      apply registers_nothing_bind; [apply registers_nothing_log|]. intros _.
      apply registers_nothing_bind.
      { unfold _get_table_metadata.
        apply registers_nothing_bind; [apply registers_nothing_get_metadata|].
        intros cluster. apply registers_nothing_bind; [apply registers_nothing_getitem|].
        intros keyspace. apply registers_nothing_getitem. }
      intros table_meta.
      apply registers_nothing_bind; [apply registers_nothing_lift|]. intros eo.
      apply registers_nothing_bind; [apply registers_nothing_lift|]. intros mo.
      apply registers_nothing_bind; [apply registers_nothing_lift|]. intros d.
      case_bool_decide; [|apply registers_nothing_ret].
      apply registers_nothing_bind; [apply registers_nothing_execute|].
      intros _. apply registers_nothing_ret.
    + unfold create_table.
      apply registers_nothing_bind; [apply registers_nothing_log|]. intros _.
      apply registers_nothing_try_except; [apply registers_nothing_execute|].
      intros ex. destruct ex; try apply registers_nothing_raise.
      apply registers_nothing_bind.
      { unfold unicode.
        destruct python; [apply registers_nothing_ret|apply registers_nothing_raise]. }
      intros text.
      destruct (negb _); [apply registers_nothing_raise|apply registers_nothing_ret].
  - intros _. unfold sync_indexes.
    apply registers_nothing_bind; [apply registers_nothing_get_metadata|]. intros cluster.
    apply registers_nothing_bind; [apply registers_nothing_getitem|]. intros keyspace.
    apply registers_nothing_bind; [apply registers_nothing_getitem|]. intros table.
    apply registers_nothing_for_each. intros column.
    case_bool_decide; [apply registers_nothing_ret|apply registers_nothing_execute].
Qed.

Lemma nested_first_plain ks_name known (before es : list (@event V)) :
  (forall k a, Registered k a ∉ es) -> nested_first ks_name known before es.
Proof.
  intros Hes es1 a es2 Heq. destruct (Hes ks_name a). rewrite Heq.
  apply elem_of_app. right. by left.
Qed.

Section TableOrder.

Variable ks_name : string.
Variable known : UserType -> Prop.
Hypothesis known_nested : forall t f u,
  known t -> f ∈ _fields t -> u ∈ udts f -> known u.
Hypothesis known_identity : forall u v,
  known u -> known v -> class_id u = class_id v -> u = v.

Lemma sync_listed_types_in_order us :
  (forall u, u ∈ us -> known u) ->
  forall s c es s',
    done_with ks_name known s es ->
    let loop := fold_each us s (fun udt syncd_types =>
                  _sync_type' ks_name udt (Some syncd_types)) in
    result (loop c) = inr s' ->
    nested_first ks_name known es (emitted (loop c)).
Proof.
  induction us as [|u us IH]; intros Hknown s c es s' Hs loop Hr; subst loop; simpl in *.
  { apply nested_first_nil. }
  apply bind_inr_inv in Hr as (s1&Hr1&Hr2&_).
  rewrite (emitted_bind _ _ _ _ Hr1).
  assert (known u) as Hku by (apply Hknown; by left).
  apply nested_first_app.
  { by apply (sync_type_in_order ks_name known known_nested known_identity u Hku
                (Some s) c es s1). }
  destruct (sync_type_registers ks_name known known_nested known_identity u Hku
              (Some s) c es s1 Hs Hr1) as [_ Hd1].
  eapply IH; [|exact Hd1|exact Hr2]. intros v Hv. apply Hknown. by right.
Qed.

Lemma sync_column_types_in_order (cols : list Column) :
  (forall col u, col ∈ cols -> u ∈ udts col -> known u) ->
  forall s c es s',
    done_with ks_name known s es ->
    let loop := fold_each cols s (fun col syncd_types =>
                  let udts := udts col in
                  fold_each (filter (fun u => class_id u ∉ syncd_types) udts) syncd_types
                    (fun udt syncd_types => _sync_type' ks_name udt (Some syncd_types))) in
    result (loop c) = inr s' ->
    nested_first ks_name known es (emitted (loop c)).
Proof.
  induction cols as [|col cols IH]; intros Hknown s c es s' Hs loop Hr; subst loop;
    simpl in *.
  { apply nested_first_nil. }
  apply bind_inr_inv in Hr as (s1&Hr1&Hr2&_).
  rewrite (emitted_bind _ _ _ _ Hr1).
  assert (forall u, u ∈ filter (fun u => class_id u ∉ s) (udts col) -> known u) as Hkf.
  { intros u Hu. apply list_elem_of_filter in Hu as [_ Hu].
    by apply (Hknown col u (list_elem_of_here _ _)). }
  apply nested_first_app.
  { by apply (sync_listed_types_in_order _ Hkf s c es s1). }
  destruct (sync_listed_types_registers ks_name known known_nested known_identity
              (filter (fun u => class_id u ∉ s) (udts col)))
    with (s := s) (c := c) (es := es) (s' := s1) as [Hd1 _]; try done.
  eapply IH; [|exact Hd1|exact Hr2].
  intros col' u Hc Hu. apply (Hknown col' u); [by right|done].
Qed.

End TableOrder.

(** X26: When [sync_table] returns, each registration of a user type of the
    model comes after a registration of every user type nested in it:
    nested types first, also when a type is registered more than once. *)
Theorem sync_table_registers_nested_first (m : Model) c es1 es2 v f u w :
  (forall u v, model_type m u -> model_type m v -> class_id u = class_id v -> u = v) ->
  let r := sync_table' m c in
  result r = inr tt ->
  emitted r = (es1 ++ Registered (_get_keyspace m) (class_id v) :: es2)%list ->
  model_type m v -> f ∈ _fields v -> u ∈ udts f -> reachable u w ->
  Registered (_get_keyspace m) (class_id w) ∈ es1.
Proof.
  intros Hid r Hr Heq Hv Hf Hu Hw. subst r.
  destruct (sync_table_returns _ _ Hr) as (Hmodel&Habstract&km&Hkm).
  revert Hr Heq. unfold sync_table.
  destruct (allow_any_run os_getenv c) as (Hallow&Hc&_).
  rewrite (bind_inr _ _ _ _ Hallow), Hc. cbn [negb result emitted].
  rewrite Hmodel, Habstract. cbn [negb]. cbv zeta.
  rewrite bind_get_metadata, (bind_getitem _ _ _ _ _ Hkm).
  intros Hr Heq. apply bind_inr_inv in Hr as (s&Hr&_&_).
  rewrite (emitted_bind _ _ _ _ Hr) in Heq.
  assert (forall t f u, model_type m t -> f ∈ _fields t -> u ∈ udts f -> model_type m u)
    as Hnested.
  { intros t' f' u' (n'&c'&t0&?&?&?) Hf' Hu'. exists n', c', t0.
    split; [done|]. split; [done|]. by eapply reachable_nested_r. }
  match type of Heq with
  | (?ea ++ ?et ++ ?eb)%list = _ =>
      assert (nested_first (_get_keyspace m) (model_type m) [] (ea ++ et ++ eb)) as Horder
  end.
  { apply nested_first_app; [|apply nested_first_app].
    - apply nested_first_plain. intros k a Hin.
      clear -Hin. unfold _allow_schema_modification in Hin.
      destruct (os_getenv _) as [[|]|]; simpl in Hin;
        repeat (apply elem_of_cons in Hin as [?|Hin]; [done|]); inversion Hin.
    - unfold sync_column_types in Hr |- *.
      apply (sync_column_types_in_order (_get_keyspace m) (model_type m) Hnested Hid
               (_columns m).*2) with (s' := s); [| |done].
      + intros col' u' Hcol' Hu'. apply list_elem_of_fmap in Hcol' as ([n' c']&->&Hin).
        exists n', c', u'. split; [done|]. split; [done|]. apply reachable_self.
      + intros u' _ Hin. by apply not_elem_of_empty in Hin.
    - apply nested_first_plain. intros k a. apply registers_nothing_table. }
  specialize (Horder es1 (class_id v) es2 Heq v f u Hv eq_refl Hf Hu w Hw).
  done.
Qed.

(** ** The order of the statements of [sync_table] *)

Lemma executed_bind_split {A B} (m : M A) (f : A -> M B) c :
  exists rest,
    executed (emitted (bind m f c)) = (executed (emitted (m c)) ++ rest)%list /\
    (rest = [] \/
     exists a, rest = executed (emitted (f a (cluster_after (m c))))).
Proof.
  unfold bind. destruct (result (m c)) as [ex|a]; simpl.
  - exists []. by rewrite app_nil_r; split; [|left].
  - eexists. rewrite executed_app. split; [done|]. right. by exists a.
Qed.

(** X27: The statements of [sync_table] come in three groups, in this
    order: those about user types (CREATE TYPE, ALTER TYPE), then those
    about the table (CREATE TABLE, or ALTER TABLE), then the CREATE INDEX
    statements. *)
Theorem sync_table_statement_order (m : Model) c :
  exists types table indexes,
    executed (emitted (sync_table' m c)) = (types ++ table ++ indexes)%list /\
    Forall type_statement types /\
    Forall (fun s => creates_table s \/ alters_table s) table /\
    Forall creates_index indexes.
Proof.
  assert ((exists km, is_model m = true /\ __abstract__ m = false /\
             c !! _get_keyspace m = Some km) \/
          executed (emitted (sync_table' m c)) = []) as [(km&Hmodel&Habstract&Hkm)|Hnone].
  { unfold sync_table.
    match goal with
    | |- context [bind (_allow_schema_modification ?g) ?k ?c] =>
        destruct (bind_allow g k c) as (->&_&_)
    end. cbn [negb].
    destruct (is_model m); cbn [negb]; [|by right].
    destruct (__abstract__ m); [by right|].
    destruct (c !! _get_keyspace m) as [km|] eqn:Hkm; [left; eauto|right].
    cbv zeta. rewrite bind_get_metadata. by rewrite bind_getitem_None. }
  2:{ exists [], [], []. rewrite Hnone. by repeat split. }
  destruct (sync_table_steps m c km Hmodel Habstract Hkm) as (->&_&_).
  assert (safe type_statement (fun _ _ : Cluster => True)
            (sync_column_types exec refresh_user_type_metadata (_get_keyspace m) m))
    as Htypes.
  { unfold sync_column_types. ap safe_fold_each. intros col s _.
    ap safe_fold_each. intros udt s' _. by ap safe_sync_type. }
  assert (safe (fun s => creates_table s \/ alters_table s) (fun _ _ : Cluster => True)
            (match tables km !! _raw_column_family_name m with
             | None => create_table exec python m
             | Some table_meta => update_table json_loads exec dict_order m table_meta
             end)) as Htable.
  { destruct (tables km !! _raw_column_family_name m) as [tm|].
    - apply safe_update_table_by; intros; by right.
    - unfold create_table.
      ap safe_bind; [ap safe_log|]. intros _.
      ap safe_try_except; [ap safe_execute; [done|by left]|].
      intros ex. destruct ex; try ap safe_raise.
      ap safe_bind; [unfold unicode; destruct python; [ap safe_ret|ap safe_raise]|].
      intros text. destruct (negb _); [ap safe_raise|ap safe_ret]. }
  assert (safe creates_index (fun _ _ : Cluster => True) (sync_indexes exec m)) as Hindexes.
  { unfold sync_indexes.
    ap safe_bind; [ap safe_get_metadata|]. intros cluster.
    ap safe_bind; [ap safe_getitem|]. intros keyspace.
    ap safe_bind; [ap safe_getitem|]. intros table.
    ap safe_for_each. intros column _.
    case_bool_decide; [ap safe_ret|]. by ap safe_execute. }
  match goal with
  | |- context [bind ?types ?k c] =>
      destruct (executed_bind_split types k c) as (rest&->&Hrest)
  end.
  exists (executed
            (emitted (sync_column_types exec refresh_user_type_metadata
                        (_get_keyspace m) m c))).
  destruct Hrest as [->|(syncd&->)].
  { exists [], []. split; [done|]. split; [apply Htypes|]. by split. }
  match goal with
  | |- context [bind ?table ?k ?c1] =>
      destruct (executed_bind_split table k c1) as (rest&->&Hrest)
  end.
  eexists. destruct Hrest as [->|([]&->)].
  - exists []. split; [done|]. split; [apply Htypes|]. split; [apply Htable|done].
  - eexists. split; [done|]. split; [apply Htypes|].
    split; [apply Htable|apply Hindexes].
Qed.

(** ** A user type without nested types *)

Lemma sync_subtypes_flat (rec : UserType -> option (gset nat) -> M (gset nat))
    fields s c :
  (forall f, f ∈ fields -> udts f = []) ->
  sync_subtypes rec fields s c = mkRun [] c (inr s).
Proof.
  induction fields as [|f fields IH]; intros Hflat; simpl; [done|].
  rewrite (Hflat f) by (by left). simpl.
  rewrite bind_ret. apply IH. intros f' Hf'. apply Hflat. by right.
Qed.

Lemma add_fields_exact ks_name (t : UserType) (defined_fields : list string) fields
    (model_fields : gset string) c s :
  let loop :=
    fold_each fields model_fields (fun field (model_fields : gset string) =>
      let model_fields := {[db_field_name field]} ∪ model_fields in
      if bool_decide (db_field_name field ∉ defined_fields) then
        bind (execute exec (AlterTypeAdd ks_name (type_name t) field))
          (fun _ => ret model_fields)
      else ret model_fields) in
  result (loop c) = inr s ->
  executed (emitted (loop c)) =
  AlterTypeAdd ks_name (type_name t)
    <$> filter (fun f => db_field_name f ∉ defined_fields) fields.
Proof.
  intros loop. subst loop. revert model_fields c.
  induction fields as [|f fields IH]; intros mf c Hr; simpl in *; [done|].
  apply bind_inr_inv in Hr as (s1&Hbody&Hrest&_).
  rewrite (bind_inr _ _ _ _ Hbody). cbn [emitted].
  rewrite executed_app, (IH _ _ Hrest).
  rewrite filter_cons.
  destruct (decide (db_field_name f ∉ defined_fields)) as [Hnew|Hold].
  - rewrite bool_decide_eq_true_2 by done.
    unfold bind, execute. destruct (exec _ c) as [c' [ex|]]; done.
  - rewrite bool_decide_eq_false_2 by done. done.
Qed.

Lemma sync_type_flat ks_name (t : UserType) o c :
  (forall f, f ∈ _fields t -> udts f = []) ->
  _sync_type' ks_name t o c =
  bind (sync_one_type' ks_name t) (fun _ => ret (default ∅ o)) c.
Proof.
  intros Hflat. rewrite sync_type_unfold.
  rewrite (bind_run _ _ _ _ _ _ (sync_subtypes_flat _ _ _ _ Hflat)).
  cbn [app]. rewrite <- run_eta. by destruct (shared_with_caller o).
Qed.

(** X28: For a user type without nested user types, in a keyspace that
    the metadata list, a call of [sync_type] that returns has executed
    exactly: the CREATE TYPE, when the type is not live; otherwise one
    ALTER TYPE ... ADD for each declared field whose name is not among
    the live field names read at the start, in the order of the
    declaration, and nothing when there is none. *)
Theorem sync_type_flat_statements ks_name (t : UserType) c km :
  (forall f, f ∈ _fields t -> udts f = []) ->
  c !! ks_name = Some km ->
  let r := sync_type exec refresh_user_type_metadata os_getenv ks_name t c in
  result r = inr tt ->
  executed (emitted r) =
  match user_types km !! type_name t with
  | None => [CreateType ks_name t]
  | Some defined_fields =>
      AlterTypeAdd ks_name (type_name t)
        <$> filter (fun f => db_field_name f ∉ defined_fields) (_fields t)
  end.
Proof.
  intros Hflat Hkm r. subst r. unfold sync_type.
  match goal with
  | |- context [bind (_allow_schema_modification ?g) ?k ?c] =>
      destruct (bind_allow g k c) as (->&_&->)
  end. cbn [negb].
  intros Hr. apply bind_inr_inv in Hr as (s&Hr&_&_).
  rewrite (bind_inr _ _ _ _ Hr). cbn [emitted]. rewrite executed_app. simpl.
  rewrite app_nil_r. revert Hr. rewrite (sync_type_flat _ _ _ _ Hflat).
  intros Hr. apply bind_inr_inv in Hr as ([]&Hr&_&_).
  rewrite (bind_inr _ _ _ _ Hr). cbn [emitted]. rewrite executed_app. simpl.
  rewrite app_nil_r.
  revert Hr. unfold sync_one_type.
  rewrite bind_get_metadata, (bind_getitem _ _ _ _ _ Hkm).
  destruct (user_types km !! type_name t) as [fns|] eqn:Hfns.
  - intros Hr. apply bind_inr_inv in Hr as (mf&Hloop&_&_).
    rewrite (bind_inr _ _ _ _ Hloop). cbn [emitted]. rewrite executed_app.
    pose proof (add_fields_exact ks_name t fns _ _ _ _ Hloop) as Hexact.
    cbv zeta in Hexact. rewrite Hexact.
    rewrite bind_emit. simpl. repeat case_bool_decide; simpl; by rewrite app_nil_r.
  - unfold log. rewrite bind_emit. simpl. intros Hr.
    apply bind_inr_inv in Hr as ([]&Hexec&_&_).
    rewrite (bind_inr _ _ _ _ Hexec). cbn [emitted].
    unfold execute in *. destruct (exec _ c) as [c' [ex|]]; done.
Qed.

End Runs.

(** * The reference cluster does what it is told *)

Section ReferenceCluster.

Import Reference.

Lemma with_keyspace_cases k c f :
  (exists ex, with_keyspace k c f = (c, Some ex)) \/
  (exists km km', c !! k = Some km /\ f km = inr km' /\
     with_keyspace k c f = (<[k := km']> c, None)).
Proof.
  unfold with_keyspace. destruct (c !! k) as [km|]; [|eauto].
  destruct (f km) as [ex|km'] eqn:Hf; eauto 10.
Qed.

Lemma with_table_cases cf c f :
  (exists ex, with_table cf c f = (c, Some ex)) \/
  (exists k raw km tm tm',
     split_qualified cf = Some (k, raw) /\ c !! k = Some km /\
     tables km !! raw = Some tm /\ f tm = inr tm' /\
     with_table cf c f =
       (<[k := mkKeyspaceMetadata (<[raw := tm']> (tables km)) (user_types km)]> c, None)).
Proof.
  unfold with_table. destruct (split_qualified cf) as [[k raw]|]; [|eauto].
  match goal with |- context [with_keyspace k c ?g] =>
    destruct (with_keyspace_cases k c g) as [[ex ->]|(km&km'&Hkm&Hg&->)] end; [eauto|].
  right. destruct (tables km !! raw) as [tm|] eqn:Htm; [|done].
  destruct (f tm) as [ex|tm'] eqn:Hf; [done|]. injection Hg as <-.
  exists k, raw, km, tm, tm'. done.
Qed.

Lemma insert_keyspace_le k km km' (c : Cluster) :
  c !! k = Some km -> keyspace_le km km' -> cluster_le c (<[k := km']> c).
Proof.
  intros Hkm Hle k0 km0 Hk0. destruct (decide (k = k0)) as [<-|Hne].
  - exists km'. rewrite lookup_insert_eq. split; [done|]. congruence.
  - exists km0. rewrite lookup_insert_ne by done. split; [done|reflexivity].
Qed.

Lemma insert_table_le raw tm tm' km :
  tables km !! raw = Some tm -> table_le tm tm' ->
  keyspace_le km (mkKeyspaceMetadata (<[raw := tm']> (tables km)) (user_types km)).
Proof.
  intros Htm Hle. split; simpl.
  - intros t fns Ht. exists fns. by split.
  - intros n tm0 Hn. destruct (decide (raw = n)) as [<-|Hne].
    + exists tm'. rewrite lookup_insert_eq. split; [done|]. congruence.
    + exists tm0. rewrite lookup_insert_ne by done. split; [done|reflexivity].
Qed.

Lemma with_table_le cf c f :
  (forall tm tm', f tm = inr tm' -> table_le tm tm') ->
  cluster_le c (with_table cf c f).1.
Proof.
  intros Hf. destruct (with_table_cases cf c f)
    as [[ex ->]|(k&raw&km&tm&tm'&_&Hkm&Htm&Hftm&->)]; simpl; [reflexivity|].
  eapply insert_keyspace_le; [done|]. eapply insert_table_le; [done|]. by apply Hf.
Qed.

Lemma non_pk_app_le tm name :
  _get_non_pk_field_names tm ⊆
  _get_non_pk_field_names
    {| tm_columns := (tm_columns tm ++ [name])%list;
       tm_primary_key := tm_primary_key tm;
       tm_option_strings := tm_option_strings tm;
       tm_indexes := tm_indexes tm |}.
Proof.
  unfold _get_non_pk_field_names. simpl. intros x Hx.
  rewrite filter_app. apply elem_of_app. by left.
Qed.

(** Every statement of a synchronisation keeps what is live. *)
Lemma reference_exec_grows (s : @stmt jatom) c :
  kind_of s <> Drop -> cluster_le c (exec s c).1.
Proof.
  intros Hkind. destruct s as [name ? ? ?| |k t|k tn f|m'|cf col|cf upd|idx cf fn|];
    try done; simpl.
  - case_bool_decide as Hin; simpl; [reflexivity|].
    intros k0 km0 Hk0. exists km0. split; [|reflexivity].
    rewrite lookup_insert_ne; [done|]. intros ->. apply Hin, elem_of_dom. eauto.
  - match goal with |- context [with_keyspace k c ?g] =>
      destruct (with_keyspace_cases k c g) as [[ex ->]|(km&km'&Hkm&Hg&->)] end;
      simpl; [reflexivity|].
    eapply insert_keyspace_le; [done|].
    destruct (user_types km !! type_name t) eqn:Ht; [done|]. injection Hg as <-.
    split; simpl.
    + intros t0 fns Ht0. exists fns. split; [|done].
      rewrite lookup_insert_ne; [done|]. congruence.
    + intros n tm Hn. exists tm. split; [done|reflexivity].
  - match goal with |- context [with_keyspace k c ?g] =>
      destruct (with_keyspace_cases k c g) as [[ex ->]|(km&km'&Hkm&Hg&->)] end;
      simpl; [reflexivity|].
    eapply insert_keyspace_le; [done|].
    destruct (user_types km !! tn) as [fns|] eqn:Ht; [|done].
    case_bool_decide; [done|]. injection Hg as <-.
    split; simpl.
    + intros t0 fns0 Ht0. destruct (decide (tn = t0)) as [<-|Hne].
      * exists (fns ++ [db_field_name f])%list. rewrite lookup_insert_eq. split; [done|].
        assert (fns0 = fns) as -> by congruence. intros x Hx. apply elem_of_app. by left.
      * exists fns0. rewrite lookup_insert_ne by done. done.
    + intros n tm Hn. exists tm. split; [done|reflexivity].
  - destruct (split_qualified (column_family_name m')) as [[k raw]|]; simpl; [|reflexivity].
    match goal with |- context [with_keyspace k c ?g] =>
      destruct (with_keyspace_cases k c g) as [[ex ->]|(km&km'&Hkm&Hg&->)] end;
      simpl; [reflexivity|].
    eapply insert_keyspace_le; [done|].
    destruct (tables km !! raw) eqn:Ht; [done|].
    destruct (new_options _) as [ex|strings]; [done|].
    case_bool_decide; [|done]. injection Hg as <-.
    split; simpl.
    + intros t0 fns Ht0. exists fns. done.
    + intros n tm Hn. exists tm. split; [|reflexivity].
      rewrite lookup_insert_ne; [done|]. congruence.
  - apply with_table_le. intros tm tm'. case_bool_decide; [done|]. intros [= <-].
    split; simpl; [|split; [apply non_pk_app_le|done]].
    intros x Hx. apply elem_of_app. by left.
  - apply with_table_le. intros tm tm'.
    destruct (_options_map_from_strings _ _); [done|].
    destruct (store_options _); [done|]. intros [= <-]. done.
  - apply with_table_le. intros tm tm'. case_bool_decide; [done|]. intros [= <-].
    split; [done|]. split; [done|]. simpl. set_solver.
Qed.

(** A statement that fails changes nothing. *)
Lemma reference_exec_failure (s : @stmt jatom) c c' ex :
  exec s c = (c', Some ex) -> c' = c.
Proof.
  destruct s as [name ? ? ?|name|k t|k tn f|m'|cf col|cf upd|idx cf fn|cf]; simpl.
  - case_bool_decide; by intros [= <-].
  - case_bool_decide; by intros [= <-].
  - match goal with |- context [with_keyspace k c ?g] =>
      destruct (with_keyspace_cases k c g) as [[ex' ->]|(km&km'&Hkm&Hg&->)] end;
      by intros [= <-].
  - match goal with |- context [with_keyspace k c ?g] =>
      destruct (with_keyspace_cases k c g) as [[ex' ->]|(km&km'&Hkm&Hg&->)] end;
      by intros [= <-].
  - destruct (split_qualified (column_family_name m')) as [[k raw]|]; [|by intros [= <-]].
    match goal with |- context [with_keyspace k c ?g] =>
      destruct (with_keyspace_cases k c g) as [[ex' ->]|(km&km'&Hkm&Hg&->)] end;
      by intros [= <-].
  - match goal with |- context [with_table cf c ?g] =>
      destruct (with_table_cases cf c g) as [[ex' ->]|(?&?&?&?&?&_&_&_&_&->)] end;
      by intros [= <-].
  - match goal with |- context [with_table cf c ?g] =>
      destruct (with_table_cases cf c g) as [[ex' ->]|(?&?&?&?&?&_&_&_&_&->)] end;
      by intros [= <-].
  - match goal with |- context [with_table cf c ?g] =>
      destruct (with_table_cases cf c g) as [[ex' ->]|(?&?&?&?&?&_&_&_&_&->)] end;
      by intros [= <-].
  - destruct (split_qualified cf) as [[k raw]|]; [|by intros [= <-]].
    match goal with |- context [with_keyspace k c ?g] =>
      destruct (with_keyspace_cases k c g) as [[ex' ->]|(km&km'&Hkm&Hg&->)] end;
      by intros [= <-].
Qed.

(** A statement about a user type leaves the tables alone. *)
Lemma reference_exec_type_tables (s : @stmt jatom) c :
  type_statement s -> same_tables c (exec s c).1.
Proof.
  destruct s as [| |k t|k tn f| | | | |]; try done; intros _; simpl;
    match goal with |- context [with_keyspace k c ?g] =>
      destruct (with_keyspace_cases k c g) as [[ex' ->]|(km&km'&Hkm&Hg&->)] end;
    simpl; try reflexivity; intros k0;
    (destruct (decide (k = k0)) as [<-|Hne];
       [rewrite lookup_insert_eq, Hkm; simpl; f_equal
       |by rewrite lookup_insert_ne by done]).
  - destruct (user_types km !! type_name t); [done|]. by injection Hg as <-.
  - destruct (user_types km !! tn); [|done]. case_bool_decide; [done|].
    by injection Hg as <-.
Qed.

Lemma store_options_read options strings :
  store_options options = inr strings ->
  _options_map_from_strings json_loads strings = inr options.
Proof. unfold store_options. case_bool_decide; [|done]. by intros [= <-]. Qed.

Lemma NoDup_fmap_eq {A B} (f : A -> B) (l : list A) x y :
  NoDup (f <$> l) -> x ∈ l -> y ∈ l -> f x = f y -> x = y.
Proof.
  induction l as [|a l IH]; intros Hnd Hx Hy Hf; [inversion Hx|].
  simpl in Hnd. apply NoDup_cons in Hnd as [Ha Hnd].
  apply elem_of_cons in Hx as [->|Hx]; apply elem_of_cons in Hy as [->|Hy]; try done.
  - destruct Ha. rewrite Hf. by apply list_elem_of_fmap_2.
  - destruct Ha. rewrite <- Hf. by apply list_elem_of_fmap_2.
  - by apply IH.
Qed.

Lemma options_met_subseteq (mo eo : gmap string (@optval jatom)) :
  mo ⊆ eo -> options_met eo mo.
Proof.
  intros Hsub name value Hname. exists value. split; [by eapply lookup_weaken|].
  destruct value; simpl; reflexivity.
Qed.

Section Model.

Variable m : Model.
Hypothesis qualified :
  split_qualified (column_family_name m) =
  Some (_get_keyspace m, _raw_column_family_name m).

Lemma with_table_live c f c' :
  with_table (column_family_name m) c f = (c', None) ->
  exists tm tm', live_table c m = Some tm /\ f tm = inr tm' /\
    live_table c' m = Some tm'.
Proof.
  destruct (with_table_cases (column_family_name m) c f)
    as [[ex ->]|(k&raw&km&tm&tm'&Hq&Hkm&Htm&Hf&->)]; [done|].
  rewrite qualified in Hq. injection Hq as <- <-. intros [= <-].
  exists tm, tm'. unfold live_table. rewrite Hkm, lookup_insert_eq. simpl.
  by rewrite lookup_insert_eq.
Qed.

(** The reference cluster honours the contract for every table model
    whose qualified name is "keyspace.table". *)
Lemma reference_faithful : faithful json_loads exec refresh_user_type_metadata m.
Proof.
  split.
  - intros s c Hs. apply reference_exec_grows. by destruct s.
  - intros k t c. reflexivity.
  - intros s c Hs. by apply reference_exec_type_tables.
  - intros k t c. reflexivity.
  - intros t c c'. simpl.
    match goal with |- context [with_keyspace ?k c ?g] =>
      destruct (with_keyspace_cases k c g) as [[ex' ->]|(km&km'&Hkm&Hg&->)] end; [done|].
    intros [= <-]. destruct (user_types km !! type_name t) eqn:Ht; [done|].
    injection Hg as <-. eexists _, _. rewrite lookup_insert_eq. split; [done|]. simpl.
    rewrite lookup_insert_eq. split; [done|]. intros f Hf. by apply list_elem_of_fmap_2.
  - intros tn f c c'. simpl.
    match goal with |- context [with_keyspace ?k c ?g] =>
      destruct (with_keyspace_cases k c g) as [[ex' ->]|(km&km'&Hkm&Hg&->)] end; [done|].
    intros [= <-]. destruct (user_types km !! tn) as [fns|] eqn:Ht; [|done].
    case_bool_decide; [done|]. injection Hg as <-.
    eexists _, _. rewrite lookup_insert_eq. split; [done|]. simpl.
    rewrite lookup_insert_eq. split; [done|]. apply elem_of_app. right. by left.
  - intros c c' [ex|] tm Hexec Hnone.
    { apply reference_exec_failure in Hexec as ->. congruence. }
    revert Hexec. simpl. rewrite qualified.
    match goal with |- context [with_keyspace ?k c ?g] =>
      destruct (with_keyspace_cases k c g) as [[ex' ->]|(km&km'&Hkm&Hg&->)] end; [done|].
    intros [= <-]. destruct (tables km !! _raw_column_family_name m) eqn:Ht; [done|].
    destruct (new_options (model_option_strings m)) as [ex|strings] eqn:Hnew; [done|].
    case_bool_decide as Hnd; [|done]. injection Hg as <-.
    unfold live_table. rewrite lookup_insert_eq. simpl. rewrite lookup_insert_eq.
    intros [= <-]. split.
    + intros name col Hin Hpk. unfold _get_non_pk_field_names.
      apply list_elem_of_filter. split.
      * simpl. intros Hkey. apply list_elem_of_fmap in Hkey as (col'&Heq&Hcol').
        apply list_elem_of_filter in Hcol' as [Hprimary Hcol'].
        assert (col ∈ (_columns m).*2) as Hcol
          by (by apply (list_elem_of_fmap_2 snd _ (name, col))).
        assert (col = col') as <- by (by eapply (NoDup_fmap_eq db_field_name)).
        apply orb_false_elim in Hpk as [? _]. congruence.
      * simpl. apply list_elem_of_fmap_2.
        by apply (list_elem_of_fmap_2 snd _ (name, col)).
    + intros mo eo Hmo Heo. simpl in Heo. unfold new_options in Hnew.
      destruct (_options_map_from_strings json_loads default_option_strings)
        as [ex|defaults]; [done|].
      rewrite Hmo in Hnew. apply store_options_read in Hnew.
      assert (eo = mo ∪ defaults) as -> by congruence.
      apply options_met_subseteq, map_union_subseteq_l.
  - intros col c c' Hexec. simpl in Hexec.
    apply with_table_live in Hexec as (tm&tm'&Htm&Hf&Htm').
    exists tm'. split; [done|]. case_bool_decide as Hold; [done|]. injection Hf as <-.
    unfold _get_non_pk_field_names. simpl. apply list_elem_of_filter. split.
    + intros Hkey. apply Hold. by right.
    + apply elem_of_app. right. by left.
  - intros upd c c' tm tm' eo eo' Hexec Htm Heo Htm' Heo'. simpl in Hexec.
    apply with_table_live in Hexec as (tm0&tm0'&Htm0&Hf&Htm0').
    assert (tm0 = tm) as -> by congruence. assert (tm0' = tm') as -> by congruence.
    rewrite Heo in Hf.
    destruct (store_options (upd ∪ eo)) as [ex|strings] eqn:Hstore; [done|].
    injection Hf as <-. apply store_options_read in Hstore. simpl in Heo'.
    assert (eo' = upd ∪ eo) as -> by congruence. split.
    + apply options_met_subseteq, map_union_subseteq_l.
    + intros name Hname. by apply lookup_union_r.
  - intros idx fn c c' Hexec. simpl in Hexec.
    apply with_table_live in Hexec as (tm&tm'&Htm&Hf&Htm').
    exists tm'. split; [done|]. case_bool_decide; [done|]. injection Hf as <-.
    split; [simpl; set_solver|]. intros tm0 Htm0. simpl. congruence.
Qed.

End Model.

End ReferenceCluster.

(** * The code on examples *)

Section Examples.

Import Reference.

Abbreviation sync_table_ref :=
  (sync_table json_loads exec refresh_user_type_metadata os_getenv Python3 dict_order).

(** ** Facts by evaluation *)

Lemma default_options_read :
  _options_map_from_strings json_loads default_option_strings = inr default_options.
Proof. vm_compute. reflexivity. Qed.

Lemma foo_read :
  _options_map_from_strings json_loads ["foo = 1"] = inr {[ "foo" := OptStr "1" ]}.
Proof. vm_compute. reflexivity. Qed.

Lemma bar_foo_read :
  _options_map_from_strings json_loads ["bar = 2"; "foo = 1"] =
  inr {[ "bar" := OptStr "2"; "foo" := OptStr "1" ]}.
Proof. vm_compute. reflexivity. Qed.

Lemma old_users_live m :
  _get_keyspace m = "ks" -> _raw_column_family_name m = "users" ->
  live_table old_users m = Some old_users_table.
Proof. unfold live_table. intros -> ->. vm_compute. reflexivity. Qed.


Lemma empty_keyspace_types :
  result (sync_column_types (racing_exec (CQLEngineException already_exists))
            refresh_user_type_metadata "ks" users empty_keyspace) = inr ∅.
Proof. vm_compute. reflexivity. Qed.

Lemma create_users_text :
  _get_create_table users =
  "CREATE TABLE ks.users (id uuid, email text, owner frozen<person>, "
  ++ "backup frozen<person>, PRIMARY KEY ((" ++ quoted "id" ++ "))) "
  ++ "WITH gc_grace_seconds = 3600".
Proof. vm_compute. reflexivity. Qed.

(** ** The theorems on the examples *)

(** C5, on a live table that lacks the key column of the model. *)
Lemma sync_table_never_adds_key_column_witness :
  (primary_key id_column || partition_key id_column)%bool = true /\
  AlterTableAdd "ks.users" id_column ∉ executed (emitted (sync_users keyless_users)).
Proof.
  split; [reflexivity|].
  exact (sync_table_never_adds_key_column json_loads exec refresh_user_type_metadata
           os_getenv Python3 dict_order users keyless_users id_column "ks.users" eq_refl).
Defined.


(** C10, on a live dictionary and a desired string. *)
Lemma option_diff_shape_mismatch_witness :
  let desired : gmap string (@optval jatom) := {[ "compaction" := OptStr "Leveled" ]} in
  desired !! "compaction" = Some (OptStr "Leveled") /\
  live_options !! "compaction" =
    Some (OptDict {[ "class" := JString "LeveledCompactionStrategy";
                     "sstable_size_in_mb" := JLiteral "160" ]}) /\
  exists ex, option_diff desired live_options = inl ex.
Proof.
  intros desired.
  assert (desired !! "compaction" = Some (OptStr "Leveled")) as Hd
    by (vm_compute; reflexivity).
  assert (live_options !! "compaction" =
    Some (OptDict {[ "class" := JString "LeveledCompactionStrategy";
                     "sstable_size_in_mb" := JLiteral "160" ]})) as Hl
    by (vm_compute; reflexivity).
  split; [exact Hd|]. split; [exact Hl|].
  exact (proj1 (proj2 (option_diff_shape_mismatch desired live_options _ _ _ Hd Hl))).
Defined.

(** C9: a live type with the field [x] and a declared type of the same
    name with the field [y] have one field each.  [_sync_type] executes
    ALTER TYPE ... ADD y and then logs that the type did not require
    synchronization. *)
Theorem sync_type_equal_count_alters :
  let r := _sync_type exec refresh_user_type_metadata "ks" point None old_point in
  emitted r =
    [ Executed (AlterTypeAdd "ks" "point" (mkColumn "y" false false false "y int" None []));
      Registered "ks" 3;
      Logged Info "Type %s did not require synchronization" ["ks.point"] ] /\
  result r = inr ∅.
Proof. vm_compute. split; reflexivity. Qed.

(** With the declared fields [x] and [y], the field [y] is added and the
    live type has the two declared fields; the count taken before the
    pass is compared, and [y] is logged as a field that the model does
    not reference. *)
Lemma sync_type_logs_added_field :
  let r := _sync_type exec refresh_user_type_metadata "ks" point_xy None old_point in
  emitted r =
    [ Executed (AlterTypeAdd "ks" "point" (mkColumn "y" false false false "y int" None []));
      Registered "ks" 4;
      Logged Info "Type %s has fields not referenced by model: %s" ["ks.point"; "y"] ] /\
  (cluster_after r !! "ks") ≫= (fun keyspace => user_types keyspace !! "point") =
    Some ["x"; "y"].
Proof. vm_compute. split; reflexivity. Qed.

(** C2: the model [users] has two columns of the user type [person]
    (class 2), which has a field of the user type [address] (class 1).
    [sync_table] synchronises both types once for each of the two
    columns. *)
Theorem sync_table_repeats_types :
  registered (emitted (sync_users empty_keyspace)) = [1; 2; 1; 2]%nat.
Proof. vm_compute. reflexivity. Qed.

(** C8: a quoted comment with braces in it is read as a dictionary,
    where the specification keeps it as a string. *)
Lemma decode_option_leading_brace_counterexample :
  decode_option json_loads "comment = 'see{}docs'" = inr ("comment", OptDict ∅) /\
  decode_option_by_leading_brace json_loads "comment = 'see{}docs'" =
    inr ("comment", OptStr "'see{}docs'").
Proof. split; vm_compute; reflexivity. Qed.

Lemma decode_option_by_first_brace_witness :
  PyStr.contains "=" "comment " = false /\
  PyStr.contains "=" " 'see{}docs'" = false /\
  decode_option json_loads ("comment " ++ "=" ++ " 'see{}docs'") =
    match json_loads (PyStr.replace PyStr.squote PyStr.dquote ("{" ++ "" ++ "}")) with
    | Some d => inr (PyStr.strip "comment ", OptDict d)
    | None =>
        inl (JSONDecodeError (PyStr.replace PyStr.squote PyStr.dquote ("{" ++ "" ++ "}")))
    end.
Proof.
  split; [reflexivity|]. split; [reflexivity|].
  exact (proj1 (proj2 (decode_option_by_first_brace json_loads "comment " " 'see{}docs'"
                         eq_refl eq_refl))
           " 'see" "" "docs'" eq_refl eq_refl eq_refl).
Defined.

(** C6: two desired options that the live table does not have, in the
    order in which the options of a model are rendered; the error names
    the first one, and cannot name both. *)
Lemma update_options_unknown_option_counterexample :
  let m := users_with ["bar = 2"; "foo = 1"] in
  let mo : gmap string (@optval jatom) := {[ "bar" := OptStr "2"; "foo" := OptStr "1" ]} in
  let r := _update_options json_loads exec dict_order m old_users in
  live_table old_users m = Some old_users_table /\
  _options_map_from_strings json_loads (tm_option_strings old_users_table) =
    inr default_options /\
  _options_map_from_strings json_loads (model_option_strings m) = inr mo /\
  result r = inl (InvalidTableOption "bar" ["comment"; "gc_grace_seconds"; "compaction"]) /\
  ~ (forall name, is_Some (mo !! name) -> default_options !! name = None ->
       exists known, result r = inl (InvalidTableOption name known)).
Proof.
  intros m mo r.
  split; [by apply old_users_live|]. split; [exact default_options_read|].
  split; [exact bar_foo_read|].
  assert (result r =
          inl (InvalidTableOption "bar" ["comment"; "gc_grace_seconds"; "compaction"]))
    as Hbar by (vm_compute; reflexivity).
  split; [exact Hbar|].
  intros Hnamed.
  destruct (Hnamed "foo") as [known Hfoo]; [by vm_compute; eauto|by vm_compute|].
  rewrite Hfoo in Hbar. discriminate.
Qed.

Lemma update_options_unknown_option_witness :
  let m := users_with ["bar = 2"; "foo = 1"] in
  let mo : gmap string (@optval jatom) := {[ "bar" := OptStr "2"; "foo" := OptStr "1" ]} in
  let r := _update_options json_loads exec dict_order m old_users in
  live_table old_users m = Some old_users_table /\
  _options_map_from_strings json_loads (tm_option_strings old_users_table) =
    inr default_options /\
  _options_map_from_strings json_loads (model_option_strings m) = inr mo /\
  is_Some (mo !! "foo") /\ default_options !! "foo" = None /\
  executed (emitted r) = [] /\ cluster_after r = old_users.
Proof.
  intros m mo r.
  assert (is_Some (mo !! "foo")) as Hfoo by (vm_compute; eauto).
  assert (default_options !! "foo" = None) as Hnone by (vm_compute; reflexivity).
  destruct (update_options_unknown_option json_loads exec dict_order m old_users _ _ _ "foo"
              (old_users_live m eq_refl eq_refl) default_options_read bar_foo_read
              Hfoo Hnone) as (Hquiet&Hsame&_).
  split; [exact (old_users_live m eq_refl eq_refl)|].
  split; [exact default_options_read|]. split; [exact bar_foo_read|].
  split; [exact Hfoo|]. split; [exact Hnone|]. split; [exact Hquiet|exact Hsame].
Defined.

(** On Python 2, a failure of another class with the same message is
    not swallowed, and the [CQLEngineException] with that message is. *)
Lemma sync_table_other_class_python2 :
  let ex := DriverError "InvalidRequest" already_exists in
  PyStr.contains already_exists_message already_exists = true /\
  result (sync_table json_loads (racing_exec ex) refresh_user_type_metadata os_getenv
            Python2 dict_order users empty_keyspace) = inl ex.
Proof. split; vm_compute; reflexivity. Qed.

Lemma sync_table_swallows_python2 :
  let ex := CQLEngineException already_exists in
  let types :=
    sync_column_types (racing_exec ex) refresh_user_type_metadata "ks" users empty_keyspace in
  let c' := (exec (CreateTable users) (cluster_after types)).1 in
  result (sync_table json_loads (racing_exec ex) refresh_user_type_metadata os_getenv
            Python2 dict_order users empty_keyspace) =
  result (sync_indexes (racing_exec ex) users c').
Proof.
  intros ex types c'.
  assert (empty_keyspace !! "ks" = Some no_types) as Hks by (vm_compute; reflexivity).
  assert (tables no_types !! "users" = None) as Htable by (vm_compute; reflexivity).
  refine (proj1 (proj1 (sync_table_create_failure_python2 json_loads (racing_exec ex)
            refresh_user_type_metadata os_getenv Python2 dict_order users empty_keyspace c'
            no_types ∅ ex eq_refl eq_refl eq_refl Hks Htable empty_keyspace_types eq_refl) _)).
  exists already_exists. split; [reflexivity|vm_compute; reflexivity].
Qed.

(** C7, on Python 3 and the race on table creation: the CREATE TABLE of
    [users] fails with "Cannot add already existing column family users
    to keyspace ks", and [sync_table] raises [NameError]. *)
Lemma sync_table_create_failure_witness :
  let ex := CQLEngineException already_exists in
  let types :=
    sync_column_types (racing_exec ex) refresh_user_type_metadata "ks" users empty_keyspace in
  let c' := (exec (CreateTable users) (cluster_after types)).1 in
  let r := sync_table json_loads (racing_exec ex) refresh_user_type_metadata os_getenv
             Python3 dict_order users empty_keyspace in
  PyStr.contains already_exists_message already_exists = true /\
  empty_keyspace !! "ks" = Some no_types /\
  tables no_types !! "users" = None /\
  result types = inr ∅ /\
  racing_exec ex (CreateTable users) (cluster_after types) = (c', Some ex) /\
  result r = inl (NameError "unicode") /\
  cluster_after r = c' /\
  executed (emitted r) = (executed (emitted types) ++ [CreateTable users])%list.
Proof.
  intros ex types c' r.
  assert (empty_keyspace !! "ks" = Some no_types) as Hks by (vm_compute; reflexivity).
  assert (tables no_types !! "users" = None) as Htable by (vm_compute; reflexivity).
  split; [vm_compute; reflexivity|].
  split; [exact Hks|]. split; [exact Htable|]. split; [exact empty_keyspace_types|].
  split; [reflexivity|].
  exact (sync_table_create_failure json_loads (racing_exec ex)
           refresh_user_type_metadata os_getenv Python3 dict_order users empty_keyspace c'
           no_types ∅ ex eq_refl eq_refl eq_refl Hks Htable empty_keyspace_types eq_refl).
Defined.

(** C3, on the reference cluster and a live table with its key column
    only. *)
Lemma sync_table_is_additive_witness :
  (forall s c, sync_statement users s -> cluster_le c (exec s c).1) /\
  (forall ks t c, cluster_le c (refresh_user_type_metadata ks t c)) /\
  live_table old_users users = Some old_users_table /\
  exists tm', live_table (cluster_after (sync_users old_users)) users = Some tm' /\
    tm_columns old_users_table ⊆ tm_columns tm' /\
    tm_indexes old_users_table ⊆ tm_indexes tm'.
Proof.
  pose proof (reference_faithful users eq_refl) as Hfaithful.
  split; [exact (f_monotone _ _ _ _ Hfaithful)|].
  split; [exact (f_refresh _ _ _ _ Hfaithful)|].
  split; [exact (old_users_live users eq_refl eq_refl)|].
  exact (proj2 (proj2 (sync_table_is_additive json_loads exec refresh_user_type_metadata
                         os_getenv Python3 dict_order users old_users
                         (f_monotone _ _ _ _ Hfaithful) (f_refresh _ _ _ _ Hfaithful)))
           old_users_table (old_users_live users eq_refl eq_refl)).
Defined.

Lemma sync_users_returns : result (sync_users old_users) = inr tt.
Proof. vm_compute. reflexivity. Qed.

(** C1, on the reference cluster and a live table with its key column
    only: the first run adds the types, the columns, the option and the
    index, the second run executes nothing. *)
Lemma sync_table_idempotent_witness :
  faithful json_loads exec refresh_user_type_metadata users /\
  result (sync_users old_users) = inr tt /\
  executed (emitted (sync_users (cluster_after (sync_users old_users)))) = [].
Proof.
  split; [exact (reference_faithful users eq_refl)|].
  split; [exact sync_users_returns|].
  exact (sync_table_idempotent json_loads exec refresh_user_type_metadata os_getenv
           Python3 dict_order users old_users (reference_faithful users eq_refl)
           sync_users_returns).
Defined.

(** C1: two clusters on which the second run has work to do.  On the
    first one, with Python 2, another client that knows an older
    declaration creates the table while [sync_table] runs: CREATE TABLE
    fails as already existing, which is swallowed, and the second run
    adds the three columns and alters the option.  On the second one the
    metadata do not show what the statements have done: the second run
    executes the statements of the first once more. *)
Lemma sync_table_idempotent_counterexample :
  let race := late_exec (CQLEngineException already_exists) in
  let sync_table_race :=
    sync_table json_loads race refresh_user_type_metadata os_getenv Python2 dict_order in
  let sync_table_stale :=
    sync_table json_loads forgetful_exec refresh_user_type_metadata os_getenv Python3
      dict_order in
  let person_column name :=
    mkColumn name false false false (name ++ " frozen<person>") None [person] in
  (result (sync_table_race users empty_keyspace) = inr tt /\
   executed (emitted (sync_table_race users
                        (cluster_after (sync_table_race users empty_keyspace)))) =
     [ AlterTableAdd "ks.users" email_column;
       AlterTableAdd "ks.users" (person_column "owner");
       AlterTableAdd "ks.users" (person_column "backup");
       AlterTableWith "ks.users" changed_options ]) /\
  (result (sync_table_stale users old_users) = inr tt /\
   cluster_after (sync_table_stale users old_users) = old_users /\
   executed (emitted (sync_table_stale users old_users)) =
     [ CreateType "ks" address; CreateType "ks" person;
       CreateType "ks" address; CreateType "ks" person;
       AlterTableAdd "ks.users" email_column;
       AlterTableAdd "ks.users" (person_column "owner");
       AlterTableAdd "ks.users" (person_column "backup");
       AlterTableWith "ks.users" changed_options;
       CreateIndex "index_users_email" "ks.users" "email" ]).
Proof. vm_compute. repeat split; reflexivity. Qed.

(** ** The other operations on the examples *)

Lemma reachable_address v : reachable address v -> v = address.
Proof.
  inversion 1 as [|? f u ? Hf Hu _]; subst; [done|]. exfalso.
  repeat (apply elem_of_cons in Hf as [->|Hf]; [by inversion Hu|]).
  inversion Hf.
Qed.

Lemma reachable_person v : reachable person v -> v = person \/ v = address.
Proof.
  inversion 1 as [|? f u ? Hf Hu Hr]; subst; [by left|]. right.
  apply elem_of_cons in Hf as [->|Hf]; [by inversion Hu|].
  apply elem_of_cons in Hf as [->|Hf]; [|inversion Hf].
  apply list_elem_of_singleton in Hu as ->. by apply reachable_address.
Qed.

Lemma model_type_users v : model_type users v -> v = person \/ v = address.
Proof.
  intros (name&col&t&Hcol&Ht&Hv).
  repeat (apply elem_of_cons in Hcol as [[= -> ->]|Hcol];
          [try (by inversion Ht);
           apply list_elem_of_singleton in Ht as ->; by apply reachable_person|]).
  inversion Hcol.
Qed.

Lemma person_identity u v :
  reachable person u -> reachable person v -> class_id u = class_id v -> u = v.
Proof.
  intros Hu Hv.
  apply reachable_person in Hu as [->| ->]; apply reachable_person in Hv as [->| ->]; done.
Qed.

Lemma users_identity u v :
  model_type users u -> model_type users v -> class_id u = class_id v -> u = v.
Proof.
  intros Hu Hv.
  apply model_type_users in Hu as [->| ->]; apply model_type_users in Hv as [->| ->]; done.
Qed.

Lemma person_model_type : model_type users person.
Proof.
  exists "owner", (mkColumn "owner" false false false "owner frozen<person>" None [person]),
    person.
  split; [repeat constructor|]. split; [repeat constructor|apply reachable_self].
Qed.

Lemma typed_keyspace_defined : all_defined typed_keyspace "ks" person.
Proof.
  intros v Hv. apply reachable_person in Hv as [->| ->].
  - exists (mkKeyspaceMetadata ∅
              {[ "address" := ["street"; "zip"]; "person" := ["name"; "home"] ]}),
      ["name"; "home"].
    split; [by vm_compute|]. split; [by vm_compute|].
    intros f Hf. repeat (apply elem_of_cons in Hf as [->|Hf]; [repeat constructor|]).
    inversion Hf.
  - exists (mkKeyspaceMetadata ∅
              {[ "address" := ["street"; "zip"]; "person" := ["name"; "home"] ]}),
      ["street"; "zip"].
    split; [by vm_compute|]. split; [by vm_compute|].
    intros f Hf. repeat (apply elem_of_cons in Hf as [->|Hf]; [repeat constructor|]).
    inversion Hf.
Qed.

Lemma sync_person_returns :
  result (sync_type exec refresh_user_type_metadata os_getenv "ks" person empty_keyspace)
  = inr tt.
Proof. vm_compute. reflexivity. Qed.

Lemma sync_person_events :
  let es := emitted (sync_type exec refresh_user_type_metadata os_getenv "ks" person
                       empty_keyspace) in
  es = (take 7 es ++ Registered "ks" (class_id person) :: drop 8 es)%list.
Proof. vm_compute. reflexivity. Qed.

Lemma sync_new_users_returns : result (sync_users empty_keyspace) = inr tt.
Proof. vm_compute. reflexivity. Qed.

Lemma sync_new_users_events :
  let es := emitted (sync_users empty_keyspace) in
  es = (take 7 es ++ Registered "ks" (class_id person) :: drop 8 es)%list.
Proof. vm_compute. reflexivity. Qed.

Lemma forgetful_types :
  result (sync_column_types forgetful_exec refresh_user_type_metadata "ks" users
            empty_keyspace) = inr ∅.
Proof. vm_compute. reflexivity. Qed.

Lemma forgetful_types_state :
  cluster_after (sync_column_types forgetful_exec refresh_user_type_metadata "ks" users
                   empty_keyspace) = empty_keyspace.
Proof. vm_compute. reflexivity. Qed.

Lemma unlisted_types :
  result (sync_column_types (unlisted_exec (CQLEngineException already_exists))
            refresh_user_type_metadata "ks" users empty_keyspace) = inr ∅.
Proof. vm_compute. reflexivity. Qed.

Lemma unlisted_types_state :
  cluster_after (sync_column_types (unlisted_exec (CQLEngineException already_exists))
                   refresh_user_type_metadata "ks" users empty_keyspace) = typed_keyspace.
Proof. vm_compute. reflexivity. Qed.

Lemma indexed_users_live : live_table indexed_users users = Some indexed_table.
Proof. vm_compute. reflexivity. Qed.

Lemma commented_users_live : live_table commented_users users = Some commented_table.
Proof. vm_compute. reflexivity. Qed.

Lemma no_options_read :
  @_options_map_from_strings jatom json_loads [] = inr ∅.
Proof. reflexivity. Qed.

Lemma gc_read :
  _options_map_from_strings json_loads ["gc_grace_seconds = 3600"] =
  inr {[ "gc_grace_seconds" := OptStr "3600" ]}.
Proof. vm_compute. reflexivity. Qed.

Lemma sync_table_entry_errors_witness :
  (is_model abstract_users = false \/ __abstract__ abstract_users = true \/
   empty_keyspace !! _get_keyspace abstract_users = None) /\
  result (sync_table_ref abstract_users empty_keyspace) =
    inl (CQLEngineException "cannot create table from abstract model").
Proof.
  split; [right; left; reflexivity|].
  exact (proj2 (proj2 (sync_table_entry_errors json_loads exec refresh_user_type_metadata
                         os_getenv Python3 dict_order abstract_users empty_keyspace
                         (or_intror (or_introl eq_refl))))).
Defined.

Lemma sync_table_adds_missing_columns_only_witness :
  live_table old_users users = Some old_users_table /\
  Forall (fun s =>
            match s with
            | AlterTableAdd _ col =>
                db_field_name col ∉ _get_non_pk_field_names old_users_table
            | AlterTableWith _ update_options => update_options <> ∅
            | _ => True
            end)
    (executed (emitted (sync_users old_users))).
Proof.
  split; [exact (old_users_live users eq_refl eq_refl)|].
  exact (sync_table_adds_missing_columns_only json_loads exec refresh_user_type_metadata
           os_getenv Python3 dict_order users old_users old_users_table
           (old_users_live users eq_refl eq_refl)).
Defined.

Lemma email_declared : ("email", email_column) ∈ _columns users.
Proof. repeat constructor. Qed.

Lemma email_not_live : db_field_name email_column ∉ _get_non_pk_field_names old_users_table.
Proof. vm_compute. intros Hin. inversion Hin. Qed.

Lemma sync_table_adds_every_missing_column_witness :
  live_table old_users users = Some old_users_table /\
  result (sync_users old_users) = inr tt /\
  ("email", email_column) ∈ _columns users /\
  (primary_key email_column || partition_key email_column)%bool = false /\
  (db_field_name email_column ∉ _get_non_pk_field_names old_users_table) /\
  AlterTableAdd "ks.users" email_column ∈ executed (emitted (sync_users old_users)).
Proof.
  split; [exact (old_users_live users eq_refl eq_refl)|].
  split; [exact sync_users_returns|]. split; [exact email_declared|].
  split; [reflexivity|]. split; [exact email_not_live|].
  exact (sync_table_adds_every_missing_column json_loads exec refresh_user_type_metadata
           os_getenv Python3 dict_order users old_users old_users_table "email" email_column
           (old_users_live users eq_refl eq_refl) sync_users_returns email_declared
           eq_refl email_not_live).
Defined.

Lemma sync_table_needs_listed_table_witness :
  let ex := CQLEngineException already_exists in
  let rejected :=
    sync_column_types (unlisted_exec ex) refresh_user_type_metadata "ks" users
      empty_keyspace in
  let accepted :=
    sync_column_types forgetful_exec refresh_user_type_metadata "ks" users empty_keyspace in
  PyStr.contains already_exists_message already_exists = true /\
  empty_keyspace !! "ks" = Some no_types /\
  tables no_types !! "users" = None /\
  (result rejected = inr ∅ /\
   unlisted_exec ex (CreateTable users) (cluster_after rejected) =
     (cluster_after rejected, Some ex) /\
   live_table (cluster_after rejected) users = None /\
   result (sync_table json_loads (unlisted_exec ex) refresh_user_type_metadata os_getenv
             Python2 dict_order users empty_keyspace) = inl (KeyError "users")) /\
  (result accepted = inr ∅ /\
   forgetful_exec (CreateTable users) (cluster_after accepted) =
     (cluster_after accepted, None) /\
   live_table (cluster_after accepted) users = None /\
   result (sync_table json_loads forgetful_exec refresh_user_type_metadata os_getenv
             Python3 dict_order users empty_keyspace) = inl (KeyError "users")).
Proof.
  intros ex rejected accepted.
  assert (PyStr.contains already_exists_message already_exists = true) as Hmessage
    by (vm_compute; reflexivity).
  assert (empty_keyspace !! "ks" = Some no_types) as Hks by (vm_compute; reflexivity).
  assert (tables no_types !! "users" = None) as Htable by (vm_compute; reflexivity).
  assert (live_table (cluster_after rejected) users = None) as Hrejected.
  { subst rejected ex. rewrite unlisted_types_state. vm_compute. reflexivity. }
  assert (live_table (cluster_after accepted) users = None) as Haccepted.
  { subst accepted. rewrite forgetful_types_state. vm_compute. reflexivity. }
  split; [exact Hmessage|]. split; [exact Hks|]. split; [exact Htable|]. split.
  - split; [exact unlisted_types|]. split; [reflexivity|]. split; [exact Hrejected|].
    pose proof (proj1 (sync_table_needs_listed_table json_loads (unlisted_exec ex)
                  refresh_user_type_metadata os_getenv Python2 dict_order users
                  empty_keyspace no_types ∅ (cluster_after rejected) (Some ex)
                  eq_refl eq_refl Hks Htable unlisted_types eq_refl
                  (conj eq_refl Hmessage) Hrejected)) as Hr.
    subst rejected ex. rewrite unlisted_types_state in Hr. exact Hr.
  - split; [exact forgetful_types|]. split; [reflexivity|]. split; [exact Haccepted|].
    pose proof (proj1 (sync_table_needs_listed_table json_loads forgetful_exec
                  refresh_user_type_metadata os_getenv Python3 dict_order users
                  empty_keyspace no_types ∅ (cluster_after accepted) None
                  eq_refl eq_refl Hks Htable forgetful_types eq_refl I Haccepted)) as Hr.
    subst accepted. rewrite forgetful_types_state in Hr. exact Hr.
Defined.

Lemma sync_type_missing_keyspace_witness :
  empty_keyspace !! "other" = None /\
  result (sync_type exec refresh_user_type_metadata os_getenv "other" person empty_keyspace)
  = inl (KeyError "other").
Proof.
  assert (empty_keyspace !! "other" = None) as Hks by (vm_compute; reflexivity).
  split; [exact Hks|].
  exact (proj2 (proj2 (sync_type_missing_keyspace exec refresh_user_type_metadata os_getenv
                         "other" person empty_keyspace Hks))).
Defined.

Lemma sync_type_defined_is_quiet_witness :
  all_defined typed_keyspace "ks" person /\
  executed (emitted (sync_type exec refresh_user_type_metadata os_getenv "ks" person
                       typed_keyspace)) = [].
Proof.
  split; [exact typed_keyspace_defined|].
  exact (proj1 (sync_type_defined_is_quiet exec refresh_user_type_metadata os_getenv
                  "ks" person typed_keyspace typed_keyspace_defined)).
Defined.

Lemma sync_type_registers_reachable_witness :
  (forall u v, reachable person u -> reachable person v ->
     class_id u = class_id v -> u = v) /\
  result (sync_type exec refresh_user_type_metadata os_getenv "ks" person empty_keyspace)
  = inr tt /\
  reachable person address /\
  Registered "ks" (class_id address)
    ∈ emitted (sync_type exec refresh_user_type_metadata os_getenv "ks" person
                 empty_keyspace).
Proof.
  assert (reachable person address) as Hr.
  { apply reachable_nested with home_column address;
      [repeat constructor..|apply reachable_self]. }
  split; [exact person_identity|]. split; [exact sync_person_returns|].
  split; [exact Hr|].
  exact (sync_type_registers_reachable exec refresh_user_type_metadata os_getenv "ks"
           person empty_keyspace person_identity sync_person_returns address Hr).
Defined.

Lemma sync_table_registers_reachable_witness :
  (forall u v, model_type users u -> model_type users v ->
     class_id u = class_id v -> u = v) /\
  result (sync_users empty_keyspace) = inr tt /\
  model_type users person /\
  Registered "ks" (class_id person) ∈ emitted (sync_users empty_keyspace).
Proof.
  split; [exact users_identity|]. split; [exact sync_new_users_returns|].
  split; [exact person_model_type|].
  exact (sync_table_registers_reachable json_loads exec refresh_user_type_metadata
           os_getenv Python3 dict_order users empty_keyspace users_identity sync_new_users_returns
           person person_model_type).
Defined.

Lemma sync_type_registers_nested_first_witness :
  let es := emitted (sync_type exec refresh_user_type_metadata os_getenv "ks" person
                       empty_keyspace) in
  (forall u v, reachable person u -> reachable person v ->
     class_id u = class_id v -> u = v) /\
  result (sync_type exec refresh_user_type_metadata os_getenv "ks" person empty_keyspace)
  = inr tt /\
  es = (take 7 es ++ Registered "ks" (class_id person) :: drop 8 es)%list /\
  reachable person person /\ home_column ∈ _fields person /\ address ∈ udts home_column /\
  reachable address address /\
  Registered "ks" (class_id address) ∈ take 7 es.
Proof.
  intros es.
  assert (home_column ∈ _fields person) as Hf by repeat constructor.
  assert (address ∈ udts home_column) as Hu by repeat constructor.
  split; [exact person_identity|]. split; [exact sync_person_returns|].
  split; [exact sync_person_events|]. split; [apply reachable_self|].
  split; [exact Hf|]. split; [exact Hu|]. split; [apply reachable_self|].
  exact (sync_type_registers_nested_first exec refresh_user_type_metadata os_getenv "ks"
           person empty_keyspace (take 7 es) (drop 8 es) person home_column address address
           person_identity sync_person_returns sync_person_events
           (reachable_self person) Hf Hu (reachable_self address)).
Defined.

Lemma sync_table_registers_nested_first_witness :
  let es := emitted (sync_users empty_keyspace) in
  (forall u v, model_type users u -> model_type users v ->
     class_id u = class_id v -> u = v) /\
  result (sync_users empty_keyspace) = inr tt /\
  es = (take 7 es ++ Registered "ks" (class_id person) :: drop 8 es)%list /\
  model_type users person /\ home_column ∈ _fields person /\
  address ∈ udts home_column /\ reachable address address /\
  Registered "ks" (class_id address) ∈ take 7 es.
Proof.
  intros es.
  assert (home_column ∈ _fields person) as Hf by repeat constructor.
  assert (address ∈ udts home_column) as Hu by repeat constructor.
  split; [exact users_identity|]. split; [exact sync_new_users_returns|].
  split; [exact sync_new_users_events|]. split; [exact person_model_type|].
  split; [exact Hf|]. split; [exact Hu|]. split; [apply reachable_self|].
  exact (sync_table_registers_nested_first json_loads exec refresh_user_type_metadata
           os_getenv Python3 dict_order users empty_keyspace (take 7 es) (drop 8 es) person home_column
           address address users_identity sync_new_users_returns sync_new_users_events
           person_model_type Hf Hu (reachable_self address)).
Defined.

Lemma options_need_one_equals_sign_witness :
  occurrences "=" "comment = 'a=b'" <> 1%nat /\
  _options_map_from_strings json_loads ["comment = 'a=b'"; "gc_grace_seconds = 3600"] =
    inl (UnpackError 3).
Proof.
  assert (occurrences "=" "comment = 'a=b'" <> 1%nat) as Hn by (vm_compute; lia).
  split; [exact Hn|].
  exact (proj1 (options_need_one_equals_sign json_loads "comment = 'a=b'" Hn)
           ["gc_grace_seconds = 3600"]).
Defined.

Lemma options_map_app_witness :
  _options_map_from_strings json_loads default_option_strings = inr default_options /\
  _options_map_from_strings json_loads ["gc_grace_seconds = 3600"] =
    inr {[ "gc_grace_seconds" := OptStr "3600" ]} /\
  _options_map_from_strings json_loads
    (default_option_strings ++ ["gc_grace_seconds = 3600"]) =
    inr ({[ "gc_grace_seconds" := OptStr "3600" ]} ∪ default_options).
Proof.
  split; [exact default_options_read|]. split; [exact gc_read|].
  exact (options_map_app json_loads default_option_strings ["gc_grace_seconds = 3600"]
           default_options {[ "gc_grace_seconds" := OptStr "3600" ]}
           default_options_read gc_read).
Defined.

Lemma gc_grace_seconds_default :
  default_options !! "gc_grace_seconds" = Some (OptStr "864000").
Proof. vm_compute. reflexivity. Qed.

Lemma options_map_trimmed_witness :
  _options_map_from_strings json_loads default_option_strings = inr default_options /\
  default_options !! "gc_grace_seconds" = Some (OptStr "864000") /\
  PyStr.strip "gc_grace_seconds" = "gc_grace_seconds" /\
  PyStr.strip "864000" = "864000".
Proof.
  split; [exact default_options_read|]. split; [exact gc_grace_seconds_default|].
  pose proof (options_map_trimmed json_loads default_option_strings default_options
                "gc_grace_seconds" (OptStr "864000") default_options_read
                gc_grace_seconds_default) as [Hname Hvalue].
  split; [exact Hname|exact (Hvalue "864000" eq_refl)].
Defined.

Lemma options_scalar_round_trip_witness :
  PyStr.contains "=" "gc_grace_seconds" = false /\
  PyStr.contains "=" "3600" = false /\
  PyStr.contains "{" "3600" = false /\
  PyStr.strip "gc_grace_seconds" = "gc_grace_seconds" /\
  PyStr.strip "3600" = "3600" /\
  _options_map_from_strings json_loads ["gc_grace_seconds" ++ " = " ++ "3600"] =
    inr {[ "gc_grace_seconds" := OptStr "3600" ]}.
Proof.
  repeat (split; [reflexivity|]).
  exact (options_scalar_round_trip json_loads "gc_grace_seconds" "3600"
           eq_refl eq_refl eq_refl eq_refl eq_refl).
Defined.

Lemma new_users_not_live : live_table empty_keyspace users = None.
Proof. vm_compute. reflexivity. Qed.

Lemma update_options_missing_table_witness :
  live_table empty_keyspace users = None /\
  result (_update_options json_loads exec dict_order users empty_keyspace) = inl (KeyError "users").
Proof.
  split; [exact new_users_not_live|].
  exact (proj2 (proj2 (update_options_missing_table json_loads exec dict_order users empty_keyspace
                         new_users_not_live))).
Defined.

Lemma update_options_nothing_to_change_witness :
  let m := users_with [] in
  live_table old_users m = Some old_users_table /\
  _options_map_from_strings json_loads (tm_option_strings old_users_table) =
    inr default_options /\
  _options_map_from_strings json_loads (model_option_strings m) = inr ∅ /\
  (∅ : gmap string (@optval jatom)) ⊆ default_options /\
  result (_update_options json_loads exec dict_order m old_users) = inr false.
Proof.
  intros m.
  split; [exact (old_users_live m eq_refl eq_refl)|].
  split; [exact default_options_read|]. split; [exact no_options_read|].
  split; [apply map_empty_subseteq|].
  exact (proj2 (proj2 (update_options_nothing_to_change json_loads exec dict_order m old_users
                         old_users_table default_options ∅
                         (old_users_live m eq_refl eq_refl) default_options_read
                         no_options_read (map_empty_subseteq _)))).
Defined.

Lemma comment_listed : "comment = 'a=b'" ∈ tm_option_strings commented_table.
Proof. repeat constructor. Qed.

Lemma update_options_live_option_unreadable_witness :
  live_table commented_users users = Some commented_table /\
  "comment = 'a=b'" ∈ tm_option_strings commented_table /\
  occurrences "=" "comment = 'a=b'" <> 1%nat /\
  executed (emitted (_update_options json_loads exec dict_order users commented_users)) = [].
Proof.
  assert (occurrences "=" "comment = 'a=b'" <> 1%nat) as Hn by (vm_compute; lia).
  split; [exact commented_users_live|]. split; [exact comment_listed|].
  split; [exact Hn|].
  exact (proj1 (update_options_live_option_unreadable json_loads exec dict_order users commented_users
                  commented_table "comment = 'a=b'" commented_users_live comment_listed Hn)).
Defined.

Lemma email_index_live : "index_users_email" ∈ tm_indexes indexed_table.
Proof. vm_compute. reflexivity. Qed.

Lemma sync_table_keeps_live_indexes_witness :
  (forall s c, sync_statement users s -> cluster_le c (exec s c).1) /\
  (forall ks t c, cluster_le c (refresh_user_type_metadata ks t c)) /\
  live_table indexed_users users = Some indexed_table /\
  "index_users_email" ∈ tm_indexes indexed_table /\
  CreateIndex "index_users_email" "ks.users" "email"
    ∉ executed (emitted (sync_users indexed_users)).
Proof.
  pose proof (reference_faithful users eq_refl) as Hfaithful.
  split; [exact (f_monotone _ _ _ _ Hfaithful)|].
  split; [exact (f_refresh _ _ _ _ Hfaithful)|].
  split; [exact indexed_users_live|]. split; [exact email_index_live|].
  exact (sync_table_keeps_live_indexes json_loads exec refresh_user_type_metadata os_getenv
           Python3 dict_order users indexed_users indexed_table "index_users_email"
           (f_monotone _ _ _ _ Hfaithful) (f_refresh _ _ _ _ Hfaithful)
           indexed_users_live email_index_live "ks.users" "email").
Defined.

Lemma point_xy_flat f : f ∈ _fields point_xy -> udts f = [].
Proof.
  intros Hf. repeat (apply elem_of_cons in Hf as [->|Hf]; [reflexivity|]).
  inversion Hf.
Qed.

Lemma old_point_keyspace :
  old_point !! "ks" = Some (mkKeyspaceMetadata ∅ {[ "point" := ["x"] ]}).
Proof. vm_compute. reflexivity. Qed.

Lemma sync_point_xy_returns :
  result (sync_type exec refresh_user_type_metadata os_getenv "ks" point_xy old_point)
  = inr tt.
Proof. vm_compute. reflexivity. Qed.

Lemma sync_type_flat_statements_witness :
  (forall f, f ∈ _fields point_xy -> udts f = []) /\
  old_point !! "ks" = Some (mkKeyspaceMetadata ∅ {[ "point" := ["x"] ]}) /\
  result (sync_type exec refresh_user_type_metadata os_getenv "ks" point_xy old_point)
  = inr tt /\
  executed (emitted (sync_type exec refresh_user_type_metadata os_getenv "ks" point_xy
                       old_point)) =
  match user_types (mkKeyspaceMetadata ∅ {[ "point" := ["x"] ]}) !! type_name point_xy with
  | None => [CreateType "ks" point_xy]
  | Some defined_fields =>
      AlterTypeAdd "ks" (type_name point_xy)
        <$> filter (fun f => db_field_name f ∉ defined_fields) (_fields point_xy)
  end.
Proof.
  split; [exact point_xy_flat|]. split; [exact old_point_keyspace|].
  split; [exact sync_point_xy_returns|].
  exact (sync_type_flat_statements exec refresh_user_type_metadata os_getenv "ks" point_xy
           old_point _ point_xy_flat old_point_keyspace sync_point_xy_returns).
Defined.

End Examples.
